(** * color_organist / color_hustler: a shallow embedding and its properties

    The development follows the three modules of [backend/color_hustler]:
    [color.py] (color spaces, [Color], [ColorSwarm]), [gobo_hustler.py]
    (pattern banks, [Easer]) and [gobo_rotator.py] ([GoboSpinna],
    [take_closest], [build_lut]).

    Numbers.  Python integers are [Z].  Python floats are read twice.
    In the modules of the three source files a float is the rational [Q]
    it denotes: every arithmetic operation is the exact one, comparisons
    are the order of [Q], and float equality [==] is [Qeq]; what is
    proved there holds in exact arithmetic, and for code that computes
    on integers only it holds as it stands.  In the module [Binary64]
    the functions that rounding can change are translated again onto
    IEEE doubles, which is what CPython computes with: it gives the
    result of the code on a concrete input, and it shows which of the
    exact statements fail on doubles.

    Exceptions.  A computation that may raise returns a [result]; code that
    mutates an object returns the new state of that object. *)

From Stdlib Require Import ZArith QArith Qround Qabs Lia Lqa Sorted Floats.
From stdpp Require Import base option list gmap strings.

(** ** Python prelude *)

Module Py.

(** The exceptions raised by the modelled code, with their message where
    the source gives one. *)
Inductive exn : Type :=
| TypeError
| ValueError (msg : string)
| IndexError
| ZeroDivisionError
| StopIteration
| RecursionError
| OverflowError.

Inductive result (A : Type) : Type :=
| Ok (a : A)
| Raise (e : exn).
Arguments Ok {A} a.
Arguments Raise {A} e.

#[global] Instance result_ret : MRet result := @Ok.
#[global] Instance result_bind : MBind result :=
  fun A B (f : A -> result B) (m : result A) =>
    match m with
    | Ok a => f a
    | Raise e => Raise e
    end.

(** [[f(i) for i in items]] for an [f] that may raise: the first exception
    aborts the comprehension. *)
Fixpoint comprehension {A B} (f : A -> result B) (items : list A)
  : result (list B) :=
  match items with
  | [] => Ok []
  | i :: rest =>
      v ← f i; vs ← comprehension f rest; Ok (v :: vs)
  end.

(** Comparisons of floats, as booleans. *)
Definition Qltb (a b : Q) : bool :=
  match (a ?= b)%Q with Lt => true | _ => false end.
Definition Qleb (a b : Q) : bool :=
  match (a ?= b)%Q with Gt => false | _ => true end.

(** The builtins [min] and [max]: the first extremal argument wins. *)
Definition py_min (a b : Q) : Q := if Qltb b a then b else a.
Definition py_max (a b : Q) : Q := if Qltb a b then b else a.
Definition py_min3 (a b c : Q) : Q := py_min (py_min a b) c.
Definition py_max3 (a b c : Q) : Q := py_max (py_max a b) c.

(** [int(x)] truncates towards zero. *)
Definition py_int (x : Q) : Z := Z.quot (Qnum x) (Z.pos (Qden x)).

(** [a % b] on floats, for a positive [b] (it is [1.0] at every call
    site): the result has the sign of [b]. *)
Definition py_mod (a b : Q) : Q := (a - b * inject_Z (Qfloor (a / b)))%Q.

(** [a / b] on floats. *)
Definition py_div (a b : Q) : result Q :=
  if Qeq_bool b 0 then Raise ZeroDivisionError else Ok (a / b)%Q.

(** Sequence indexing: a negative index counts from the end. *)
Definition py_index (len : nat) (i : Z) : option nat :=
  if (0 <=? i)%Z then
    (if (i <? Z.of_nat len)%Z then Some (Z.to_nat i) else None)
  else
    (if (- Z.of_nat len <=? i)%Z then Some (Z.to_nat (Z.of_nat len + i))
     else None).

(** [xs[i]] *)
Definition py_getitem {A} (xs : list A) (i : Z) : result A :=
  match py_index (length xs) i with
  | Some n =>
      match xs !! n with
      | Some x => Ok x
      | None => Raise IndexError
      end
  | None => Raise IndexError
  end.

(** [xs[i] = v] on a list. *)
Definition py_setitem {A} (xs : list A) (i : Z) (v : A) : result (list A) :=
  match py_index (length xs) i with
  | Some n => Ok (<[n := v]> xs)
  | None => Raise IndexError
  end.

(** [zip] of three sequences stops at the shortest. *)
Fixpoint zip3 {A B C} (xs : list A) (ys : list B) (zs : list C)
  : list (A * B * C) :=
  match xs, ys, zs with
  | x :: xs', y :: ys', z :: zs' => (x, y, z) :: zip3 xs' ys' zs'
  | _, _, _ => []
  end.

End Py.
Import Py.

(** ** gobo_hustler.py *)

Module GoboHustlerPy.

(** [validate_iterable(subvalidator)(items)], for [items] that is
    iterable (a list): an empty result is rejected. *)
Definition validate_iterable {A B} (subvalidator : A -> result B)
    (items : list A) : result (list B) :=
  values ← comprehension subvalidator items;
  match values with
  | [] => Raise (ValueError "Must provide at least one value.")
  | _ => Ok values
  end.

(** [itertools.cycle] over a list: the saved items and the position of
    the next one.  [next] on a cycle over nothing raises StopIteration. *)
Record cycle (A : Type) : Type :=
  { cycle_items : list A; cycle_pos : nat }.
Arguments cycle_items {A} _.
Arguments cycle_pos {A} _.

Definition cycle_new {A} (items : list A) : cycle A :=
  {| cycle_items := items; cycle_pos := 0 |}.

Definition cycle_next {A} (c : cycle A) : result (A * cycle A) :=
  match cycle_items c !! cycle_pos c with
  | Some x =>
      Ok (x, {| cycle_items := cycle_items c;
                cycle_pos := (S (cycle_pos c)) mod (length (cycle_items c)) |})
  | None => Raise StopIteration
  end.

(** [k] successive calls of [next]. *)
Fixpoint cycle_take {A} (k : nat) (c : cycle A) : result (list A * cycle A) :=
  match k with
  | O => Ok ([], c)
  | S k' =>
      '(x, c1) ← cycle_next c;
      '(xs, c2) ← cycle_take k' c1;
      Ok (x :: xs, c2)
  end.

Definition ALL : string := "all".
Definition SINGLE : string := "single".
Definition TWO_VALUE : string := "two_value".

Definition create_banks (n : nat) : gmap string (cycle (list nat)) :=
  let indices := seq 0 n in
  let every := cycle_new [indices] in
  let singles := cycle_new ((fun i => [i]) <$> seq 0 n) in
  let evens := filter (fun i => i mod 2 = 0) indices in
  let odds := filter (fun i => i mod 2 = 1) indices in
  let two_values := cycle_new [evens; odds] in
  <[ALL := every]> (<[SINGLE := singles]> (<[TWO_VALUE := two_values]> ∅)).

(** [Easer]: linearly ease the current value towards the target. *)
Record Easer : Type := { target : Q; current : Q }.

Definition Easer_init (initial_value : Q) : Easer :=
  {| target := initial_value; current := initial_value |}.

(** [ease] returns the new current value and the updated easer.  The
    arithmetic is exact here; [Binary64.ease] is the same code on
    doubles. *)
Definition ease (self : Easer) (dt easing : Q) : Q * Easer :=
  let dv := (target self - current self)%Q in
  let dv_max := (dt * easing)%Q in
  let actual_dv :=
    if Qltb dv_max (Qabs dv) then
      (if Qltb 0 dv then dv_max else (-1 * dv_max)%Q)
    else dv in
  let cur := (current self + actual_dv)%Q in
  (cur, {| target := target self; current := cur |}).

(** [validate_easing(value)], for a [value] that is a number. *)
Definition validate_easing (value : Q) : result unit :=
  if Qleb value 0 then Raise (ValueError "Negative easing makes no sense.")
  else Ok tt.

(** [GoboHustler].  The trigger, the parameter generator and the frame
    clock are outside this module: a call of [render] is given the time,
    whether the trigger fired and the value the generator returned.

    The fixtures ([rotos]) are objects of classes that [src/] does not
    hold: of a fixture the hustler uses [get_controls()], a list of
    callables that take one value, and [render(dmx_frame)].  What these
    do is state outside the hustler, the [World] below; a call of either
    may change it, and may raise.

    [self.bank] is the very cycle object stored in [self.banks], so it is
    kept as the key of that cycle. *)
Class FixtureLib (Roto World : Type) : Type :=
  { get_controls : Roto -> list (Q -> World -> result unit * World);
    roto_render : Roto -> list Z -> World -> result unit * (list Z * World) }.

Section Hustler.
Context {Roto World : Type} {fixture_lib : FixtureLib Roto World}.

Record GoboHustler : Type :=
  { easing : Q;
    controls : list (Q -> World -> result unit * World);
    rotos : list Roto;
    control_params : list Easer;
    last_render : Q;
    _bank_name : string;
    banks : gmap string (cycle (list nat));
    bank : string }.

Definition GoboHustler_init (rotos : list Roto) (now : Q) : GoboHustler :=
  let controls := concat (get_controls <$> rotos) in
  let control_params := (fun _ => Easer_init 0) <$> controls in
  {| easing := 1 # 10;
     controls := controls;
     rotos := rotos;
     control_params := control_params;
     last_render := now;
     _bank_name := SINGLE;
     banks := create_banks (length control_params);
     bank := SINGLE |}.

(** The exception of a failed dictionary lookup. *)
Inductive dict_exn : Type := KeyError (key : string).

(** The [bank_name] setter: the name is stored before the lookup. *)
Definition set_bank_name (self : GoboHustler) (bank_name : string)
  : (unit + dict_exn) * GoboHustler :=
  let self :=
    {| easing := easing self; controls := controls self;
       rotos := rotos self;
       control_params := control_params self;
       last_render := last_render self;
       _bank_name := bank_name;
       banks := banks self; bank := bank self |} in
  match banks self !! bank_name with
  | Some _ =>
      (inl tt,
       {| easing := easing self; controls := controls self;
          rotos := rotos self;
          control_params := control_params self;
          last_render := last_render self;
          _bank_name := _bank_name self;
          banks := banks self; bank := bank_name |})
  | None => (inr (KeyError bank_name), self)
  end.

(** [for i in pattern: self.control_params[i].target = input_value] *)
Fixpoint assign_targets (pattern : list nat) (input_value : Q)
    (params : list Easer) : result unit * list Easer :=
  match pattern with
  | [] => (Ok tt, params)
  | i :: rest =>
      match params !! i with
      | Some param =>
          assign_targets rest input_value
            (<[i := {| target := input_value; current := current param |}]>
               params)
      | None => (Raise IndexError, params)
      end
  end.

(** [for control, param in zip(self.controls, self.control_params)]:
    each parameter is eased and its control called with the value; a
    control that raises ends the loop, with its parameter eased and the
    later ones not.  The parameters beyond the controls are not
    touched. *)
Fixpoint ease_controls (controls : list (Q -> World -> result unit * World))
    (params : list Easer) (dt easing : Q) (world : World)
  : result unit * list Easer * World :=
  match controls, params with
  | control :: controls', param :: params' =>
      let '(value, param) := ease param dt easing in
      match control value world with
      | (Ok _, world) =>
          let '(r, params', world) :=
            ease_controls controls' params' dt easing world in
          (r, param :: params', world)
      | (Raise e, world) => (Raise e, param :: params', world)
      end
  | _, _ => (Ok tt, params, world)
  end.

(** [for roto in self.rotos: roto.render(dmx_frame)] *)
Fixpoint render_rotos (rotos : list Roto) (dmx_frame : list Z) (world : World)
  : result unit * (list Z * World) :=
  match rotos with
  | [] => (Ok tt, (dmx_frame, world))
  | roto :: rotos' =>
      match roto_render roto dmx_frame world with
      | (Ok _, (dmx_frame, world)) => render_rotos rotos' dmx_frame world
      | (Raise e, after) => (Raise e, after)
      end
  end.

(** What a call of [render] leaves: whether it returned, the hustler,
    the frame and the fixtures. *)
Record rendered : Type :=
  { raised : result unit;
    hustler : GoboHustler;
    frame : list Z;
    world : World }.

(** [render(dmx_frame)].  The key in [bank] always names a cycle of
    [banks]: the constructor and the setter store it only after the
    lookup. *)
Definition GoboHustler_render (self : GoboHustler) (now : Q) (fired : bool)
    (input_value : Q) (dmx_frame : list Z) (world : World) : rendered :=
  let dt := (now - last_render self)%Q in
  let with_params (bs : gmap string (cycle (list nat))) (ps : list Easer) :=
    {| easing := easing self; controls := controls self;
       rotos := rotos self;
       control_params := ps; last_render := now;
       _bank_name := _bank_name self; banks := bs; bank := bank self |} in
  let stop (e : exn) (bs : gmap string (cycle (list nat)))
      (ps : list Easer) :=
    {| raised := Raise e; hustler := with_params bs ps;
       frame := dmx_frame; world := world |} in
  let finish (bs : gmap string (cycle (list nat))) (ps : list Easer) :=
    match ease_controls (controls self) ps dt (easing self) world with
    | (Ok _, ps, world) =>
        let '(r, (dmx_frame, world)) :=
          render_rotos (rotos self) dmx_frame world in
        {| raised := r; hustler := with_params bs ps;
           frame := dmx_frame; world := world |}
    | (Raise e, ps, world) =>
        {| raised := Raise e; hustler := with_params bs ps;
           frame := dmx_frame; world := world |}
    end in
  if fired then
    match banks self !! bank self with
    | Some c =>
        match cycle_next c with
        | Ok (pattern, c') =>
            let bs := <[bank self := c']> (banks self) in
            match assign_targets pattern input_value (control_params self) with
            | (Ok _, ps) => finish bs ps
            | (Raise e, ps) => stop e bs ps
            end
        | Raise e => stop e (banks self) (control_params self)
        end
    | None => stop StopIteration (banks self) (control_params self)
    end
  else finish (banks self) (control_params self).

End Hustler.
Arguments GoboHustler Roto World : clear implicits.
Arguments rendered Roto World : clear implicits.

End GoboHustlerPy.

(** ** color.py *)

Module ColorPy.

Local Open Scope Q_scope.

(** The two functions imported from the [husl] package.  They take and
    return three floats in the package's native ranges (degrees and
    percent); the results are fresh lists. *)
Class HuslLib : Type :=
  { rgb_to_husl_args : Q -> Q -> Q -> Q * Q * Q;
    husl_to_rgb_args : Q -> Q -> Q -> Q * Q * Q }.

(** A coordinate sequence is a list or a tuple: both can be read and
    unpacked, only a list supports item assignment. *)
Inductive pyseq : Type :=
| PyList (xs : list Q)
| PyTuple (xs : list Q).

Definition items (s : pyseq) : list Q :=
  match s with PyList xs | PyTuple xs => xs end.

Definition seq_getitem (s : pyseq) (i : Z) : result Q :=
  py_getitem (items s) i.

Definition seq_setitem (s : pyseq) (i : Z) (v : Q) : result pyseq :=
  match s with
  | PyList xs => xs' ← py_setitem xs i v; Ok (PyList xs')
  | PyTuple _ => Raise TypeError
  end.

Definition unpack_error : exn := ValueError "wrong number of values to unpack".

Inductive color_space : Type := rgb | hsv | husl.

Section Conversions.
Context {husl_lib : HuslLib}.

Definition rgb_to_husl (coordinates : pyseq) : result pyseq :=
  match items coordinates with
  | [r; g; b] =>
      let '(h, s, l) := rgb_to_husl_args r g b in
      Ok (PyList [h / 360; s / 100; l / 100])
  | _ => Raise TypeError
  end.

Definition husl_to_rgb (coordinates : pyseq) : result pyseq :=
  match items coordinates with
  | [h; s; l] =>
      let '(r, g, b) := husl_to_rgb_args (h * 360) (s * 100) (l * 100) in
      Ok (PyList [r; g; b])
  | _ => Raise unpack_error
  end.

Definition hsv_to_rgb (coordinates : pyseq) : result pyseq :=
  match items coordinates with
  | [hue; saturation; value] =>
      if Qeq_bool saturation 0 then Ok (PyTuple [value; value; value])
      else
        let hue := hue * 6 in
        let hue := if Qeq_bool hue 6 then 0 else hue in
        let sector := py_int hue in
        let v_1 := value * (1 - saturation) in
        let v_2 := value * (1 - saturation * (hue - inject_Z sector)) in
        let v_3 :=
          value * (1 - saturation * (1 - (hue - inject_Z sector))) in
        let '(r, g, b) :=
          if (sector =? 0)%Z then (value, v_3, v_1)
          else if (sector =? 1)%Z then (v_2, value, v_1)
          else if (sector =? 2)%Z then (v_1, value, v_3)
          else if (sector =? 3)%Z then (v_1, v_2, value)
          else if (sector =? 4)%Z then (v_3, v_1, value)
          else (value, v_1, v_2) in
        Ok (PyList [r; g; b])
  | _ => Raise unpack_error
  end.

Definition rgb_to_hsv (coordinates : pyseq) : result pyseq :=
  match items coordinates with
  | [red; green; blue] =>
      let min_val := py_min3 red green blue in
      let max_val := py_max3 red green blue in
      let delta := max_val - min_val in
      let value := max_val in
      if Qeq_bool delta 0 then
        (* this is a gray, arbitrarily choose hue = 0 *)
        Ok (PyList [0; 0; value])
      else
        saturation ← py_div delta max_val;
        let delta_r := (((max_val - red) / 6) + (delta / 2)) / delta in
        let delta_g := (((max_val - green) / 6) + (delta / 2)) / delta in
        let delta_b := (((max_val - blue) / 6) + (delta / 2)) / delta in
        let hue :=
          if Qeq_bool red max_val then delta_b - delta_g
          else if Qeq_bool green max_val then (1 / 3) + delta_r - delta_b
          else (2 / 3) + delta_g - delta_r in
        let hue :=
          if Qltb hue 0 then hue + 1
          else if Qltb 1 hue then hue - 1
          else hue in
        Ok (PyList [hue; saturation; value])
  | _ => Raise unpack_error
  end.

Definition identity (coordinates : pyseq) : result pyseq := Ok coordinates.

Definition space_to_rgb_map (s : color_space) : pyseq -> result pyseq :=
  match s with
  | rgb => identity
  | hsv => hsv_to_rgb
  | husl => husl_to_rgb
  end.

Definition rgb_to_space_map (s : color_space) : pyseq -> result pyseq :=
  match s with
  | rgb => identity
  | hsv => rgb_to_hsv
  | husl => rgb_to_husl
  end.

Definition convert_color_space (source_space target_space : color_space)
    (coordinates : pyseq) : result pyseq :=
  rgb_representation ← space_to_rgb_map source_space coordinates;
  rgb_to_space_map target_space rgb_representation.

Definition clamp (val min_val max_val : Q) : Q :=
  py_min (py_max min_val val) max_val.

(** A color in a particular color space. *)
Record Color : Type := { space : color_space; coordinates : pyseq }.

Definition Color_init (color_space : color_space) (coordinates : pyseq)
  : Color :=
  let clamped_coordinates :=
    (fun coord => clamp coord 0 1) <$> items coordinates in
  {| space := color_space; coordinates := PyList clamped_coordinates |}.

Definition in_color_space (self : Color) (color_space : color_space)
  : result Color :=
  coords ← convert_color_space (space self) color_space (coordinates self);
  Ok (Color_init color_space coords).

Definition in_rgb (self : Color) : result Color := in_color_space self rgb.
Definition in_hsv (self : Color) : result Color := in_color_space self hsv.
Definition in_husl (self : Color) : result Color := in_color_space self husl.

(** [Color.__eq__] for [other] a [Color]: both sides are converted and
    compared with [==], which is [__eq__] again.  [depth] is the number
    of Python frames left before the interpreter's recursion limit. *)
Fixpoint Color_eq (depth : nat) (self other : Color) : result bool :=
  match depth with
  | O => Raise RecursionError
  | S depth' =>
      lhs ← in_rgb self;
      rhs ← in_rgb other;
      Color_eq depth' lhs rhs
  end.

(** [Color.__ne__]: [not self == other]. *)
Definition Color_ne (depth : nat) (self other : Color) : result bool :=
  equal ← Color_eq depth self other; Ok (negb equal).

Definition get_coordinate (self : Color) (color_space : color_space)
    (coordinate_index : Z) : result Q :=
  shifted_coordinates ←
    convert_color_space (space self) color_space (coordinates self);
  seq_getitem shifted_coordinates coordinate_index.

(** [set_coordinate] returns the color after the assignment; when it
    raises, the color is left as it was. *)
Definition set_coordinate (self : Color) (color_space : color_space)
    (coordinate_index : Z) (value : Q) : result Color :=
  let value := clamp value 0 1 in
  shifted_coordinates ←
    convert_color_space (space self) color_space (coordinates self);
  shifted_coordinates ←
    seq_setitem shifted_coordinates coordinate_index value;
  coords ← convert_color_space color_space (space self) shifted_coordinates;
  Ok {| space := space self; coordinates := coords |}.

(** The [hue_hsv] property: getter and setter. *)
Definition hue_hsv (self : Color) : result Q := get_coordinate self hsv 0.
Definition set_hue_hsv (self : Color) (value : Q) : result Color :=
  set_coordinate self hsv 0 value.

(** [repack_c0], [repack_c1], [repack_c2]: [color.coordinates[k] = c]. *)
Definition repack (k : Z) (color : Color) (c : Q) : result Color :=
  coords ← seq_setitem (coordinates color) k c;
  Ok {| space := space color; coordinates := coords |}.
Definition repack_c1 := repack 1.
Definition repack_c2 := repack 2.

(** [add_hue_hsv], in exact arithmetic; [Binary64.add_hue_hsv] is the
    same code on doubles. *)
Definition add_hue_hsv (color : Color) (value : Q) : result Color :=
  col_hsv ← in_hsv color;
  h ← hue_hsv col_hsv;
  set_hue_hsv col_hsv (py_mod (h + value) 1).

End Conversions.

(** [param_gen] generators: only [get_constrained] is used here; it
    returns the drawn value and the advanced generator. *)
Inductive constrain_mode : Type := wrap | fold.

Class ParamGen (P : Type) : Type :=
  { get_constrained : P -> Q -> Q -> constrain_mode -> Q * P }.

(** [random.Random]: a fresh source, seeding, and the draw behind
    [randint(a, b)] for [a <= b]. *)
Class RandomLib (R : Type) : Type :=
  { Random_new : R;
    Random_seed : R -> Z -> R;
    Random_draw : R -> Z -> Z -> Z * R }.

Definition randint {R} `{RandomLib R} (self : R) (a b : Z) : result (Z * R) :=
  if (b <? a)%Z then Raise (ValueError "empty range for randrange()")
  else Ok (Random_draw self a b).

Section Generators.
Context {P R : Type} `{ParamGen P} `{RandomLib R}.

Record ColorGenerator : Type :=
  { h_gen : P; s_gen : P; v_gen : P; colorspace : color_space }.

Definition ColorGenerator_get (self : ColorGenerator)
  : Color * ColorGenerator :=
  let '(h_val, hg) := get_constrained (h_gen self) 0 1 wrap in
  let '(s_val, sg) := get_constrained (s_gen self) 0 1 fold in
  let '(v_val, vg) := get_constrained (v_gen self) 0 1 fold in
  (Color_init (colorspace self) (PyTuple [h_val; s_val; v_val]),
   {| h_gen := hg; s_gen := sg; v_gen := vg;
      colorspace := colorspace self |}).

(** Agglomerate multiple color generators. *)
Record ColorSwarm : Type :=
  { random : bool; rand_gen : R; gens : list ColorGenerator; next : Z }.

Definition ColorSwarm_init (col_gens : list ColorGenerator)
    (random : bool) (seed : option Z) : result ColorSwarm :=
  let rand_gen := Random_new in
  let rand_gen :=
    match seed with
    | Some s => Random_seed rand_gen s
    | None => rand_gen
    end in
  Ok {| random := random; rand_gen := rand_gen;
        gens := col_gens; next := 0 |}.

(** [self.gens[i].get()]: the color, and the list with the advanced
    generator in place. *)
Definition call_gen (gs : list ColorGenerator) (i : Z)
  : result (Color * list ColorGenerator) :=
  g ← py_getitem gs i;
  let '(col, g') := ColorGenerator_get g in
  gs' ← py_setitem gs i g';
  Ok (col, gs').

(** [get] returns what the call returns or raises, the index it used
    (when it got that far) and the swarm afterwards. *)
Definition ColorSwarm_get (self : ColorSwarm)
  : result Color * option Z * ColorSwarm :=
  let len := Z.of_nat (length (gens self)) in
  if random self then
    match randint (rand_gen self) 0 (len - 1) with
    | Raise e => (Raise e, None, self)
    | Ok (gen, rg) =>
        let self := {| random := random self; rand_gen := rg;
                       gens := gens self; next := next self |} in
        match call_gen (gens self) gen with
        | Raise e => (Raise e, Some gen, self)
        | Ok (col, gs) =>
            (Ok col, Some gen,
             {| random := random self; rand_gen := rand_gen self;
                gens := gs; next := next self |})
        end
    end
  else
    (* advance to the next generator first in case the number of gens
       has changed since the last call *)
    if (len =? 0)%Z then (Raise ZeroDivisionError, None, self)
    else
      let nxt := ((next self + 1) mod len)%Z in
      let self := {| random := random self; rand_gen := rand_gen self;
                     gens := gens self; next := nxt |} in
      match call_gen (gens self) nxt with
      | Raise e => (Raise e, Some nxt, self)
      | Ok (col, gs) =>
          (Ok col, Some nxt,
           {| random := random self; rand_gen := rand_gen self;
              gens := gs; next := nxt |})
      end.

End Generators.
Arguments ColorGenerator P : clear implicits.
Arguments ColorSwarm P R : clear implicits.

End ColorPy.


(** ** gobo_rotator.py *)

Module GoboRotatorPy.

Local Open Scope Q_scope.

(** [clamp(val, lo, hi)] is imported from [param_gen], which is not part
    of the sources at hand: it is a parameter of this module. *)
Class ClampLib : Type := { clamp : Q -> Q -> Q -> Q }.

(** Control profile for the GOBO SPINNAZ driver: two gobos, a direction
    and a speed channel each. *)
Record GoboSpinna : Type := { address : Z; g0 : Q; g1 : Q }.

Definition GoboSpinna_init (address : Z) : GoboSpinna :=
  {| address := address; g0 := 0; g1 := 0 |}.

(** Writes into the DMX buffer: a computation returns normally or raises,
    and leaves a buffer behind in both cases. *)
Definition bufM (A : Type) : Type := list Z -> result A * list Z.

#[global] Instance bufM_ret : MRet bufM := fun A a buf => (Ok a, buf).
#[global] Instance bufM_bind : MBind bufM :=
  fun A B (f : A -> bufM B) (m : bufM A) buf =>
    match m buf with
    | (Ok a, buf') => f a buf'
    | (Raise e, buf') => (Raise e, buf')
    end.

(** [buf[i] = v] *)
Definition buf_store (i v : Z) : bufM unit :=
  fun buf =>
    match py_setitem buf i v with
    | Ok buf' => (Ok tt, buf')
    | Raise e => (Raise e, buf)
    end.

Section Render.
Context {clamp_lib : ClampLib}.

Definition _render_single (value : Q) : Z * Z :=
  let direction := if Qleb value 0 then 0%Z else 255%Z in
  let speed := py_int (clamp (Qabs value * 255) 0 255) in
  (direction, speed).

Definition render (self : GoboSpinna) : bufM unit :=
  let '(d0, s0) := _render_single (g0 self) in
  let '(d1, s1) := _render_single (g1 self) in
  buf_store (address self) d0 ;;
  buf_store (address self + 1) s0 ;;
  buf_store (address self + 2) d1 ;;
  buf_store (address self + 3) s1.

End Render.

(** [bisect.bisect_left(a, x)] of the standard library: the binary search
    between [lo] and [hi].  Every turn of the loop shrinks [hi - lo], so
    [len(a)] turns are enough and that is the fuel given below. *)
Fixpoint bisect_loop (fuel : nat) (a : list Q) (x : Q) (lo hi : nat) : nat :=
  match fuel with
  | O => lo
  | S fuel' =>
      if (lo <? hi)%nat then
        let mid := ((lo + hi) / 2)%nat in
        match a !! mid with
        | Some a_mid =>
            if Qltb a_mid x then bisect_loop fuel' a x (S mid) hi
            else bisect_loop fuel' a x lo mid
        | None => lo
        end
      else lo
  end.

Definition bisect_left (a : list Q) (x : Q) : nat :=
  bisect_loop (length a) a x 0 (length a).

(** Assumes myList is sorted.  Returns closest value to myNumber.  If two
    numbers are equally close, return the smallest number.  The two
    differences are exact here, as they are for a list and a number of
    integers; [Binary64.take_closest] is the same code on doubles. *)
Definition take_closest (myList : list Q) (myNumber : Q) : result Q :=
  let pos := bisect_left myList myNumber in
  if (pos =? 0)%nat then py_getitem myList 0
  else if (pos =? length myList)%nat then py_getitem myList (-1)
  else
    before ← py_getitem myList (Z.of_nat pos - 1);
    after ← py_getitem myList (Z.of_nat pos);
    if Qltb (after - myNumber) (myNumber - before) then Ok after
    else Ok before.

(** [delta(vals)]: the differences of neighbours; the subtraction is that
    of the elements (integers for the codes, floats for the speeds). *)
Definition delta {A} (sub : A -> A -> A) (vals : list A) : list A :=
  zip_with (fun l h => sub h l) vals (tail vals).

(** The inner loop of [build_lut]: the last entry before the first one
    whose code exceeds [value]. *)
Fixpoint find_base (value : Z) (segments : list (Z * Q * Q))
    (base : Z * Q * Q) : Z * Q * Q :=
  match segments with
  | [] => base
  | (x0, s0, ds0) :: rest =>
      if (value - x0 <? 0)%Z then base
      else find_base value rest (x0, s0, ds0)
  end.

(** [build_lut], with integer codes and speeds in exact arithmetic;
    [Binary64.build_lut] is the same code with speeds on doubles. *)
Definition build_lut (meas : list (Z * Q)) : result (list (Q * Z)) :=
  let x := meas.*1 in
  let s := meas.*2 in
  ds_dx ←
    comprehension (fun '(ds, dx) => py_div ds (inject_Z dx))
      (zip (delta Qminus s) (delta Z.sub x));
  x_first ← py_getitem x 0;
  x_last ← py_getitem x (-1);
  comprehension
    (fun value =>
       base_s ← py_getitem s 0;
       base_x ← py_getitem x 0;
       base_ds_dx ← py_getitem ds_dx 0;
       let '(base_x, base_s, base_ds_dx) :=
         find_base value (zip3 x s ds_dx) (base_x, base_s, base_ds_dx) in
       let speed := base_s + inject_Z (value - base_x) * base_ds_dx in
       Ok (speed, value))
    (seqZ x_first (x_last + 1 - x_first)).

End GoboRotatorPy.

(** ** The same code on IEEE doubles

    The modules above read a Python float as the rational it denotes and
    every operation as the exact one.  CPython computes on binary64 and
    rounds each operation to nearest, ties to even.  This module holds
    the functions whose results the rounding can change, translated once
    more from the source onto the kernel's binary64 floats: it is what
    runs on a concrete input as the interpreter does, and it shows where
    a statement that holds in exact arithmetic fails on doubles. *)

Module Binary64.

Local Open Scope float_scope.

(** The exact value of a finite double. *)
Definition float_value (x : float) : Q :=
  match Prim2SF x with
  | S754_finite s m e =>
      let magnitude :=
        if (0 <=? e)%Z then inject_Z (Z.pos m * 2 ^ e)
        else (Z.pos m # 2 ^ Z.to_pos (- e))%Q in
      if s then (- magnitude)%Q else magnitude
  | _ => 0%Q
  end.

(** [float(n)] for an integer: the nearest double, OverflowError beyond
    the range of doubles. *)
Definition py_float (n : Z) : result float :=
  let x := SF2Prim (binary_normalize prec emax n 0 false) in
  if is_infinity x then Raise OverflowError else Ok x.

(** [int(x)] truncates towards zero; infinities and NaN are refused. *)
Definition py_int (x : float) : result Z :=
  match Prim2SF x with
  | S754_zero _ => Ok 0%Z
  | S754_finite s m e =>
      let magnitude :=
        if (0 <=? e)%Z then (Z.pos m * 2 ^ e)%Z
        else (Z.pos m / 2 ^ (- e))%Z in
      Ok (if s then (- magnitude)%Z else magnitude)
  | S754_infinity _ => Raise OverflowError
  | S754_nan => Raise (ValueError "cannot convert float NaN to integer")
  end.

(** The builtins [min] and [max]: the first extremal argument wins. *)
Definition py_min (a b : float) : float := if b <? a then b else a.
Definition py_max (a b : float) : float := if a <? b then b else a.
Definition py_min3 (a b c : float) : float := py_min (py_min a b) c.
Definition py_max3 (a b c : float) : float := py_max (py_max a b) c.

(** [a / b] *)
Definition py_div (a b : float) : result float :=
  if b =? 0 then Raise ZeroDivisionError else Ok (a / b).

(** The C function [fmod] on finite doubles with [y] not zero: the
    remainder of the truncated division, which is a double and so is
    returned without rounding. *)
Definition fmod (x y : float) : float :=
  match Prim2SF x, Prim2SF y with
  | S754_finite sx mx ex, S754_finite _ my ey =>
      let e := Z.min ex ey in
      let r := Z.rem (Z.pos mx * 2 ^ (ex - e)) (Z.pos my * 2 ^ (ey - e)) in
      SF2Prim (binary_normalize prec emax (if sx then (- r)%Z else r) e sx)
  | S754_zero _, S754_finite _ _ _ => x
  | S754_finite _ _ _, S754_infinity _ => x
  | S754_zero _, S754_infinity _ => x
  | _, _ => nan
  end.

(** [a % b] on floats: [fmod], moved by [b] when its sign is not that of
    [b]. *)
Definition py_mod (a b : float) : result float :=
  if b =? 0 then Raise ZeroDivisionError
  else
    let m := fmod a b in
    if m =? 0 then Ok (if b <? 0 then -0 else 0)
    else if Bool.eqb (b <? 0) (m <? 0) then Ok m
    else Ok (m + b).

(** *** gobo_hustler.py *)

Record Easer : Type := { target : float; current : float }.

Definition ease (self : Easer) (dt easing : float) : float * Easer :=
  let dv := target self - current self in
  let dv_max := dt * easing in
  let actual_dv :=
    if dv_max <? abs dv then
      (if 0 <? dv then dv_max else -1 * dv_max)
    else dv in
  let cur := current self + actual_dv in
  (cur, {| target := target self; current := cur |}).

(** *** gobo_rotator.py *)

Fixpoint bisect_loop (fuel : nat) (a : list float) (x : float) (lo hi : nat)
  : nat :=
  match fuel with
  | O => lo
  | S fuel' =>
      if (lo <? hi)%nat then
        let mid := ((lo + hi) / 2)%nat in
        match a !! mid with
        | Some a_mid =>
            if a_mid <? x then bisect_loop fuel' a x (S mid) hi
            else bisect_loop fuel' a x lo mid
        | None => lo
        end
      else lo
  end.

Definition bisect_left (a : list float) (x : float) : nat :=
  bisect_loop (length a) a x 0 (length a).

Definition take_closest (myList : list float) (myNumber : float)
  : result float :=
  let pos := bisect_left myList myNumber in
  if (pos =? 0)%nat then py_getitem myList 0
  else if (pos =? length myList)%nat then py_getitem myList (-1)
  else
    before ← py_getitem myList (Z.of_nat pos - 1);
    after ← py_getitem myList (Z.of_nat pos);
    if after - myNumber <? myNumber - before then Ok after
    else Ok before.

Fixpoint find_base (value : Z) (segments : list (Z * float * float))
    (base : Z * float * float) : Z * float * float :=
  match segments with
  | [] => base
  | (x0, s0, ds0) :: rest =>
      if (value - x0 <? 0)%Z then base
      else find_base value rest (x0, s0, ds0)
  end.

(** [build_lut] on integer codes and float speeds: [ds/dx] and
    [(value - base_x)*base_ds_dx] convert the integer to a float. *)
Definition build_lut (meas : list (Z * float)) : result (list (float * Z)) :=
  let x := meas.*1 in
  let s := meas.*2 in
  ds_dx ←
    comprehension (fun '(ds, dx) => dx ← py_float dx; py_div ds dx)
      (zip (GoboRotatorPy.delta PrimFloat.sub s)
           (GoboRotatorPy.delta Z.sub x));
  x_first ← py_getitem x 0;
  x_last ← py_getitem x (-1);
  comprehension
    (fun value =>
       base_s ← py_getitem s 0;
       base_x ← py_getitem x 0;
       base_ds_dx ← py_getitem ds_dx 0;
       let '(base_x, base_s, base_ds_dx) :=
         find_base value (zip3 x s ds_dx) (base_x, base_s, base_ds_dx) in
       steps ← py_float (value - base_x);
       let speed := base_s + steps * base_ds_dx in
       Ok (speed, value))
    (seqZ x_first (x_last + 1 - x_first)).

(** *** color.py *)

Class HuslLib : Type :=
  { rgb_to_husl_args : float -> float -> float -> float * float * float;
    husl_to_rgb_args : float -> float -> float -> float * float * float }.

Inductive pyseq : Type :=
| PyList (xs : list float)
| PyTuple (xs : list float).

Definition items (s : pyseq) : list float :=
  match s with PyList xs | PyTuple xs => xs end.

Definition seq_getitem (s : pyseq) (i : Z) : result float :=
  py_getitem (items s) i.

Definition seq_setitem (s : pyseq) (i : Z) (v : float) : result pyseq :=
  match s with
  | PyList xs => xs' ← py_setitem xs i v; Ok (PyList xs')
  | PyTuple _ => Raise TypeError
  end.

Section Conversions.
Context {husl_lib : HuslLib}.

Definition rgb_to_husl (coordinates : pyseq) : result pyseq :=
  match items coordinates with
  | [r; g; b] =>
      let '(h, s, l) := rgb_to_husl_args r g b in
      Ok (PyList [h / 360; s / 100; l / 100])
  | _ => Raise TypeError
  end.

Definition husl_to_rgb (coordinates : pyseq) : result pyseq :=
  match items coordinates with
  | [h; s; l] =>
      let '(r, g, b) := husl_to_rgb_args (h * 360) (s * 100) (l * 100) in
      Ok (PyList [r; g; b])
  | _ => Raise ColorPy.unpack_error
  end.

Definition hsv_to_rgb (coordinates : pyseq) : result pyseq :=
  match items coordinates with
  | [hue; saturation; value] =>
      if saturation =? 0 then Ok (PyTuple [value; value; value])
      else
        let hue := hue * 6 in
        let hue := if hue =? 6 then 0 else hue in
        sector ← py_int hue;
        whole ← py_float sector;
        let v_1 := value * (1 - saturation) in
        let v_2 := value * (1 - saturation * (hue - whole)) in
        let v_3 := value * (1 - saturation * (1 - (hue - whole))) in
        let '(r, g, b) :=
          if (sector =? 0)%Z then (value, v_3, v_1)
          else if (sector =? 1)%Z then (v_2, value, v_1)
          else if (sector =? 2)%Z then (v_1, value, v_3)
          else if (sector =? 3)%Z then (v_1, v_2, value)
          else if (sector =? 4)%Z then (v_3, v_1, value)
          else (value, v_1, v_2) in
        Ok (PyList [r; g; b])
  | _ => Raise ColorPy.unpack_error
  end.

Definition rgb_to_hsv (coordinates : pyseq) : result pyseq :=
  match items coordinates with
  | [red; green; blue] =>
      let min_val := py_min3 red green blue in
      let max_val := py_max3 red green blue in
      let delta := max_val - min_val in
      let value := max_val in
      if delta =? 0 then
        (* this is a gray, arbitrarily choose hue = 0 *)
        Ok (PyList [0; 0; value])
      else
        saturation ← py_div delta max_val;
        let delta_r := (((max_val - red) / 6) + (delta / 2)) / delta in
        let delta_g := (((max_val - green) / 6) + (delta / 2)) / delta in
        let delta_b := (((max_val - blue) / 6) + (delta / 2)) / delta in
        let hue :=
          if red =? max_val then delta_b - delta_g
          else if green =? max_val then (1 / 3) + delta_r - delta_b
          else (2 / 3) + delta_g - delta_r in
        let hue :=
          if hue <? 0 then hue + 1
          else if 1 <? hue then hue - 1
          else hue in
        Ok (PyList [hue; saturation; value])
  | _ => Raise ColorPy.unpack_error
  end.

Definition identity (coordinates : pyseq) : result pyseq := Ok coordinates.

Definition space_to_rgb_map (s : ColorPy.color_space)
  : pyseq -> result pyseq :=
  match s with
  | ColorPy.rgb => identity
  | ColorPy.hsv => hsv_to_rgb
  | ColorPy.husl => husl_to_rgb
  end.

Definition rgb_to_space_map (s : ColorPy.color_space)
  : pyseq -> result pyseq :=
  match s with
  | ColorPy.rgb => identity
  | ColorPy.hsv => rgb_to_hsv
  | ColorPy.husl => rgb_to_husl
  end.

Definition convert_color_space (source_space target_space : ColorPy.color_space)
    (coordinates : pyseq) : result pyseq :=
  rgb_representation ← space_to_rgb_map source_space coordinates;
  rgb_to_space_map target_space rgb_representation.

Definition clamp (val min_val max_val : float) : float :=
  py_min (py_max min_val val) max_val.

Record Color : Type := { space : ColorPy.color_space; coordinates : pyseq }.

Definition Color_init (color_space : ColorPy.color_space)
    (coordinates : pyseq) : Color :=
  let clamped_coordinates :=
    (fun coord => clamp coord 0 1) <$> items coordinates in
  {| space := color_space; coordinates := PyList clamped_coordinates |}.

Definition in_color_space (self : Color) (color_space : ColorPy.color_space)
  : result Color :=
  coords ← convert_color_space (space self) color_space (coordinates self);
  Ok (Color_init color_space coords).

Definition in_hsv (self : Color) : result Color :=
  in_color_space self ColorPy.hsv.

Definition get_coordinate (self : Color) (color_space : ColorPy.color_space)
    (coordinate_index : Z) : result float :=
  shifted_coordinates ←
    convert_color_space (space self) color_space (coordinates self);
  seq_getitem shifted_coordinates coordinate_index.

Definition set_coordinate (self : Color) (color_space : ColorPy.color_space)
    (coordinate_index : Z) (value : float) : result Color :=
  let value := clamp value 0 1 in
  shifted_coordinates ←
    convert_color_space (space self) color_space (coordinates self);
  shifted_coordinates ←
    seq_setitem shifted_coordinates coordinate_index value;
  coords ← convert_color_space color_space (space self) shifted_coordinates;
  Ok {| space := space self; coordinates := coords |}.

Definition hue_hsv (self : Color) : result float :=
  get_coordinate self ColorPy.hsv 0.
Definition set_hue_hsv (self : Color) (value : float) : result Color :=
  set_coordinate self ColorPy.hsv 0 value.

Definition add_hue_hsv (color : Color) (value : float) : result Color :=
  col_hsv ← in_hsv color;
  h ← hue_hsv col_hsv;
  turned ← py_mod (h + value) 1;
  set_hue_hsv col_hsv turned.

End Conversions.

(** A stand-in for the [husl] package on doubles, as the one on
    rationals. *)
#[export] Instance husl_standin : HuslLib :=
  {| rgb_to_husl_args := fun r g b => (r * 360, g * 100, b * 100);
     husl_to_rgb_args := fun h s l => (h / 360, s / 100, l / 100) |}.

End Binary64.

(** ** Instances for closed examples

    Small executable instances of the library interfaces, used to run the
    code on concrete inputs. *)

Module Instances.

Local Open Scope Q_scope.

(** A stand-in for the [husl] package that treats its three native
    coordinates as scaled RGB.  The examples below stay in RGB and HSV,
    where the package is never called. *)
#[export] Instance husl_standin : ColorPy.HuslLib :=
  {| ColorPy.rgb_to_husl_args := fun r g b => (r * 360, g * 100, b * 100);
     ColorPy.husl_to_rgb_args := fun h s l => (h / 360, s / 100, l / 100) |}.

(** A generator that keeps returning its state. *)
#[export] Instance const_param_gen : ColorPy.ParamGen Q :=
  {| ColorPy.get_constrained := fun p _ _ _ => (p, p) |}.

(** A linear congruential source. *)
#[export] Instance lcg_random : ColorPy.RandomLib Z :=
  {| ColorPy.Random_new := 1%Z;
     ColorPy.Random_seed := fun _ s => s;
     ColorPy.Random_draw := fun r a b =>
       let r' := ((1103515245 * r + 12345) mod 2147483648)%Z in
       ((a + r' mod (b - a + 1))%Z, r') |}.

(** The three-argument clamp of [color.py], for [param_gen]'s. *)
#[export] Instance color_clamp : GoboRotatorPy.ClampLib :=
  {| GoboRotatorPy.clamp := ColorPy.clamp |}.

(** A fixture for the hustler: a [GoboSpinna] of a list, with one control
    for each of its two gobos, rendered by its own [render]. *)
#[export] Instance spinna_fixtures
  : GoboHustlerPy.FixtureLib nat (list GoboRotatorPy.GoboSpinna) :=
  {| GoboHustlerPy.get_controls := fun i =>
       [fun value world =>
          match world !! i with
          | Some roto =>
              (Ok tt,
               <[i := {| GoboRotatorPy.address := GoboRotatorPy.address roto;
                         GoboRotatorPy.g0 := value;
                         GoboRotatorPy.g1 := GoboRotatorPy.g1 roto |}]> world)
          | None => (Raise IndexError, world)
          end;
        fun value world =>
          match world !! i with
          | Some roto =>
              (Ok tt,
               <[i := {| GoboRotatorPy.address := GoboRotatorPy.address roto;
                         GoboRotatorPy.g0 := GoboRotatorPy.g0 roto;
                         GoboRotatorPy.g1 := value |}]> world)
          | None => (Raise IndexError, world)
          end];
     GoboHustlerPy.roto_render := fun i dmx_frame world =>
       match world !! i with
       | Some roto =>
           let '(r, dmx_frame) := GoboRotatorPy.render roto dmx_frame in
           (r, (dmx_frame, world))
       | None => (Raise IndexError, (dmx_frame, world))
       end |}.

End Instances.


(** ** Vocabulary of the statements *)

Module Vocabulary.

Local Open Scope Q_scope.

(** Sortedness in ascending order, read by positions. *)
Definition ascending (a : list Q) : Prop :=
  forall (i j : nat) (ai aj : Q),
    (i <= j)%nat -> a !! i = Some ai -> a !! j = Some aj -> ai <= aj.

(** A coordinate of the unit interval, and a sequence of them. *)
Definition in_unit (c : Q) : Prop := 0 <= c /\ c <= 1.

Definition unit_seq (s : ColorPy.pyseq) : Prop :=
  Forall in_unit (ColorPy.items s).


(** A hustler over [n] controls as the constructor, [render] and the
    [bank_name] setter leave it: one easer per control, the banks those
    of [create_banks n], each at some place of its round, and the current
    bank one of them. *)
Definition same_round (c c0 : GoboHustlerPy.cycle (list nat)) : Prop :=
  GoboHustlerPy.cycle_items c = GoboHustlerPy.cycle_items c0 /\
  (GoboHustlerPy.cycle_pos c < length (GoboHustlerPy.cycle_items c))%nat.

Definition hustler_inv {Roto World : Type} (n : nat)
    (self : GoboHustlerPy.GoboHustler Roto World) : Prop :=
  length (GoboHustlerPy.controls self) = n /\
  length (GoboHustlerPy.control_params self) = n /\
  is_Some (GoboHustlerPy.banks self !! GoboHustlerPy.bank self) /\
  forall name,
    option_Forall2 same_round
      (GoboHustlerPy.banks self !! name)
      (GoboHustlerPy.create_banks n !! name).

(** What is done to a hustler between its construction and some later
    frame: frames are rendered, on whatever frame and state of the
    fixtures, and banks are selected by name. *)
Inductive hustler_call (World : Type) : Type :=
| CallRender (now : Q) (fired : bool) (input_value : Q)
    (dmx_frame : list Z) (world : World)
| CallSetBankName (bank_name : string).
Arguments CallRender {World} _ _ _ _ _.
Arguments CallSetBankName {World} _.

(** The hustler after a call, whether the call raised or not. *)
Definition after_call {Roto World : Type}
    {fixture_lib : GoboHustlerPy.FixtureLib Roto World}
    (self : GoboHustlerPy.GoboHustler Roto World)
    (call : hustler_call World) : GoboHustlerPy.GoboHustler Roto World :=
  match call with
  | CallRender now fired input_value dmx_frame world =>
      GoboHustlerPy.hustler
        (GoboHustlerPy.GoboHustler_render self now fired input_value
           dmx_frame world)
  | CallSetBankName bank_name =>
      (GoboHustlerPy.set_bank_name self bank_name).2
  end.

(** The easer that [render] eases at position [i]: with the new target
    when the trigger fired and [i] is in the pattern. *)
Definition retargeted (fired : bool) (pattern : list nat) (input_value : Q)
    (i : nat) (param : GoboHustlerPy.Easer) : GoboHustlerPy.Easer :=
  {| GoboHustlerPy.target :=
       if fired && bool_decide (i ∈ pattern) then input_value
       else GoboHustlerPy.target param;
     GoboHustlerPy.current := GoboHustlerPy.current param |}.

(** The fixtures after the controls of [calls] were called in order,
    each with its value. *)
Definition after_controls {World : Type}
    (calls : list ((Q -> World -> result unit * World) * Q)) (world : World)
  : World :=
  foldl (fun w '(control, value) => (control value w).2) world calls.

(** The frame and the fixtures after [rotos] were rendered in order. *)
Definition after_rotos {Roto World : Type}
    {fixture_lib : GoboHustlerPy.FixtureLib Roto World}
    (rotos : list Roto) (start : list Z * World) : list Z * World :=
  foldl (fun fw roto => (GoboHustlerPy.roto_render roto fw.1 fw.2).2)
    start rotos.

End Vocabulary.
Import Vocabulary.


(** * Properties *)

(** ** Facts about the prelude *)

Section PreludeFacts.
Local Open Scope Q_scope.

Lemma Qltb_true (a b : Q) : Qltb a b = true -> a < b.
Proof. unfold Qltb. rewrite Qlt_alt. destruct (a ?= b); congruence. Qed.

Lemma Qltb_false (a b : Q) : Qltb a b = false -> b <= a.
Proof.
  unfold Qltb. intros E. apply Qnot_lt_le. rewrite Qlt_alt.
  destruct (a ?= b); congruence.
Qed.

Lemma Qleb_true (a b : Q) : Qleb a b = true -> a <= b.
Proof.
  unfold Qleb. intros E. apply Qnot_lt_le. rewrite Qgt_alt.
  destruct (a ?= b); congruence.
Qed.

Lemma Qleb_false (a b : Q) : Qleb a b = false -> b < a.
Proof. unfold Qleb. rewrite Qgt_alt. destruct (a ?= b); congruence. Qed.

End PreludeFacts.

(** Case analysis on the float comparisons of a goal. *)
Ltac case_cmp :=
  match goal with
  | |- context [Qltb ?a ?b] =>
      let E := fresh "E" in
      destruct (Qltb a b) eqn:E;
      [apply Qltb_true in E | apply Qltb_false in E]
  | |- context [Qleb ?a ?b] =>
      let E := fresh "E" in
      destruct (Qleb a b) eqn:E;
      [apply Qleb_true in E | apply Qleb_false in E]
  end.

(** ** gobo_hustler.py: the easer *)

Section EaserFacts.
Import GoboHustlerPy.
Local Open Scope Q_scope.

(** C4, in exact arithmetic.  For a positive rate and a non-negative
    elapsed time, [ease] moves the current value by at most
    [rate * elapsed], in the direction of the target and never past it;
    it lands on the target when the target is within [rate * elapsed];
    and for [0 < elapsed < |target - current| / rate] the distance to the
    target strictly decreases while [target - current] keeps its sign.
    On doubles the sum [current + actual_dv] is rounded: the easer can
    land beside the target, also beyond it, and a step that is small
    enough does not move it (see the facts on doubles). *)
Theorem ease_bounded_no_overshoot (self : Easer) (elapsed rate : Q) :
  0 < rate -> 0 <= elapsed ->
  let r := fst (ease self elapsed rate) in
  let self' := snd (ease self elapsed rate) in
  current self' = r /\ target self' = target self /\
  Qabs (r - current self) <= rate * elapsed /\
  (0 <= target self - current self ->
     0 <= r - current self /\ r <= target self) /\
  (target self - current self <= 0 ->
     r - current self <= 0 /\ target self <= r) /\
  (Qabs (target self - current self) <= rate * elapsed -> r == target self) /\
  (0 < elapsed -> elapsed < Qabs (target self - current self) / rate ->
     Qabs (target self - r) < Qabs (target self - current self) /\
     0 < (target self - current self) * (target self - r)).
Proof.
  intros Hrate Hel. destruct self as [t c]. unfold ease. cbn [fst snd target current].
  assert (Hmax : 0 <= elapsed * rate) by nra.
  split; [reflexivity|]. split; [reflexivity|].
  split; [|split; [|split; [|split]]].
  - repeat case_cmp; revert E; try revert E0; repeat (apply Qabs_case; intros); lra.
  - intros Hd. repeat case_cmp; revert E; try revert E0;
      repeat (apply Qabs_case; intros); split; lra.
  - intros Hd. repeat case_cmp; revert E; try revert E0;
      repeat (apply Qabs_case; intros); split; lra.
  - intros Hd. case_cmp; [|lra]. exfalso. lra.
  - intros Hpos Hlt.
    assert (Hlt' : elapsed * rate < Qabs (t - c)).
    { apply Qnot_le_lt. intros Hle.
      apply (Qle_shift_div_r _ _ _ Hrate) in Hle. lra. }
    assert (Hmax' : 0 < elapsed * rate) by nra.
    case_cmp; [|lra].
    case_cmp; revert Hlt'; clear Hlt E; repeat (apply Qabs_case; intros); split; try lra; nra.
Qed.

Lemma ease_bounded_no_overshoot_witness :
  0 < 2 /\ 0 <= 1 # 10 /\
  Qabs (fst (ease {| target := 1; current := 0 |} (1 # 10) 2) - 0) <= 2 * (1 # 10).
Proof.
  split; [reflexivity | split; [discriminate |]].
  apply (ease_bounded_no_overshoot {| target := 1; current := 0 |} (1 # 10) 2);
    [reflexivity | discriminate].
Defined.

End EaserFacts.

(** ** gobo_hustler.py: pattern banks *)

Section BankFacts.
Import GoboHustlerPy.

(** A cycle over a non-empty list never stops, and it only yields items
    of that list. *)
Lemma cycle_take_total {A} (Q : A -> Prop) (k : nat) (c : cycle A) :
  (cycle_pos c < length (cycle_items c))%nat ->
  Forall Q (cycle_items c) ->
  exists xs c',
    cycle_take k c = Ok (xs, c') /\ length xs = k /\ Forall Q xs.
Proof.
  revert c. induction k as [|k IH]; intros c Hpos HQ.
  - exists [], c. repeat split; constructor.
  - destruct (lookup_lt_is_Some_2 _ _ Hpos) as [x Hx].
    set (c1 := {| cycle_items := cycle_items c;
                  cycle_pos := S (cycle_pos c) mod length (cycle_items c) |}).
    destruct (IH c1) as (xs & c' & Htake & Hlen & Hall).
    { cbn. apply Nat.mod_upper_bound. lia. }
    { exact HQ. }
    exists (x :: xs), c'. cbn [cycle_take]. unfold cycle_next. rewrite Hx.
    cbn. fold c1. rewrite Htake. cbn. repeat split.
    + now rewrite Hlen.
    + constructor; [|exact Hall].
      rewrite Forall_forall in HQ. apply HQ.
      eapply list_elem_of_lookup_2. exact Hx.
Qed.

Lemma create_banks_all (n : nat) :
  create_banks n !! ALL = Some (cycle_new [seq 0 n]).
Proof. reflexivity. Qed.

Lemma create_banks_single (n : nat) :
  create_banks n !! SINGLE = Some (cycle_new ((fun i => [i]) <$> seq 0 n)).
Proof. reflexivity. Qed.

Lemma create_banks_two_value (n : nat) :
  create_banks n !! TWO_VALUE =
    Some (cycle_new [filter (fun i => i mod 2 = 0) (seq 0 n);
                     filter (fun i => i mod 2 = 1) (seq 0 n)]).
Proof. reflexivity. Qed.

Lemma filter_seq_inhabited (r n : nat) :
  (r < 2)%nat -> (r < n)%nat -> filter (fun i => i mod 2 = r) (seq 0 n) <> [].
Proof.
  intros Hr Hn Hnil.
  assert (Hin : r ∈ filter (fun i => i mod 2 = r) (seq 0 n)).
  { apply list_elem_of_filter. split.
    - now apply Nat.mod_small.
    - apply elem_of_seq. lia. }
  rewrite Hnil in Hin. inversion Hin.
Qed.

(** C2, as the code has it.  For [n >= 1] channels the banks [all] and
    [single], and for [n >= 2] also the bank [two_value], are cycles that
    can be drawn from any number of times, and every subset drawn is
    non-empty. *)
Theorem create_banks_nonempty_forever (n : nat) (name : string) :
  (1 <= n)%nat ->
  name = ALL \/ name = SINGLE \/ (name = TWO_VALUE /\ (2 <= n)%nat) ->
  exists bank,
    create_banks n !! name = Some bank /\
    forall k, exists patterns bank',
      cycle_take k bank = Ok (patterns, bank') /\
      length patterns = k /\
      Forall (fun pattern => pattern <> []) patterns.
Proof.
  intros Hn [-> | [-> | [-> Hn2]]].
  - eexists. split; [apply create_banks_all|]. intros k.
    apply cycle_take_total; cbn; [lia|].
    constructor; [|constructor].
    destruct n; [lia | discriminate].
  - eexists. split; [apply create_banks_single|]. intros k.
    apply cycle_take_total; cbn.
    + rewrite length_fmap, length_seq. lia.
    + apply Forall_forall. intros p Hp. apply list_elem_of_fmap in Hp.
      destruct Hp as (i & -> & _). discriminate.
  - eexists. split; [apply create_banks_two_value|]. intros k.
    apply cycle_take_total; cbn; [lia|].
    constructor; [|constructor; [|constructor]];
      apply filter_seq_inhabited; lia.
Qed.

Lemma create_banks_nonempty_forever_witness :
  (1 <= 4)%nat /\
  exists bank,
    create_banks 4 !! TWO_VALUE = Some bank /\
    forall k, exists patterns bank',
      cycle_take k bank = Ok (patterns, bank') /\
      length patterns = k /\
      Forall (fun pattern => pattern <> []) patterns.
Proof.
  split; [lia|].
  apply (create_banks_nonempty_forever 4 TWO_VALUE); [lia|].
  right; right. split; [reflexivity | lia].
Defined.

(** C2 as stated fails for one channel: the bank [two_value] alternates
    the subset [[0]] with the empty subset. *)
Lemma create_banks_one_channel_empty_subset :
  (1 <= 1)%nat /\
  ~ (exists bank,
       create_banks 1 !! TWO_VALUE = Some bank /\
       forall k, exists patterns bank',
         cycle_take k bank = Ok (patterns, bank') /\
         length patterns = k /\
         Forall (fun pattern => pattern <> []) patterns).
Proof.
  split; [lia|]. intros (bank & Hbank & Hall).
  rewrite create_banks_two_value in Hbank. injection Hbank as <-.
  destruct (Hall 2%nat) as (patterns & bank' & Htake & _ & Hne).
  vm_compute in Htake. injection Htake as <- _.
  inversion Hne as [|? ? _ Hne']. inversion Hne' as [|? ? Hnil _].
  now apply Hnil.
Qed.

End BankFacts.

(** ** color.py: the swarm *)

Section SwarmFacts.
Import ColorPy GoboHustlerPy.
Context {P R : Type} `{ParamGen P} `{RandomLib R}.

(** C3, as the code has it.  The constructor does not look at the list: an
    empty one gives a swarm with no generators and cursor 0, for every
    mode and seed.  The error comes with the first [get]:
    ZeroDivisionError in round-robin mode, the ValueError of [randint] in
    random mode.  The message about providing at least one value belongs
    to [validate_iterable], which the constructor does not call. *)
Theorem ColorSwarm_init_empty_not_rejected (random : bool) (seed : option Z) :
  exists swarm : ColorSwarm P R,
    ColorSwarm_init [] random seed = Ok swarm /\
    gens swarm = [] /\ next swarm = 0%Z /\
    (ColorSwarm_get swarm).1.1 =
      Raise (if random then ValueError "empty range for randrange()"
             else ZeroDivisionError) /\
    (ColorSwarm_get swarm).2 = swarm /\
    forall (A B : Type) (subvalidator : A -> result B),
      validate_iterable subvalidator [] =
        Raise (ValueError "Must provide at least one value.").
Proof.
  eexists. split; [reflexivity|]. destruct random; repeat split.
Qed.

Lemma call_gen_in_range (gs : list (ColorGenerator P)) (i : Z) :
  (0 <= i < Z.of_nat (length gs))%Z ->
  exists col gs', call_gen gs i = Ok (col, gs') /\ length gs' = length gs.
Proof.
  intros Hi. unfold call_gen, py_getitem, py_setitem, py_index.
  destruct (Z.leb_spec 0 i); [|lia]. destruct (Z.ltb_spec i (Z.of_nat (length gs))); [|lia].
  destruct (lookup_lt_is_Some_2 gs (Z.to_nat i)) as [g Hg]; [lia|].
  rewrite Hg. cbn. destruct (ColorGenerator_get g) as [col g'].
  cbn. exists col, (<[Z.to_nat i := g']> gs). split; [reflexivity|].
  apply length_insert.
Qed.


End SwarmFacts.

Section SwarmExamples.
Import ColorPy Instances.


(** C3 as stated fails: constructing a swarm over no generators does not
    raise. *)
Lemma ColorSwarm_init_empty_accepted :
  ~ (exists e, ColorSwarm_init (P := Q) (R := Z) [] false None = Raise e).
Proof. intros [e He]. discriminate He. Qed.

End SwarmExamples.

(** ** color.py: equality *)

Section EqualityFacts.
Import ColorPy.
Context {husl_lib : HuslLib}.

(** C1. [Color.__eq__] compares [self.in_rgb()] with [other.in_rgb()]
    by [==], that is by [__eq__] itself: whatever the two colors and
    however many frames the interpreter allows, the comparison ends in an
    exception and never in a boolean. *)
Theorem Color_eq_never_returns (depth : nat) (self other : Color) :
  exists e, Color_eq depth self other = Raise e.
Proof.
  revert self other. induction depth as [|depth IH]; intros self other.
  - exists RecursionError. reflexivity.
  - cbn [Color_eq]. destruct (in_rgb self) as [lhs|e]; [|exists e; reflexivity].
    cbn. destruct (in_rgb other) as [rhs|e]; [|exists e; reflexivity].
    cbn. apply IH.
Qed.

End EqualityFacts.

Section EqualityExamples.
Import ColorPy Instances.
Local Open Scope Q_scope.

(** Black compared with black, with the interpreter's default limit of
    1000 frames. *)
Example Color_eq_black_black :
  Color_eq 1000 (Color_init rgb (PyTuple [0; 0; 0]))
                (Color_init rgb (PyTuple [0; 0; 0])) = Raise RecursionError.
Proof. vm_compute. reflexivity. Qed.

End EqualityExamples.

(** ** The clamp of color.py and the truncation of floats *)

Section ClampFacts.
Import ColorPy.
Local Open Scope Q_scope.

Lemma clamp_range (val lo hi : Q) :
  lo <= hi -> lo <= clamp val lo hi /\ clamp val lo hi <= hi.
Proof.
  intros Hle. unfold clamp, py_max. case_cmp; unfold py_min; case_cmp;
    split; lra.
Qed.


Lemma clamp_eq (val lo hi : Q) :
  lo <= val -> val <= hi -> clamp val lo hi == val.
Proof.
  intros H1 H2. unfold clamp, py_max. case_cmp; unfold py_min; case_cmp;
    lra.
Qed.


Lemma py_int_nonneg (x : Q) : 0 <= x -> py_int x = Qfloor x.
Proof.
  destruct x as [n d]. unfold Qle, py_int, Qfloor. cbn. intros Hn.
  apply Z.quot_div_nonneg; lia.
Qed.

Lemma py_int_bounds (x : Q) (n : Z) :
  0 <= x -> x <= inject_Z n -> (0 <= py_int x <= n)%Z.
Proof.
  intros H0 Hn. rewrite py_int_nonneg by exact H0. split.
  - change 0%Z with (Qfloor 0). apply Qfloor_resp_le. exact H0.
  - rewrite <- (Qfloor_Z n). apply Qfloor_resp_le. exact Hn.
Qed.

End ClampFacts.

(** ** gobo_rotator.py: rendering into the DMX buffer *)

Section RenderFacts.
Import GoboRotatorPy.
Local Open Scope Q_scope.
Context {clamp_lib : ClampLib}.

Lemma buf_store_cases (i v : Z) (buf : list Z) :
  (exists n, py_index (length buf) i = Some n /\
             buf_store i v buf = (Ok tt, <[n := v]> buf)) \/
  (py_index (length buf) i = None /\
   buf_store i v buf = (Raise IndexError, buf)).
Proof.
  unfold buf_store, py_setitem.
  destruct (py_index (length buf) i) as [n|]; [left; eauto | right; eauto].
Qed.

Lemma py_index_lt (len : nat) (i : Z) (n : nat) :
  py_index len i = Some n -> (n < len)%nat.
Proof.
  unfold py_index.
  destruct (Z.leb_spec 0 i).
  - destruct (Z.ltb_spec i (Z.of_nat len)); [|discriminate].
    intros [= <-]. lia.
  - destruct (Z.leb_spec (- Z.of_nat len) i); [|discriminate].
    intros [= <-]. lia.
Qed.

Lemma py_index_in_range (len : nat) (i : Z) :
  (0 <= i < Z.of_nat len)%Z -> py_index len i = Some (Z.to_nat i).
Proof.
  intros Hi. unfold py_index.
  destruct (Z.leb_spec 0 i); [|lia].
  destruct (Z.ltb_spec i (Z.of_nat len)); [reflexivity | lia].
Qed.

(** One store keeps the length of the buffer and every position but the
    one it addresses, whether it returns or raises. *)
Lemma buf_store_frame (i v : Z) (buf : list Z) :
  length (buf_store i v buf).2 = length buf /\
  forall j : nat,
    py_index (length buf) i <> Some j -> (buf_store i v buf).2 !! j = buf !! j.
Proof.
  destruct (buf_store_cases i v buf) as [(n & Hn & ->) | (Hn & ->)]; cbn.
  - split; [apply length_insert|]. intros j Hj.
    apply list_lookup_insert_ne. congruence.
  - split; [reflexivity|]. reflexivity.
Qed.

Lemma buf_then_frame (i v : Z) (rest : bufM unit) (buf : list Z) (j : nat) :
  py_index (length buf) i <> Some j ->
  (forall buf1, length buf1 = length buf ->
     length (rest buf1).2 = length buf1 /\ (rest buf1).2 !! j = buf1 !! j) ->
  length ((buf_store i v ;; rest) buf).2 = length buf /\
  ((buf_store i v ;; rest) buf).2 !! j = buf !! j.
Proof.
  intros Hj Hrest. unfold mbind, bufM_bind.
  destruct (buf_store_frame i v buf) as [Hlen Hframe].
  specialize (Hframe j Hj).
  destruct (buf_store i v buf) as [[[]|e] buf1]; cbn in *.
  - destruct (Hrest buf1 Hlen) as [Hlen' Hj']. split; congruence.
  - split; assumption.
Qed.

Lemma _render_single_values (value : Q) :
  (forall v lo hi : Q, lo <= hi -> lo <= clamp v lo hi /\ clamp v lo hi <= hi) ->
  ((_render_single value).1 = 0%Z \/ (_render_single value).1 = 255%Z) /\
  ((_render_single value).1 = 0%Z <-> value <= 0) /\
  (0 <= (_render_single value).2 <= 255)%Z.
Proof.
  intros Hclamp. unfold _render_single. cbn [fst snd].
  split; [|split].
  - case_cmp; auto.
  - case_cmp; split; intros; try lra; try reflexivity; try discriminate.
  - destruct (Hclamp (Qabs value * 255) 0 255) as [Hlo Hhi]; [lra|].
    apply py_int_bounds; assumption.
Qed.

(** One store, by Python's rule for indices: an index from [-len] up to
    [len - 1] is a position, counted from the end when negative; any
    other raises IndexError and leaves the buffer as it is. *)
Lemma buf_store_resolved (i v : Z) (buf : list Z) :
  let len := Z.of_nat (length buf) in
  ((- len <= i < len)%Z ->
   buf_store i v buf = (Ok tt, <[Z.to_nat (i mod len) := v]> buf)) /\
  (~ (- len <= i < len)%Z -> buf_store i v buf = (Raise IndexError, buf)).
Proof.
  intros len. unfold buf_store, py_setitem, py_index. fold len. split.
  - intros Hi. destruct (Z.leb_spec 0 i).
    + destruct (Z.ltb_spec i len); [|lia].
      rewrite Z.mod_small by lia. reflexivity.
    + destruct (Z.leb_spec (- len) i); [|lia].
      replace (i mod len)%Z with (len + i)%Z; [reflexivity|].
      apply (Z.mod_unique_pos _ _ (-1)); lia.
  - intros Hi. destruct (Z.leb_spec 0 i).
    + destruct (Z.ltb_spec i len); [lia | reflexivity].
    + destruct (Z.leb_spec (- len) i); [lia | reflexivity].
Qed.

(** C10, as the code has it.  A direction byte is 0 or 255, and 0
    exactly when the value is [<= 0.0]; a speed byte is an integer
    between 0 and 255 whatever the value, as long as [clamp] keeps its
    result between its bounds.  [render] stores the four bytes in order
    at [address], [address + 1], [address + 2] and [address + 3], each
    by Python's rule for indices: an offset from [-len] up to [len - 1]
    is a position of the buffer, counted from the end when negative.
    The call returns exactly when [-len <= address] and
    [address + 3 < len]; otherwise the first offset out of range raises
    IndexError, with the stores before it done.  In both cases the
    buffer keeps its length and every position that none of the four
    offsets indexes. *)
Theorem render_writes_four_channels (self : GoboSpinna) (buf : list Z) :
  (forall v lo hi : Q, lo <= hi -> lo <= clamp v lo hi /\ clamp v lo hi <= hi) ->
  let d0 := (_render_single (g0 self)).1 in
  let s0 := (_render_single (g0 self)).2 in
  let d1 := (_render_single (g1 self)).1 in
  let s1 := (_render_single (g1 self)).2 in
  let buf' := (render self buf).2 in
  let len := Z.of_nat (length buf) in
  let writes :=
    [(address self, d0); (address self + 1, s0);
     (address self + 2, d1); (address self + 3, s1)]%Z in
  let put (b : list Z) (w : Z * Z) := <[Z.to_nat (w.1 mod len) := w.2]> b in
  ((d0 = 0%Z \/ d0 = 255%Z) /\ (d0 = 0%Z <-> g0 self <= 0) /\
   (d1 = 0%Z \/ d1 = 255%Z) /\ (d1 = 0%Z <-> g1 self <= 0) /\
   (0 <= s0 <= 255)%Z /\ (0 <= s1 <= 255)%Z) /\
  (forall j : nat,
     py_index (length buf) (address self) <> Some j ->
     py_index (length buf) (address self + 1) <> Some j ->
     py_index (length buf) (address self + 2) <> Some j ->
     py_index (length buf) (address self + 3) <> Some j ->
     length buf' = length buf /\ buf' !! j = buf !! j) /\
  ((0 <= address self)%Z -> (address self + 3 < Z.of_nat (length buf))%Z ->
   (render self buf).1 = Ok tt /\
   buf' !! Z.to_nat (address self) = Some d0 /\
   buf' !! Z.to_nat (address self + 1) = Some s0 /\
   buf' !! Z.to_nat (address self + 2) = Some d1 /\
   buf' !! Z.to_nat (address self + 3) = Some s1) /\
  ((render self buf).1 = Ok tt <->
   (- len <= address self)%Z /\ (address self + 3 < len)%Z) /\
  (exists k : nat,
     (k <= 4)%nat /\
     (forall j i v, (j < k)%nat -> writes !! j = Some (i, v) ->
        (- len <= i < len)%Z) /\
     buf' = foldl put buf (take k writes) /\
     (k = 4%nat -> (render self buf).1 = Ok tt) /\
     (forall i v, writes !! k = Some (i, v) ->
        ~ (- len <= i < len)%Z /\ (render self buf).1 = Raise IndexError)).
Proof.
  intros Hclamp d0 s0 d1 s1 buf' len writes put.
  destruct (_render_single_values (g0 self) Hclamp) as (Hd0 & Hd0' & Hs0).
  destruct (_render_single_values (g1 self) Hclamp) as (Hd1 & Hd1' & Hs1).
  split; [tauto|].
  subst buf' writes. unfold render.
  destruct (_render_single (g0 self)) as [x0 y0].
  destruct (_render_single (g1 self)) as [x1 y1].
  cbn [fst snd] in *. subst d0 s0 d1 s1.
  split; [|split].
  - intros j H0 H1 H2 H3.
    apply buf_then_frame; [exact H0|]. intros b1 L1.
    rewrite <- L1 in H1, H2, H3.
    apply buf_then_frame; [exact H1|]. intros b2 L2.
    rewrite <- L2 in H2, H3.
    apply buf_then_frame; [exact H2|]. intros b3 L3.
    rewrite <- L3 in H3.
    destruct (buf_store_frame (address self + 3) y1 b3) as [L4 F4].
    split; [exact L4 | apply F4; exact H3].
  - intros Hlo Hhi.
    unfold mbind, bufM_bind, buf_store, py_setitem.
    rewrite py_index_in_range by lia. cbn match.
    rewrite length_insert, py_index_in_range by lia. cbn match.
    rewrite !length_insert, py_index_in_range by lia. cbn match.
    rewrite !length_insert, py_index_in_range by lia. cbn [fst snd].
    split; [reflexivity|].
    repeat split.
    + rewrite !list_lookup_insert_ne by lia.
      apply list_lookup_insert_eq. lia.
    + rewrite !list_lookup_insert_ne by lia.
      apply list_lookup_insert_eq. rewrite !length_insert. lia.
    + rewrite !list_lookup_insert_ne by lia.
      apply list_lookup_insert_eq. rewrite !length_insert. lia.
    + apply list_lookup_insert_eq. rewrite !length_insert. lia.
  - set (a := address self) in *. clearbody a.
    assert (Hstore : forall (i v : Z) (b : list Z),
              length b = length buf ->
              ((- len <= i < len)%Z ->
               buf_store i v b = (Ok tt, put b (i, v))) /\
              (~ (- len <= i < len)%Z ->
               buf_store i v b = (Raise IndexError, b))).
    { intros i v b Hb. pose proof (buf_store_resolved i v b) as Hr.
      cbv zeta in Hr. rewrite Hb in Hr. exact Hr. }
    assert (Hput : forall b w, length (put b w) = length b).
    { intros b w. apply length_insert. }
    unfold mbind, bufM_bind.
    destruct (decide (- len <= a < len)%Z) as [R0|R0].
    2: { rewrite (proj2 (Hstore a x0 buf eq_refl) R0). cbn [fst snd].
         split; [split; [discriminate | lia]|].
         exists 0%nat. split; [lia|]. split; [intros; lia|].
         split; [reflexivity|]. split; [discriminate|].
         intros i v [= <- <-]. auto. }
    rewrite (proj1 (Hstore a x0 buf eq_refl) R0).
    set (b1 := put buf (a, x0)).
    assert (L1 : length b1 = length buf) by apply Hput.
    destruct (decide (- len <= a + 1 < len)%Z) as [R1|R1].
    2: { rewrite (proj2 (Hstore (a + 1)%Z y0 b1 L1) R1). cbn [fst snd].
         split; [split; [discriminate | lia]|].
         exists 1%nat. split; [lia|].
         split; [intros [|j] i v Hj; [intros [= <- <-]; exact R0 | lia]|].
         split; [reflexivity|]. split; [discriminate|].
         intros i v [= <- <-]. auto. }
    rewrite (proj1 (Hstore (a + 1)%Z y0 b1 L1) R1).
    set (b2 := put b1 ((a + 1)%Z, y0)).
    assert (L2 : length b2 = length buf) by (unfold b2; rewrite Hput; exact L1).
    destruct (decide (- len <= a + 2 < len)%Z) as [R2|R2].
    2: { rewrite (proj2 (Hstore (a + 2)%Z x1 b2 L2) R2). cbn [fst snd].
         split; [split; [discriminate | lia]|].
         exists 2%nat. split; [lia|].
         split; [intros [|[|j]] i v Hj;
                 [intros [= <- <-]; exact R0 | intros [= <- <-]; exact R1
                 | lia]|].
         split; [reflexivity|]. split; [discriminate|].
         intros i v [= <- <-]. auto. }
    rewrite (proj1 (Hstore (a + 2)%Z x1 b2 L2) R2).
    set (b3 := put b2 ((a + 2)%Z, x1)).
    assert (L3 : length b3 = length buf) by (unfold b3; rewrite Hput; exact L2).
    destruct (decide (- len <= a + 3 < len)%Z) as [R3|R3].
    2: { rewrite (proj2 (Hstore (a + 3)%Z y1 b3 L3) R3). cbn [fst snd].
         split; [split; [discriminate | lia]|].
         exists 3%nat. split; [lia|].
         split; [intros [|[|[|j]]] i v Hj;
                 [intros [= <- <-]; exact R0 | intros [= <- <-]; exact R1
                 | intros [= <- <-]; exact R2 | lia]|].
         split; [reflexivity|]. split; [discriminate|].
         intros i v [= <- <-]. auto. }
    rewrite (proj1 (Hstore (a + 3)%Z y1 b3 L3) R3).
    cbn [fst snd].
    split; [split; [lia | reflexivity]|].
    exists 4%nat. split; [lia|].
    split; [intros [|[|[|[|j]]]] i v Hj;
            [intros [= <- <-]; exact R0 | intros [= <- <-]; exact R1
            | intros [= <- <-]; exact R2 | intros [= <- <-]; exact R3
            | lia]|].
    split; [reflexivity|]. split; [reflexivity|].
    intros i v Hnone. discriminate Hnone.
Qed.

End RenderFacts.

Section RenderExamples.
Import GoboRotatorPy Instances.
Local Open Scope Q_scope.

Lemma render_writes_four_channels_witness :
  (forall v lo hi : Q, lo <= hi -> lo <= clamp v lo hi /\ clamp v lo hi <= hi) /\
  (0 <= (_render_single 1000).2 <= 255)%Z /\
  (0 <= (_render_single (-1000)).2 <= 255)%Z.
Proof.
  assert (Hclamp : forall v lo hi : Q,
             lo <= hi -> lo <= clamp v lo hi /\ clamp v lo hi <= hi).
  { intros v lo hi. exact (clamp_range v lo hi). }
  split; [exact Hclamp|].
  destruct (render_writes_four_channels
              {| address := 2; g0 := 1000; g1 := -1000 |}
              [1; 2; 3; 4; 5; 6; 7; 8]%Z Hclamp)
    as ((_ & _ & _ & _ & Hs0 & Hs1) & _).
  split; [exact Hs0 | exact Hs1].
Defined.

Example render_two_gobos :
  render {| address := 2; g0 := - (1 # 2); g1 := 7 |} [1; 2; 3; 4; 5; 6; 7; 8]%Z
  = (Ok tt, [1; 2; 0; 127; 255; 255; 7; 8]%Z).
Proof. vm_compute. reflexivity. Qed.

(** C10 as stated fails on a buffer that ends before [address + 3]: the
    first two stores happen, the third raises IndexError, and no speed
    of the second gobo is written. *)
Example render_short_buffer :
  render {| address := 2; g0 := 1; g1 := 1 |} [9; 9; 9; 9]%Z
  = (Raise IndexError, [9; 9; 255; 255]%Z).
Proof. vm_compute. reflexivity. Qed.

(** A negative address counts from the end of the buffer. *)
Example render_negative_address :
  render {| address := -4; g0 := - (1 # 2); g1 := 7 |}
         [1; 2; 3; 4; 5; 6; 7; 8]%Z
  = (Ok tt, [1; 2; 3; 4; 0; 127; 255; 255]%Z) /\
  render {| address := -1; g0 := - (1 # 2); g1 := 7 |} [1; 2; 3]%Z
  = (Ok tt, [127; 255; 255]%Z).
Proof. split; vm_compute; reflexivity. Qed.

End RenderExamples.

(** ** gobo_rotator.py: nearest value *)

(** Goals about absolute values, by cases on the signs. *)
Lemma Qabs_cases (x : Q) :
  (0 <= x /\ Qabs x == x)%Q \/ (x <= 0 /\ Qabs x == - x)%Q.
Proof.
  destruct (Qlt_le_dec x 0) as [Hx|Hx].
  - right. split; [lra|]. apply Qabs_neg. lra.
  - left. split; [exact Hx|]. apply Qabs_pos. exact Hx.
Qed.

Ltac abs_lra :=
  intros;
  repeat match goal with
    | |- context [Qabs ?x] =>
        let Hs := fresh "Hs" in
        let He := fresh "He" in
        destruct (Qabs_cases x) as [[Hs He]|[Hs He]];
        generalize dependent (Qabs x); intros
    | H : context [Qabs ?x] |- _ =>
        let Hs := fresh "Hs" in
        let He := fresh "He" in
        destruct (Qabs_cases x) as [[Hs He]|[Hs He]];
        generalize dependent (Qabs x); intros
    end;
  lra.

Section ClosestFacts.
Import GoboRotatorPy.
Local Open Scope Q_scope.

Lemma Sorted_ascending (a : list Q) : Sorted Qle a -> ascending a.
Proof.
  intros Hs. apply Sorted_StronglySorted in Hs.
  2: { intros x y z. apply Qle_trans. }
  induction Hs as [|x a Hs IH Hx]; intros i j ai aj Hij Hi Hj.
  - rewrite lookup_nil in Hi. discriminate.
  - destruct i as [|i], j as [|j]; cbn in Hi, Hj.
    + injection Hi as <-. injection Hj as <-. apply Qle_refl.
    + injection Hi as <-. rewrite Forall_forall in Hx. apply Hx.
      eapply list_elem_of_lookup_2. exact Hj.
    + lia.
    + eapply IH; [|exact Hi|exact Hj]. lia.
Qed.

(** The binary search returns the insertion point: everything before it
    is below [x], everything from it on is at least [x]. *)
Lemma bisect_loop_spec (fuel : nat) (a : list Q) (x : Q) (lo hi : nat) :
  ascending a ->
  (lo <= hi <= length a)%nat -> (hi - lo <= fuel)%nat ->
  (forall i ai, (i < lo)%nat -> a !! i = Some ai -> ai < x) ->
  (forall i ai, (hi <= i)%nat -> a !! i = Some ai -> x <= ai) ->
  let p := bisect_loop fuel a x lo hi in
  (lo <= p <= hi)%nat /\
  (forall i ai, (i < p)%nat -> a !! i = Some ai -> ai < x) /\
  (forall i ai, (p <= i)%nat -> a !! i = Some ai -> x <= ai).
Proof.
  intros Hasc. revert lo hi.
  induction fuel as [|fuel IH]; intros lo hi Hb Hf Hlo Hhi; cbn [bisect_loop].
  - assert (lo = hi) by lia. subst hi. split; [lia | split; assumption].
  - destruct (Nat.ltb_spec lo hi) as [Hlt|Hge].
    2: { assert (lo = hi) by lia. subst hi. split; [lia | split; assumption]. }
    assert (Hmid : (lo <= (lo + hi) / 2 < hi)%nat).
    { split.
      - apply Nat.div_le_lower_bound; lia.
      - apply Nat.Div0.div_lt_upper_bound; lia. }
    set (mid := ((lo + hi) / 2)%nat) in *.
    destruct (lookup_lt_is_Some_2 a mid) as [am Ham]; [lia|].
    rewrite Ham. case_cmp.
    + destruct (IH (S mid) hi) as (Hp & Hbelow & Habove); try lia; trivial.
      { intros i ai Hi Hai.
        apply Qle_lt_trans with am; [|exact E].
        apply (Hasc i mid); trivial. lia. }
      split; [lia | split; assumption].
    + destruct (IH lo mid) as (Hp & Hbelow & Habove); try lia; trivial.
      { intros i ai Hi Hai.
        apply Qle_trans with am; [exact E|].
        apply (Hasc mid i); trivial. }
      split; [lia | split; assumption].
Qed.

Lemma bisect_left_spec (a : list Q) (x : Q) :
  ascending a ->
  (bisect_left a x <= length a)%nat /\
  (forall i ai, (i < bisect_left a x)%nat -> a !! i = Some ai -> ai < x) /\
  (forall i ai, (bisect_left a x <= i)%nat -> a !! i = Some ai -> x <= ai).
Proof.
  intros Hasc.
  destruct (bisect_loop_spec (length a) a x 0 (length a) Hasc)
    as (Hp & Hbelow & Habove); try lia.
  - intros i ai Hi Hai. apply lookup_lt_Some in Hai. lia.
  - unfold bisect_left. split; [lia | split; assumption].
Qed.

Lemma py_getitem_nat {A} (xs : list A) (n : nat) (x : A) :
  xs !! n = Some x -> py_getitem xs (Z.of_nat n) = Ok x.
Proof.
  intros Hx. unfold py_getitem.
  rewrite py_index_in_range by (apply lookup_lt_Some in Hx; lia).
  rewrite Nat2Z.id, Hx. reflexivity.
Qed.

Lemma py_getitem_last {A} (xs : list A) (x : A) :
  xs !! (length xs - 1)%nat = Some x -> py_getitem xs (-1) = Ok x.
Proof.
  intros Hx. pose proof (lookup_lt_Some _ _ _ Hx) as Hlt.
  unfold py_getitem, py_index.
  destruct (Z.leb_spec 0 (-1)); [lia|].
  destruct (Z.leb_spec (- Z.of_nat (length xs)) (-1)); [|lia].
  replace (Z.to_nat (Z.of_nat (length xs) + -1)) with (length xs - 1)%nat by lia.
  rewrite Hx. reflexivity.
Qed.

(** With the differences [after - myNumber] and [myNumber - before]
    computed exactly, as they are for integers, [take_closest] does what
    its docstring says.  On a non-empty list sorted in ascending order
    it returns an element of the list that is as close to the target as
    any other; of the elements that are equally close it is the
    smallest, and a target half way between its two neighbours gets the
    smaller one.  On [[1, 3, 5, 7]] with target 4 it returns 3.  On
    doubles the two differences are rounded before they are compared
    (see the facts on doubles). *)
Theorem take_closest_nearest (myList : list Q) (myNumber : Q) :
  myList <> [] -> Sorted Qle myList ->
  exists r,
    take_closest myList myNumber = Ok r /\
    r ∈ myList /\
    (forall y, y ∈ myList -> Qabs (r - myNumber) <= Qabs (y - myNumber)) /\
    (forall y, y ∈ myList ->
       Qabs (y - myNumber) == Qabs (r - myNumber) -> r <= y) /\
    (forall i before after,
       myList !! i = Some before -> myList !! S i = Some after ->
       before < myNumber -> myNumber <= after ->
       after - myNumber == myNumber - before -> r = before) /\
    take_closest [1; 3; 5; 7] 4 = Ok 3.
Proof.
  intros Hne Hsorted. apply Sorted_ascending in Hsorted.
  destruct (bisect_left_spec myList myNumber Hsorted) as (Hlen & Hbelow & Habove).
  assert (Hlen0 : (0 < length myList)%nat).
  { destruct myList; [congruence | cbn; lia]. }
  unfold take_closest. set (pos := bisect_left myList myNumber) in *.
  clearbody pos.
  destruct (Nat.eqb_spec pos 0) as [Hpos0|Hpos0].
  { (* everything is at least the target: the first element *)
    destruct (lookup_lt_is_Some_2 myList 0) as [r Hr]; [lia|].
    exists r. split; [exact (py_getitem_nat myList 0 r Hr)|].
    assert (Hfirst : forall y, y ∈ myList -> r <= y /\ myNumber <= y).
    { intros y Hy. apply list_elem_of_lookup_1 in Hy as [j Hj]. split.
      - apply (Hsorted 0%nat j); trivial. lia.
      - apply (Habove j); trivial. lia. }
    split; [eapply list_elem_of_lookup_2; exact Hr|].
    assert (Hr0 : myNumber <= r) by (apply (Habove 0%nat); trivial; lia).
    split; [|split; [|split; [|reflexivity]]].
    - intros y Hy. destruct (Hfirst y Hy).
      abs_lra.
    - intros y Hy _. apply Hfirst, Hy.
    - intros i before after Hb Ha Hlt _ _. exfalso.
      assert (myNumber <= before) by (apply (Habove i); trivial; lia). lra. }
  destruct (Nat.eqb_spec pos (length myList)) as [Hposn|Hposn].
  { (* everything is below the target: the last element *)
    destruct (lookup_lt_is_Some_2 myList (length myList - 1)) as [r Hr]; [lia|].
    exists r. split; [exact (py_getitem_last myList r Hr)|].
    assert (Hlast : forall y, y ∈ myList -> y <= r /\ y < myNumber).
    { intros y Hy. apply list_elem_of_lookup_1 in Hy as [j Hj].
      pose proof (lookup_lt_Some _ _ _ Hj). split.
      - apply (Hsorted j (length myList - 1)%nat); trivial. lia.
      - apply (Hbelow j); trivial. lia. }
    split; [eapply list_elem_of_lookup_2; exact Hr|].
    assert (Hr0 : r < myNumber) by (apply (Hbelow (length myList - 1)%nat); trivial; lia).
    split; [|split; [|split; [|reflexivity]]].
    - intros y Hy. destruct (Hlast y Hy).
      abs_lra.
    - intros y Hy. destruct (Hlast y Hy).
      abs_lra.
    - intros i before after Hb Ha _ Hle _. exfalso.
      pose proof (lookup_lt_Some _ _ _ Ha).
      assert (after < myNumber) by (apply (Hbelow (S i)); trivial; lia). lra. }
  (* the target lies between two neighbours *)
  destruct (lookup_lt_is_Some_2 myList (pos - 1)) as [before Hbefore]; [lia|].
  destruct (lookup_lt_is_Some_2 myList pos) as [after Hafter]; [lia|].
  replace (Z.of_nat pos - 1)%Z with (Z.of_nat (pos - 1)) by lia.
  rewrite (py_getitem_nat _ _ _ Hbefore), (py_getitem_nat _ _ _ Hafter).
  cbn [mbind result_bind].
  assert (Hb : before < myNumber) by (apply (Hbelow (pos - 1)%nat); trivial; lia).
  assert (Ha : myNumber <= after) by (apply (Habove pos); trivial; lia).
  assert (Hsplit : forall y, y ∈ myList ->
            (y <= before /\ y < myNumber) \/ (after <= y /\ myNumber <= y)).
  { intros y Hy. apply list_elem_of_lookup_1 in Hy as [j Hj].
    destruct (Nat.lt_ge_cases j pos) as [Hj'|Hj'].
    - left. split.
      + apply (Hsorted j (pos - 1)%nat); trivial. lia.
      + apply (Hbelow j); trivial.
    - right. split.
      + apply (Hsorted pos j); trivial.
      + apply (Habove j); trivial. }
  assert (Hbracket : forall i b a',
            myList !! i = Some b -> myList !! S i = Some a' ->
            b < myNumber -> myNumber <= a' -> b = before /\ a' = after).
  { intros i b a' Hi HSi Hlt Hle.
    assert (i < pos)%nat.
    { destruct (Nat.lt_ge_cases i pos); trivial.
      assert (myNumber <= b) by (apply (Habove i); trivial). lra. }
    assert (pos <= S i)%nat.
    { destruct (Nat.lt_ge_cases (S i) pos); trivial.
      assert (a' < myNumber) by (apply (Hbelow (S i)); trivial). lra. }
    assert (pos = S i) by lia. subst pos.
    replace (S i - 1)%nat with i in Hbefore by lia. split; congruence. }
  case_cmp.
  - exists after. split; [reflexivity|].
    split; [eapply list_elem_of_lookup_2; exact Hafter|].
    split; [|split; [|split; [|reflexivity]]].
    + intros y Hy. destruct (Hsplit y Hy) as [[? ?]|[? ?]].
      * abs_lra.
      * abs_lra.
    + intros y Hy. destruct (Hsplit y Hy) as [[? ?]|[? ?]].
      * abs_lra.
      * intros _. assumption.
    + intros i b a' Hi HSi Hlt Hle Heq. exfalso.
      destruct (Hbracket i b a' Hi HSi Hlt Hle) as [-> ->]. lra.
  - exists before. split; [reflexivity|].
    split; [eapply list_elem_of_lookup_2; exact Hbefore|].
    split; [|split; [|split; [|reflexivity]]].
    + intros y Hy. destruct (Hsplit y Hy) as [[? ?]|[? ?]].
      * abs_lra.
      * abs_lra.
    + intros y Hy. destruct (Hsplit y Hy) as [[? ?]|[? ?]].
      * abs_lra.
      * intros _. lra.
    + intros i b a' Hi HSi Hlt Hle Heq.
      destruct (Hbracket i b a' Hi HSi Hlt Hle) as [-> ->]. reflexivity.
Qed.

Lemma take_closest_nearest_witness :
  [1; 3; 5; 7] <> [] /\ Sorted Qle [1; 3; 5; 7] /\
  exists r, take_closest [1; 3; 5; 7] 4 = Ok r /\ r ∈ [1; 3; 5; 7].
Proof.
  assert (Hs : Sorted Qle [1; 3; 5; 7]).
  { repeat constructor; discriminate. }
  split; [discriminate | split; [exact Hs|]].
  destruct (take_closest_nearest [1; 3; 5; 7] 4) as (r & Hr & Hin & _);
    [discriminate | exact Hs |].
  exists r. split; assumption.
Defined.

End ClosestFacts.

(** ** gobo_rotator.py: the calibration table *)

Section LutFacts.
Import GoboRotatorPy.
Local Open Scope Q_scope.

Lemma comprehension_ok {A B} (f : A -> result B) (g : A -> B) (l : list A) :
  (forall a, a ∈ l -> f a = Ok (g a)) -> comprehension f l = Ok (g <$> l).
Proof.
  induction l as [|a l IH]; intros Hf; [reflexivity|].
  cbn [comprehension]. rewrite (Hf a) by apply list_elem_of_here.
  cbn [mbind result_bind]. rewrite IH.
  - reflexivity.
  - intros b Hb. apply Hf. now apply list_elem_of_further.
Qed.

Lemma py_div_pos (a : Q) (d : Z) :
  (0 < d)%Z -> py_div a (inject_Z d) = Ok (a / inject_Z d).
Proof.
  intros Hd. unfold py_div.
  destruct (Qeq_bool (inject_Z d) 0) eqn:E; [|reflexivity].
  apply Qeq_bool_eq in E. unfold Qeq, inject_Z in E. cbn in E. lia.
Qed.

(** Codes that strictly increase, read by positions. *)
Lemma Sorted_increasing (meas : list (Z * Q)) :
  Sorted Z.lt meas.*1 ->
  forall i j xi si xj sj,
    (i < j)%nat -> meas !! i = Some (xi, si) -> meas !! j = Some (xj, sj) ->
    (xi < xj)%Z.
Proof.
  intros Hs. apply Sorted_StronglySorted in Hs.
  2: { intros x y z. apply Z.lt_trans. }
  induction meas as [|[x0 s0] meas IH]; intros i j xi si xj sj Hij Hi Hj.
  - rewrite lookup_nil in Hi. discriminate.
  - cbn in Hs. apply StronglySorted_inv in Hs as [Hs Hx0].
    destruct j as [|j]; [lia|]. cbn in Hj. destruct i as [|i]; cbn in Hi.
    + injection Hi as <- <-. rewrite Forall_forall in Hx0.
      apply Hx0. apply list_elem_of_fmap. exists (xj, sj). split; [reflexivity|].
      eapply list_elem_of_lookup_2. exact Hj.
    + eapply IH; [exact Hs| |exact Hi|exact Hj]. lia.
Qed.

(** The slopes: one per pair of neighbouring samples. *)
Lemma slopes_ok (meas : list (Z * Q)) :
  Sorted Z.lt meas.*1 ->
  exists ds_dx,
    comprehension (fun '(ds, dx) => py_div ds (inject_Z dx))
      (zip (delta Qminus meas.*2) (delta Z.sub meas.*1)) = Ok ds_dx /\
    length ds_dx = pred (length meas) /\
    forall i xi si xj sj,
      meas !! i = Some (xi, si) -> meas !! S i = Some (xj, sj) ->
      ds_dx !! i = Some ((sj - si) / inject_Z (xj - xi)).
Proof.
  intros Hs. pose proof (Sorted_increasing meas Hs) as Hinc. clear Hs.
  induction meas as [|[x0 s0] meas IH].
  - exists []. repeat split. intros i ? ? ? ? Hi. rewrite lookup_nil in Hi. discriminate.
  - destruct meas as [|[x1 s1] rest].
    + exists []. repeat split. intros i ? ? ? ? _ Hi. discriminate Hi.
    + destruct IH as (ds_dx & Hcomp & Hlen & Hlook).
      { intros i j ? ? ? ? Hij Hi Hj.
        apply (Hinc (S i) (S j) _ si _ sj); [lia|exact Hi|exact Hj]. }
      exists (((s1 - s0) / inject_Z (x1 - x0)) :: ds_dx).
      assert (Hx : (x0 < x1)%Z) by (apply (Hinc 0%nat 1%nat _ s0 _ s1); [lia|reflexivity..]).
      split; [|split].
      * unfold delta in *. cbn [fmap list_fmap fst snd tail zip_with comprehension] in *.
        rewrite py_div_pos by lia. cbn [mbind result_bind].
        rewrite Hcomp. reflexivity.
      * cbn in *. now rewrite Hlen.
      * intros [|i] xi si xj sj Hi Hj.
        -- cbn in Hi, Hj. injection Hi as <- <-. injection Hj as <- <-. reflexivity.
        -- cbn. apply (Hlook i xi si xj sj); assumption.
Qed.

Lemma zip3_lookup {A B C} (xs : list A) (ys : list B) (zs : list C) (i : nat) :
  zip3 xs ys zs !! i =
    (x ← xs !! i; y ← ys !! i; z ← zs !! i; Some (x, y, z)).
Proof.
  revert ys zs i. induction xs as [|x xs IH]; intros ys zs i.
  - destruct i; reflexivity.
  - destruct ys as [|y ys].
    { cbn [zip3]. rewrite !lookup_nil. destruct ((x :: xs) !! i); reflexivity. }
    destruct zs as [|z zs].
    { cbn [zip3]. rewrite !lookup_nil. destruct ((x :: xs) !! i); cbn;
        [destruct ((y :: ys) !! i)|]; reflexivity. }
    destruct i as [|i]; [reflexivity|]. cbn [zip3]. rewrite !lookup_cons. apply IH.
Qed.

(** The inner loop stops on the last entry that is not above the code. *)
Lemma find_base_spec (value : Z) (segments : list (Z * Q * Q))
    (base : Z * Q * Q) (i : nat) (seg : Z * Q * Q) :
  segments !! i = Some seg ->
  (forall j x s d, (j <= i)%nat -> segments !! j = Some (x, s, d) -> (x <= value)%Z) ->
  (forall x s d, segments !! S i = Some (x, s, d) -> (value < x)%Z) ->
  find_base value segments base = seg.
Proof.
  revert base i. induction segments as [|[[x0 s0] d0] rest IH];
    intros base i Hi Hle Hgt.
  - rewrite lookup_nil in Hi. discriminate.
  - cbn [find_base].
    assert (H0 : (x0 <= value)%Z) by (apply (Hle 0%nat x0 s0 d0); [lia|reflexivity]).
    destruct (Z.ltb_spec (value - x0) 0); [lia|].
    destruct i as [|i].
    + cbn in Hi. injection Hi as <-.
      destruct rest as [|[[x1 s1] d1] rest']; [reflexivity|].
      cbn [find_base].
      assert ((value < x1)%Z) by (apply (Hgt x1 s1 d1); reflexivity).
      destruct (Z.ltb_spec (value - x1) 0); [reflexivity|lia].
    + apply (IH _ i); [exact Hi| |].
      * intros j x s d Hj Hl. apply (Hle (S j) x s d); [lia|exact Hl].
      * intros x s d Hl. apply (Hgt x s d). exact Hl.
Qed.

(** Every code of the span has its segment: the one that starts at the
    last sample not above the code, the last segment for the last code. *)
Lemma segment_exists (meas : list (Z * Q)) (first last_ code : Z) (s0 sn : Q) :
  (forall i j xi si xj sj,
     (i < j)%nat -> meas !! i = Some (xi, si) -> meas !! j = Some (xj, sj) ->
     (xi < xj)%Z) ->
  (2 <= length meas)%nat ->
  meas !! 0%nat = Some (first, s0) -> last meas = Some (last_, sn) ->
  (first <= code <= last_)%Z ->
  exists i xi si xj sj,
    meas !! i = Some (xi, si) /\ meas !! S i = Some (xj, sj) /\
    (xi <= code)%Z /\
    ((code < xj)%Z \/ (code = xj /\ S (S i) = length meas)).
Proof.
  revert first s0. induction meas as [|[x0 t0] meas IH];
    intros first s0 Hinc Hlen Hfirst Hlast Hcode; [cbn in Hlen; lia|].
  cbn in Hfirst. injection Hfirst as <- <-.
  destruct meas as [|[x1 t1] rest]; [cbn in Hlen; lia|].
  destruct (Z.lt_ge_cases code x1) as [Hlt|Hge].
  - exists 0%nat, x0, t0, x1, t1. repeat split; lia.
  - destruct rest as [|m2 rest].
    + cbn in Hlast. injection Hlast as <- <-.
      exists 0%nat, x0, t0, x1, t1. repeat split; try lia.
      right. split; [lia|reflexivity].
    + destruct (IH x1 t1) as (i & xi & si & xj & sj & Hi & Hj & Hle & Hcase).
      * intros i j ? ? ? ? Hij Hi Hj.
        apply (Hinc (S i) (S j) _ si _ sj); [lia|exact Hi|exact Hj].
      * cbn. lia.
      * reflexivity.
      * exact Hlast.
      * lia.
      * exists (S i), xi, si, xj, sj. repeat split; trivial.
        destruct Hcase as [Hc|[Hc Hl]]; [left; exact Hc|right].
        split; [exact Hc|]. cbn in *. lia.
Qed.

(** C5. For samples whose codes strictly increase, at least two of them,
    [build_lut] returns one entry per integer code from the first code to
    the last, in order.  The entry of a code is the line through the last
    sample that is not above the code, with the slope of the segment that
    starts at that sample; the last code, where no segment starts, is on
    the last segment.  For the samples (128, 0.00479), (137, 0.01),
    (255, 0.43) the entry of code 132 is strictly between 0.00479 and
    0.01 and the entry of code 255 equals 0.43. *)
Theorem build_lut_piecewise_linear :
  (forall (meas : list (Z * Q)) (first last_ : Z) (s_first s_last : Q),
     (2 <= length meas)%nat -> Sorted Z.lt meas.*1 ->
     meas !! 0%nat = Some (first, s_first) ->
     last meas = Some (last_, s_last) ->
     exists table,
       build_lut meas = Ok table /\
       length table = Z.to_nat (last_ - first + 1) /\
       forall code, (first <= code <= last_)%Z ->
         exists i xi si xj sj,
           meas !! i = Some (xi, si) /\ meas !! S i = Some (xj, sj) /\
           (xi <= code)%Z /\
           ((code < xj)%Z \/ (code = xj /\ S (S i) = length meas)) /\
           table !! Z.to_nat (code - first) =
             Some (si + inject_Z (code - xi) * ((sj - si) / inject_Z (xj - xi)),
                   code)) /\
  (exists table v132 v255,
     build_lut [(128, 479 # 100000); (137, 1 # 100); (255, 43 # 100)]%Z
       = Ok table /\
     table !! 4%nat = Some (v132, 132%Z) /\
     479 # 100000 < v132 /\ v132 < 1 # 100 /\
     table !! 127%nat = Some (v255, 255%Z) /\
     v255 == 43 # 100).
Proof.
  split.
  - intros meas first last_ s_first s_last Hlen Hsorted Hfirst Hlast.
    pose proof (Sorted_increasing meas Hsorted) as Hinc.
    destruct (slopes_ok meas Hsorted) as (ds_dx & Hcomp & Hdlen & Hslope).
    destruct meas as [|[x0 s0] [|[x1 s1] rest]]; try (cbn in Hlen; lia).
    cbn in Hfirst. injection Hfirst as <- <-.
    set (meas := (x0, s0) :: (x1, s1) :: rest) in *.
    assert (Hd0 : ds_dx !! 0%nat = Some ((s1 - s0) / inject_Z (x1 - x0))).
    { apply (Hslope 0%nat x0 s0 x1 s1); reflexivity. }
    set (d0 := (s1 - s0) / inject_Z (x1 - x0)) in *.
    set (g := fun value : Z =>
                let '(bx, bs, bd) :=
                  find_base value (zip3 meas.*1 meas.*2 ds_dx) (x0, s0, d0) in
                (bs + inject_Z (value - bx) * bd, value)).
    assert (Hlastx : py_getitem meas.*1 (-1) = Ok last_).
    { apply py_getitem_last. rewrite list_lookup_fmap, length_fmap.
      rewrite last_lookup in Hlast.
      replace (length meas - 1)%nat with (pred (length meas)) by lia.
      rewrite Hlast. reflexivity. }
    exists (g <$> seqZ x0 (last_ + 1 - x0)).
    split; [|split].
    + unfold build_lut. fold meas. rewrite Hcomp. cbn [mbind result_bind].
      rewrite Hlastx.
      change (py_getitem meas.*1 0) with (Ok (A := Z) x0).
      cbn [mbind result_bind].
      apply comprehension_ok. intros value _.
      change (py_getitem meas.*2 0) with (Ok (A := Q) s0).
      cbn [mbind result_bind].
      assert (Hg0 : py_getitem ds_dx 0 = Ok d0)
        by exact (py_getitem_nat ds_dx 0 d0 Hd0).
      rewrite Hg0. cbn [mbind result_bind].
      unfold g. destruct (find_base _ _ _) as [[bx bs] bd]. reflexivity.
    + rewrite length_fmap, length_seqZ. f_equal. lia.
    + intros code Hcode.
      destruct (segment_exists meas x0 last_ code s0 s_last Hinc Hlen eq_refl Hlast Hcode)
        as (i & xi & si & xj & sj & Hi & Hj & Hle & Hcase).
      exists i, xi, si, xj, sj. repeat split; trivial.
      rewrite list_lookup_fmap, lookup_seqZ_lt by lia.
      replace (x0 + Z.of_nat (Z.to_nat (code - x0)))%Z with code by lia.
      cbn [fmap option_fmap option_map]. unfold g.
      rewrite (find_base_spec code _ (x0, s0, d0) i
                 (xi, si, (sj - si) / inject_Z (xj - xi))); [reflexivity| | |].
      * rewrite zip3_lookup, !list_lookup_fmap, Hi.
        rewrite (Hslope i xi si xj sj Hi Hj). reflexivity.
      * intros j x s d Hji Hl. rewrite zip3_lookup, !list_lookup_fmap in Hl.
        destruct (meas !! j) as [[xj' sj']|] eqn:Hmj; [|discriminate].
        cbn in Hl. destruct (ds_dx !! j); [|discriminate].
        cbn in Hl. injection Hl as <- _ _.
        destruct (Nat.eq_dec j i) as [->|Hne].
        -- rewrite Hi in Hmj. injection Hmj as <- _. exact Hle.
        -- assert ((xj' < xi)%Z); [|lia].
           apply (Hinc j i _ sj' _ si); [lia|exact Hmj|exact Hi].
      * intros x s d Hl. rewrite zip3_lookup, !list_lookup_fmap in Hl.
        destruct (meas !! S i) as [[x' s']|] eqn:Hmj; [|discriminate].
        cbn in Hl. destruct (ds_dx !! S i) eqn:Hds; [|discriminate].
        cbn in Hl. injection Hl as <- _ _.
        injection Hj as <- <-.
        destruct Hcase as [Hc|[Hc Hl]]; [exact Hc|].
        apply lookup_lt_Some in Hds. lia.
  - eexists _, _, _. split; [vm_compute; reflexivity|].
    split; [reflexivity|]. split; [reflexivity|]. split; [reflexivity|].
    split; reflexivity.
Qed.

Lemma build_lut_piecewise_linear_witness :
  (2 <= length [(128, 479 # 100000); (137, 1 # 100); (255, 43 # 100)]%Z)%nat /\
  Sorted Z.lt [(128, 479 # 100000); (137, 1 # 100); (255, 43 # 100)]%Z.*1 /\
  exists table,
    build_lut [(128, 479 # 100000); (137, 1 # 100); (255, 43 # 100)]%Z
      = Ok table /\
    length table = 128%nat.
Proof.
  assert (Hs : Sorted Z.lt [(128, 479 # 100000); (137, 1 # 100); (255, 43 # 100)]%Z.*1).
  { repeat constructor. }
  split; [cbn; lia | split; [exact Hs|]].
  destruct (proj1 build_lut_piecewise_linear
              [(128, 479 # 100000); (137, 1 # 100); (255, 43 # 100)]%Z
              128%Z 255%Z (479 # 100000) (43 # 100))
    as (table & Htable & Hlen & _);
    [cbn; lia | exact Hs | reflexivity | reflexivity |].
  exists table. split; [exact Htable | exact Hlen].
Defined.

End LutFacts.

(** ** color.py: conversions between RGB and HSV *)

Section ConversionFacts.
Import ColorPy.
Local Open Scope Q_scope.
Context {husl_lib : HuslLib}.

Lemma py_max3_spec (a b c : Q) :
  a <= py_max3 a b c /\ b <= py_max3 a b c /\ c <= py_max3 a b c /\
  (py_max3 a b c = a \/ py_max3 a b c = b \/ py_max3 a b c = c).
Proof.
  unfold py_max3, py_max. destruct (Qltb a b) eqn:E1.
  - apply Qltb_true in E1. case_cmp; repeat split; try lra; auto.
  - apply Qltb_false in E1. case_cmp; repeat split; try lra; auto.
Qed.

Lemma py_min3_spec (a b c : Q) :
  py_min3 a b c <= a /\ py_min3 a b c <= b /\ py_min3 a b c <= c /\
  (py_min3 a b c = a \/ py_min3 a b c = b \/ py_min3 a b c = c).
Proof.
  unfold py_min3, py_min. destruct (Qltb b a) eqn:E1.
  - apply Qltb_true in E1. case_cmp; repeat split; try lra; auto.
  - apply Qltb_false in E1. case_cmp; repeat split; try lra; auto.
Qed.

Lemma Qeq_bool_true (a b : Q) : Qeq_bool a b = true -> a == b.
Proof. apply Qeq_bool_eq. Qed.

Lemma Qeq_bool_false (a b : Q) : Qeq_bool a b = false -> ~ a == b.
Proof. intros E H. apply Qeq_eq_bool in H. congruence. Qed.

(** The difference of two of the [delta_] terms of [rgb_to_hsv]. *)
Lemma delta_terms_diff (M d x y : Q) :
  ~ d == 0 ->
  (((M - x) / 6) + (d / 2)) / d - (((M - y) / 6) + (d / 2)) / d
  == (y - x) / (6 * d).
Proof. intros Hd. field. exact Hd. Qed.

Lemma sixth_bounds (n d : Q) :
  0 < d -> - d <= n -> n <= d ->
  - (1 # 6) <= n / (6 * d) /\ n / (6 * d) <= 1 # 6.
Proof.
  intros Hd Hlo Hhi. split.
  - apply Qle_shift_div_l; lra.
  - apply Qle_shift_div_r; lra.
Qed.

Lemma sixth_sign (n d : Q) :
  0 < d -> (0 <= n -> 0 <= n / (6 * d)) /\ (n < 0 -> n / (6 * d) < 0).
Proof.
  intros Hd. split; intros Hn.
  - apply Qle_shift_div_l; lra.
  - apply Qlt_shift_div_r; lra.
Qed.


(** What [rgb_to_hsv] returns, by cases on the largest coordinate [M] and
    the smallest [m]. *)
Lemma rgb_to_hsv_cases (coordinates : pyseq) (r g b : Q) :
  items coordinates = [r; g; b] ->
  let M := py_max3 r g b in
  let m := py_min3 r g b in
  (M == m /\ rgb_to_hsv coordinates = Ok (PyList [0; 0; M])) \/
  (m < M /\ M == 0 /\ rgb_to_hsv coordinates = Raise ZeroDivisionError) \/
  (m < M /\ ~ M == 0 /\
   exists hue,
     rgb_to_hsv coordinates = Ok (PyList [hue; (M - m) / M; M]) /\
     0 <= hue /\ hue < 1 /\
     (r == M ->
        (0 <= g - b -> hue == (g - b) / (6 * (M - m))) /\
        (g - b < 0 -> hue == (g - b) / (6 * (M - m)) + 1)) /\
     (~ r == M -> g == M -> hue == (1 # 3) + (b - r) / (6 * (M - m))) /\
     (~ r == M -> ~ g == M -> hue == (2 # 3) + (r - g) / (6 * (M - m)))).
Proof.
  intros Hitems M m.
  destruct (py_max3_spec r g b) as (HMr & HMg & HMb & _).
  destruct (py_min3_spec r g b) as (Hmr & Hmg & Hmb & _).
  fold M in HMr, HMg, HMb. fold m in Hmr, Hmg, Hmb.
  unfold rgb_to_hsv. rewrite Hitems. fold M m.
  change (1 / 3) with (1 # 3). change (2 / 3) with (2 # 3).
  destruct (Qeq_bool (M - m) 0) eqn:Ed.
  { left. apply Qeq_bool_true in Ed. split; [lra | reflexivity]. }
  apply Qeq_bool_false in Ed. right.
  assert (Hlt : m < M).
  { destruct (Qlt_le_dec m M) as [H|H]; [exact H|]. exfalso. apply Ed. lra. }
  unfold py_div. destruct (Qeq_bool M 0) eqn:EM.
  { left. apply Qeq_bool_true in EM. repeat split; trivial. }
  apply Qeq_bool_false in EM. right. split; [exact Hlt|]. split; [exact EM|].
  cbn [mbind result_bind]. eexists. split; [reflexivity|].
  assert (Hd : 0 < M - m) by lra.
  pose proof (delta_terms_diff M (M - m) b g Ed) as Hbg.
  pose proof (delta_terms_diff M (M - m) r b Ed) as Hrb.
  pose proof (delta_terms_diff M (M - m) g r Ed) as Hgr.
  destruct (sixth_bounds (g - b) (M - m) Hd) as [Hbg1 Hbg2]; [lra|lra|].
  destruct (sixth_bounds (b - r) (M - m) Hd) as [Hrb1 Hrb2]; [lra|lra|].
  destruct (sixth_bounds (r - g) (M - m) Hd) as [Hgr1 Hgr2]; [lra|lra|].
  destruct (sixth_sign (g - b) (M - m) Hd) as [Hs1 Hs2].
  set (delta_r := (((M - r) / 6) + ((M - m) / 2)) / (M - m)) in *.
  set (delta_g := (((M - g) / 6) + ((M - m) / 2)) / (M - m)) in *.
  set (delta_b := (((M - b) / 6) + ((M - m) / 2)) / (M - m)) in *.
  set (x_gb := (g - b) / (6 * (M - m))) in *.
  set (x_br := (b - r) / (6 * (M - m))) in *.
  set (x_rg := (r - g) / (6 * (M - m))) in *.
  clearbody delta_r delta_g delta_b x_gb x_br x_rg.
  destruct (Qeq_bool r M) eqn:Er;
    [apply Qeq_bool_true in Er | apply Qeq_bool_false in Er;
     destruct (Qeq_bool g M) eqn:Eg;
       [apply Qeq_bool_true in Eg | apply Qeq_bool_false in Eg]].
  - destruct (Qlt_le_dec (g - b) 0) as [Hn|Hn].
    + specialize (Hs2 Hn).
      destruct (Qltb (delta_b - delta_g) 0) eqn:E1;
        [apply Qltb_true in E1 | apply Qltb_false in E1; exfalso; lra].
      repeat split; intros; try lra; try (exfalso; lra); try (exfalso; tauto).
    + specialize (Hs1 Hn).
      destruct (Qltb (delta_b - delta_g) 0) eqn:E1;
        [apply Qltb_true in E1; exfalso; lra | apply Qltb_false in E1].
      destruct (Qltb 1 (delta_b - delta_g)) eqn:E2;
        [apply Qltb_true in E2; exfalso; lra | apply Qltb_false in E2].
      repeat split; intros; try lra; try (exfalso; lra); try (exfalso; tauto).
  - destruct (Qltb ((1 # 3) + delta_r - delta_b) 0) eqn:E1;
      [apply Qltb_true in E1; exfalso; lra | apply Qltb_false in E1].
    destruct (Qltb 1 ((1 # 3) + delta_r - delta_b)) eqn:E2;
      [apply Qltb_true in E2; exfalso; lra | apply Qltb_false in E2].
    repeat split; intros; try lra; try (exfalso; lra); try (exfalso; tauto).
  - destruct (Qltb ((2 # 3) + delta_g - delta_r) 0) eqn:E1;
      [apply Qltb_true in E1; exfalso; lra | apply Qltb_false in E1].
    destruct (Qltb 1 ((2 # 3) + delta_g - delta_r)) eqn:E2;
      [apply Qltb_true in E2; exfalso; lra | apply Qltb_false in E2].
    repeat split; intros; try lra; try (exfalso; lra); try (exfalso; tauto).
Qed.


Lemma Qfloor_bounds (x : Q) :
  inject_Z (Qfloor x) <= x /\ x < inject_Z (Qfloor x) + 1.
Proof.
  split; [apply Qfloor_le|].
  pose proof (Qlt_floor x) as H. rewrite inject_Z_plus in H. exact H.
Qed.

Lemma Qfloor_unique (k : Z) (x : Q) :
  inject_Z k <= x -> x < inject_Z k + 1 -> Qfloor x = k.
Proof.
  intros Hlo Hhi. destruct (Qfloor_bounds x) as [Flo Fhi].
  assert (H1 : inject_Z (Qfloor x) < inject_Z (k + 1)).
  { rewrite inject_Z_plus. apply Qle_lt_trans with x; assumption. }
  assert (H2 : inject_Z k < inject_Z (Qfloor x + 1)).
  { rewrite inject_Z_plus. apply Qle_lt_trans with x; assumption. }
  rewrite <- Zlt_Qlt in H1, H2. lia.
Qed.

(** What [hsv_to_rgb] returns for a color with some saturation: the
    sector [k] of the hue, its position [f] within the sector, and the
    three coordinates by sector. *)
Lemma hsv_to_rgb_sectors (coordinates : pyseq) (h s v : Q) :
  items coordinates = [h; s; v] -> 0 <= h -> h <= 1 -> ~ s == 0 ->
  exists (k : Z) (f : Q),
    (0 <= k <= 5)%Z /\ 0 <= f /\ f < 1 /\
    (h < 1 -> inject_Z k + f == h * 6) /\
    exists r g b,
      hsv_to_rgb coordinates = Ok (PyList [r; g; b]) /\
      ((k = 0%Z /\ r = v /\ g = v * (1 - s * (1 - f)) /\ b = v * (1 - s)) \/
       (k = 1%Z /\ r = v * (1 - s * f) /\ g = v /\ b = v * (1 - s)) \/
       (k = 2%Z /\ r = v * (1 - s) /\ g = v /\ b = v * (1 - s * (1 - f))) \/
       (k = 3%Z /\ r = v * (1 - s) /\ g = v * (1 - s * f) /\ b = v) \/
       (k = 4%Z /\ r = v * (1 - s * (1 - f)) /\ g = v * (1 - s) /\ b = v) \/
       (k = 5%Z /\ r = v /\ g = v * (1 - s) /\ b = v * (1 - s * f))).
Proof.
  intros Hitems Hh0 Hh1 Hs. unfold hsv_to_rgb. rewrite Hitems.
  destruct (Qeq_bool s 0) eqn:Es;
    [apply Qeq_bool_true in Es; contradiction | clear Es].
  set (hue := if Qeq_bool (h * 6) 6 then 0 else h * 6).
  assert (Hhue : 0 <= hue /\ hue < 6 /\ (h < 1 -> hue = h * 6)).
  { unfold hue. destruct (Qeq_bool (h * 6) 6) eqn:E6.
    - apply Qeq_bool_true in E6. repeat split; try lra.
    - apply Qeq_bool_false in E6. repeat split; try lra. }
  destruct Hhue as (Hhue0 & Hhue6 & Hhue_eq). clearbody hue.
  rewrite (py_int_nonneg hue Hhue0).
  destruct (Qfloor_bounds hue) as [Flo Fhi].
  set (k := Qfloor hue) in *.
  assert (Hk : (0 <= k <= 5)%Z).
  { split.
    - change 0%Z with (Qfloor 0). apply Qfloor_resp_le. exact Hhue0.
    - assert (H : inject_Z k < inject_Z 6) by (apply Qle_lt_trans with hue; assumption).
      rewrite <- Zlt_Qlt in H. lia. }
  exists k, (hue - inject_Z k).
  split; [exact Hk|]. split; [lra|]. split; [lra|].
  split; [intros Hlt; rewrite (Hhue_eq Hlt); ring|].
  clearbody k.
  destruct (Z.eqb_spec k 0) as [->|N0]; [do 3 eexists; split; [reflexivity|tauto]|].
  destruct (Z.eqb_spec k 1) as [->|N1]; [do 3 eexists; split; [reflexivity|tauto]|].
  destruct (Z.eqb_spec k 2) as [->|N2]; [do 3 eexists; split; [reflexivity|tauto]|].
  destruct (Z.eqb_spec k 3) as [->|N3]; [do 3 eexists; split; [reflexivity|tauto]|].
  destruct (Z.eqb_spec k 4) as [->|N4]; [do 3 eexists; split; [reflexivity|tauto]|].
  assert (k = 5%Z) by lia. subst k.
  do 3 eexists; split; [reflexivity|]. tauto.
Qed.


Lemma py_max3_is (a b c top : Q) :
  a <= top -> b <= top -> c <= top ->
  a == top \/ b == top \/ c == top -> py_max3 a b c == top.
Proof.
  intros Ha Hb Hc Hone.
  destruct (py_max3_spec a b c) as (H1 & H2 & H3 & [E | [E | E]]);
    rewrite E in *; destruct Hone as [H | [H | H]]; lra.
Qed.

Lemma py_min3_is (a b c bot : Q) :
  bot <= a -> bot <= b -> bot <= c ->
  a == bot \/ b == bot \/ c == bot -> py_min3 a b c == bot.
Proof.
  intros Ha Hb Hc Hone.
  destruct (py_min3_spec a b c) as (H1 & H2 & H3 & [E | [E | E]]);
    rewrite E in *; destruct Hone as [H | [H | H]]; lra.
Qed.

Lemma Qdiv_eq (a b c : Q) : ~ b == 0 -> a == c * b -> a / b == c.
Proof. intros Hb H. rewrite H. field. exact Hb. Qed.

(** The mixed coordinates of [hsv_to_rgb] lie between [v * (1 - s)] and
    [v]. *)
Lemma sector_order (v s f : Q) :
  0 < v -> 0 < s -> 0 <= f -> f < 1 ->
  v * (1 - s) < v /\
  v * (1 - s) <= v * (1 - s * (1 - f)) /\ v * (1 - s * (1 - f)) < v /\
  v * (1 - s) < v * (1 - s * f) /\ v * (1 - s * f) <= v.
Proof.
  intros Hv Hs Hf0 Hf1.
  assert (Hvs : 0 < v * s) by nra.
  assert (H1 : 0 <= (v * s) * f) by nra.
  assert (H2 : 0 < (v * s) * (1 - f)) by nra.
  repeat split; nra.
Qed.

Lemma sector_start (v s f : Q) :
  0 < v -> 0 < s -> v * (1 - s * f) == v -> f == 0.
Proof.
  intros Hv Hs H.
  assert (Hvs : 0 < v * s) by nra.
  assert (H0 : (v * s) * f == 0) by lra.
  apply Qmult_integral in H0. destruct H0 as [H0|H0]; [lra | exact H0].
Qed.


(** The final algebra of the round trip: the hue found by [rgb_to_hsv],
    with the largest and smallest coordinate and the hue replaced by
    what they are in the sector at hand. *)
Ltac hue_algebra HM Hm Hh Hvs :=
  rewrite HM, Hm, Hh; cbn [inject_Z]; field; intros Hz; apply Hvs;
  rewrite <- Hz; ring.

(** A color with some saturation and some value survives the trip from
    HSV to RGB and back. *)
Lemma hsv_rgb_hsv_roundtrip (coordinates : pyseq) (h s v : Q) :
  items coordinates = [h; s; v] ->
  0 <= h -> h < 1 -> 0 < s -> 0 < v ->
  exists via h' s' v',
    hsv_to_rgb coordinates = Ok via /\
    rgb_to_hsv via = Ok (PyList [h'; s'; v']) /\
    h' == h /\ s' == s /\ v' == v.
Proof.
  intros Hitems Hh0 Hh1 Hs Hv.
  destruct (hsv_to_rgb_sectors coordinates h s v Hitems)
    as (k & f & Hk & Hf0 & Hf1 & Hkf & r & g & b & Hrgb & Hcase);
    [lra | lra | intros Hz; lra |].
  specialize (Hkf Hh1).
  assert (Hh : h == (inject_Z k + f) / 6).
  { symmetry. apply Qdiv_eq; [discriminate | exact Hkf]. }
  destruct (sector_order v s f Hv Hs Hf0 Hf1) as (Hp & Hpt & Htv & Hpq & Hqv).
  assert (Hvs : ~ v * s == 0).
  { intros Hz. apply Qmult_integral in Hz. destruct Hz; lra. }
  pose proof (sector_start v s f Hv Hs) as Hstart.
  pose proof (rgb_to_hsv_cases (PyList [r; g; b]) r g b eq_refl) as Hcases.
  cbv zeta in Hcases.
  assert (HM : py_max3 r g b == v).
  { destruct Hcase as [(_ & -> & -> & ->) | [(_ & -> & -> & ->) |
      [(_ & -> & -> & ->) | [(_ & -> & -> & ->) | [(_ & -> & -> & ->) |
      (_ & -> & -> & ->)]]]]];
      (apply py_max3_is; [lra | lra | lra |]);
      first [left; reflexivity | right; left; reflexivity
            | right; right; reflexivity]. }
  assert (Hm : py_min3 r g b == v * (1 - s)).
  { destruct Hcase as [(_ & -> & -> & ->) | [(_ & -> & -> & ->) |
      [(_ & -> & -> & ->) | [(_ & -> & -> & ->) | [(_ & -> & -> & ->) |
      (_ & -> & -> & ->)]]]]];
      (apply py_min3_is; [lra | lra | lra |]);
      first [left; reflexivity | right; left; reflexivity
            | right; right; reflexivity]. }
  set (M := py_max3 r g b) in *. set (m := py_min3 r g b) in *.
  clearbody M m.
  destruct Hcases as [[Hz _] | [(_ & Hz & _) | (Hlt & HM0 & hue & Hhsv & _ & _ & Hr & Hg & Hb)]];
    [exfalso; lra | exfalso; lra |].
  exists (PyList [r; g; b]), hue, ((M - m) / M), M.
  split; [exact Hrgb|]. split; [exact Hhsv|].
  split; [|split; [|exact HM]].
  2: { apply Qdiv_eq; [exact HM0|]. rewrite HM, Hm. ring. }
  destruct Hcase as [(-> & -> & -> & ->) | [(-> & -> & -> & ->) |
      [(-> & -> & -> & ->) | [(-> & -> & -> & ->) | [(-> & -> & -> & ->) |
      (-> & -> & -> & ->)]]]]].
  - (* sector 0: (v, t, p) *)
    destruct Hr as [Hr _]; [lra|]. rewrite Hr by lra.
    hue_algebra HM Hm Hh Hvs.
  - (* sector 1: (q, v, p) *)
    destruct (Qeq_dec (v * (1 - s * f)) M) as [E|E].
    + destruct (Hr E) as [Hr' _]. rewrite Hr' by lra.
      assert (Hf : f == 0) by (apply Hstart; lra).
      rewrite Hf in Hh. hue_algebra HM Hm Hh Hvs.
    + rewrite (Hg E) by lra. hue_algebra HM Hm Hh Hvs.
  - (* sector 2: (p, v, t) *)
    rewrite Hg by lra. hue_algebra HM Hm Hh Hvs.
  - (* sector 3: (p, q, v) *)
    destruct (Qeq_dec (v * (1 - s * f)) M) as [E|E].
    + rewrite (Hg ltac:(lra) E).
      assert (Hf : f == 0) by (apply Hstart; lra).
      rewrite Hf in Hh. hue_algebra HM Hm Hh Hvs.
    + rewrite (Hb ltac:(lra) E). hue_algebra HM Hm Hh Hvs.
  - (* sector 4: (t, p, v) *)
    rewrite Hb by lra. hue_algebra HM Hm Hh Hvs.
  - (* sector 5: (v, p, q) *)
    destruct Hr as [_ Hr]; [lra|]. rewrite Hr by lra.
    hue_algebra HM Hm Hh Hvs.
Qed.


(** *** Conversions keep coordinates in the unit interval *)



Lemma items_three (coordinates : pyseq) (P : Prop) :
  (forall a b c, items coordinates = [a; b; c] -> P) ->
  ((forall a b c, items coordinates <> [a; b; c]) -> P) -> P.
Proof.
  intros H3 Hn. destruct (items coordinates) as [|a [|b [|c [|d l]]]] eqn:E;
    try (apply Hn; intros; discriminate).
  eapply H3. reflexivity.
Qed.



Lemma rgb_to_hsv_shape (coordinates out : pyseq) :
  rgb_to_hsv coordinates = Ok out ->
  exists hue sat val, out = PyList [hue; sat; val] /\ 0 <= hue /\ hue < 1.
Proof.
  intros Hout.
  apply (items_three coordinates); [intros r g b Hitems | intros Hn].
  2: { exfalso. unfold rgb_to_hsv in Hout.
       destruct (items coordinates) as [|a [|b [|c [|d l]]]]; try discriminate.
       now apply (Hn a b c). }
  destruct (rgb_to_hsv_cases coordinates r g b Hitems)
    as [[_ H] | [(_ & _ & H) | (_ & _ & hue & H & H0 & H1 & _)]];
    rewrite H in Hout; [|discriminate|].
  - injection Hout as <-. do 3 eexists. split; [reflexivity|]. split; lra.
  - injection Hout as <-. do 3 eexists. split; [reflexivity|]. split; assumption.
Qed.






End ConversionFacts.

(** ** color.py: the coordinates of a color *)

Section ColorFacts.
Import ColorPy.
Local Open Scope Q_scope.
Context {husl_lib : HuslLib}.

Lemma Color_init_unit (sp : color_space) (coords : pyseq) :
  unit_seq (coordinates (Color_init sp coords)).
Proof.
  unfold unit_seq, Color_init. cbn. apply Forall_fmap, Forall_true.
  intros c. cbn. apply clamp_range. lra.
Qed.









End ColorFacts.

(** ** color.py: hue rotation *)

Section HueFacts.
Import ColorPy.
Local Open Scope Q_scope.
Context {husl_lib : HuslLib}.

Lemma py_mod_one (a : Q) : py_mod a 1 == a - inject_Z (Qfloor a).
Proof.
  unfold py_mod. assert (H : a / 1 == a) by (field).
  rewrite (Qfloor_comp _ _ H). ring.
Qed.

Lemma py_mod_range (a : Q) : 0 <= py_mod a 1 /\ py_mod a 1 < 1.
Proof.
  rewrite py_mod_one. destruct (Qfloor_bounds a). split; lra.
Qed.

Lemma py_mod_compat (a b : Q) : a == b -> py_mod a 1 == py_mod b 1.
Proof.
  intros H. rewrite !py_mod_one, (Qfloor_comp _ _ H), H. reflexivity.
Qed.

Lemma py_mod_turn (a : Q) : 0 <= a -> a < 1 -> py_mod (a + 1) 1 == a.
Proof.
  intros H0 H1. rewrite py_mod_one.
  rewrite (Qfloor_unique 1 (a + 1)).
  - change (inject_Z 1) with 1. ring.
  - change (inject_Z 1) with 1. lra.
  - change (inject_Z 1) with 1. lra.
Qed.

(** What [in_hsv] builds its color from. *)
Lemma in_hsv_inv (color col_hsv : Color) :
  in_hsv color = Ok col_hsv ->
  exists hue sat val,
    convert_color_space (space color) hsv (coordinates color)
      = Ok (PyList [hue; sat; val]) /\
    0 <= hue /\ hue < 1 /\
    col_hsv = {| space := hsv;
                 coordinates :=
                   PyList [clamp hue 0 1; clamp sat 0 1; clamp val 0 1] |}.
Proof.
  unfold in_hsv, in_color_space. intros H.
  destruct (convert_color_space (space color) hsv (coordinates color))
    as [raw|e] eqn:Hraw; [|discriminate].
  cbn in H. injection H as <-.
  assert (Hshape : exists hue sat val,
             raw = PyList [hue; sat; val] /\ 0 <= hue /\ hue < 1).
  { unfold convert_color_space in Hraw.
    destruct (space_to_rgb_map (space color) (coordinates color));
      [|discriminate].
    cbn in Hraw. eapply rgb_to_hsv_shape. exact Hraw. }
  destruct Hshape as (hue & sat & val & -> & H0 & H1).
  exists hue, sat, val. repeat split; trivial.
Qed.

(** C9, as the code has it in exact arithmetic.  For a color whose HSV
    form has some saturation and some value, [add_hue_hsv] returns a
    color in HSV with the same saturation and value whose hue is the HSV
    hue of the color plus the argument, reduced modulo 1.0 into [0, 1);
    adding 1.0 gives the hue back.  On doubles the new hue goes through
    HSV to RGB and back and comes out rounded (see the facts on
    doubles). *)
Theorem add_hue_hsv_rotates (color col_hsv : Color) (value h s v : Q) :
  in_hsv color = Ok col_hsv ->
  coordinates col_hsv = PyList [h; s; v] ->
  0 < s -> 0 < v ->
  exists hc h' s' v',
    hue_hsv color = Ok hc /\
    add_hue_hsv color value =
      Ok {| space := hsv; coordinates := PyList [h'; s'; v'] |} /\
    h' == py_mod (hc + value) 1 /\
    0 <= h' /\ h' < 1 /\ s' == s /\ v' == v /\
    (value == 1 -> h' == hc).
Proof.
  intros Hin Hcoords Hs Hv.
  destruct (in_hsv_inv color col_hsv Hin)
    as (hue & sat & val & Hconv & Hhue0 & Hhue1 & ->).
  cbn in Hcoords. injection Hcoords as Eh Es Ev.
  assert (Hh : h == hue) by (rewrite <- Eh; apply clamp_eq; lra).
  assert (Hs1 : s <= 1) by (rewrite <- Es; apply clamp_range; lra).
  rewrite Eh, Es, Ev in *. clear Eh Es Ev.
  (* the color read back through HSV *)
  destruct (hsv_rgb_hsv_roundtrip (PyList [h; s; v]) h s v eq_refl)
    as (via & h1 & s1 & v1 & Hto & Hfrom & Hh1 & Hs1' & Hv1); try lra.
  assert (Hshift :
            convert_color_space hsv hsv (PyList [h; s; v])
            = Ok (PyList [h1; s1; v1])).
  { unfold convert_color_space. cbn [space_to_rgb_map rgb_to_space_map].
    rewrite Hto. cbn [mbind result_bind]. exact Hfrom. }
  (* the new hue *)
  remember (clamp (py_mod (h1 + value) 1) 0 1) as turned eqn:Et.
  destruct (py_mod_range (h1 + value)) as [Hm0 Hm1].
  assert (Hturned : turned == py_mod (h1 + value) 1)
    by (rewrite Et; apply clamp_eq; lra).
  destruct (hsv_rgb_hsv_roundtrip (PyList [turned; s1; v1]) turned s1 v1 eq_refl)
    as (via2 & h2 & s2 & v2 & Hto2 & Hfrom2 & Hh2 & Hs2 & Hv2); try lra.
  exists hue, h2, s2, v2.
  assert (Hmod : h2 == py_mod (hue + value) 1).
  { rewrite Hh2, Hturned. apply py_mod_compat. lra. }
  split; [|split; [|split; [exact Hmod|]]].
  - unfold hue_hsv, get_coordinate. rewrite Hconv. reflexivity.
  - unfold add_hue_hsv. rewrite Hin. cbn [mbind result_bind].
    unfold hue_hsv, get_coordinate. cbn [space coordinates].
    rewrite Hshift. cbn [mbind result_bind].
    change (seq_getitem (PyList [h1; s1; v1]) 0) with (Ok (A := Q) h1).
    cbn [mbind result_bind].
    unfold set_hue_hsv, set_coordinate. cbn [space coordinates].
    rewrite Hshift. cbn [mbind result_bind].
    rewrite <- Et.
    change (seq_setitem (PyList [h1; s1; v1]) 0 turned)
      with (Ok (PyList [turned; s1; v1])).
    cbn [mbind result_bind].
    unfold convert_color_space. cbn [space_to_rgb_map rgb_to_space_map].
    rewrite Hto2. cbn [mbind result_bind]. rewrite Hfrom2. reflexivity.
  - destruct (py_mod_range (hue + value)) as [Hr0 Hr1].
    split; [lra|]. split; [lra|]. split; [lra|]. split; [lra|].
    intros Hone. rewrite Hmod.
    rewrite (py_mod_compat (hue + value) (hue + 1)) by lra.
    apply py_mod_turn; assumption.
Qed.

End HueFacts.

Section ColorExamples.
Import ColorPy Instances.
Local Open Scope Q_scope.



Lemma add_hue_hsv_rotates_witness :
  exists col_hsv h s v,
    in_hsv (Color_init rgb (PyTuple [1 # 2; 1 # 3; 1 # 5])) = Ok col_hsv /\
    coordinates col_hsv = PyList [h; s; v] /\
    0 < s /\ 0 < v /\
    exists hc h' s' v',
      hue_hsv (Color_init rgb (PyTuple [1 # 2; 1 # 3; 1 # 5])) = Ok hc /\
      add_hue_hsv (Color_init rgb (PyTuple [1 # 2; 1 # 3; 1 # 5])) (1 # 4) =
        Ok {| space := hsv; coordinates := PyList [h'; s'; v'] |} /\
      h' == py_mod (hc + (1 # 4)) 1.
Proof.
  do 4 eexists.
  split; [vm_compute; reflexivity|]. split; [reflexivity|].
  split; [reflexivity|]. split; [reflexivity|].
  destruct (add_hue_hsv_rotates
              (Color_init rgb (PyTuple [1 # 2; 1 # 3; 1 # 5])) _ (1 # 4) _ _ _
              eq_refl eq_refl eq_refl eq_refl)
    as (hc & h' & s' & v' & H1 & H2 & H3 & _).
  exists hc, h', s', v'. repeat split; assumption.
Defined.

(** C9 as stated fails on a gray: it has hue 0 in HSV, and it still has
    hue 0 after a quarter turn. *)
Lemma add_hue_hsv_gray_keeps_hue :
  hue_hsv (Color_init rgb (PyTuple [1 # 2; 1 # 2; 1 # 2])) = Ok 0 /\
  add_hue_hsv (Color_init rgb (PyTuple [1 # 2; 1 # 2; 1 # 2])) (1 # 4) =
    Ok {| space := hsv; coordinates := PyList [0; 0; 1 # 2] |} /\
  ~ 0 == py_mod (0 + (1 # 4)) 1.
Proof.
  split; [vm_compute; reflexivity|].
  split; [vm_compute; reflexivity|]. discriminate.
Qed.

End ColorExamples.

(** ** The code on doubles: what rounding changes *)

Section Binary64Facts.
Import Binary64.
Local Open Scope float_scope.

(** C4 as stated fails on doubles.  An easer at 0.9 with target 0.3 is
    0.6 away, less than the 1.26 that easing 1.4 allows in 0.9 seconds,
    so it should arrive on the target: [ease] returns
    0.29999999999999993, which is not the target and lies beyond it.
    An easer at 1.0 with target 2.0 and easing 1.0 does not move in
    1e-17 seconds: the distance does not decrease. *)
Lemma ease_binary64_misses_target :
  (0 < float_value 0x1.6666666666666p+0)%Q /\
  (0 <= float_value 0x1.ccccccccccccdp-1)%Q /\
  (Qabs (float_value 0x1.3333333333333p-2 - float_value 0x1.ccccccccccccdp-1)
   <= float_value 0x1.6666666666666p+0 * float_value 0x1.ccccccccccccdp-1)%Q /\
  (ease {| target := 0x1.3333333333333p-2; current := 0x1.ccccccccccccdp-1 |}
        0x1.ccccccccccccdp-1 0x1.6666666666666p+0).1
  = 0x1.3333333333332p-2 /\
  (0x1.3333333333332p-2 =? 0x1.3333333333333p-2) = false /\
  (0x1.3333333333332p-2 <? 0x1.3333333333333p-2) = true /\
  (0x1.3333333333333p-2 <? 0x1.ccccccccccccdp-1) = true /\
  (0 < float_value 0x1.70ef54646d497p-57 * float_value 1
   < Qabs (float_value 2 - float_value 1))%Q /\
  (ease {| target := 2; current := 1 |} 0x1.70ef54646d497p-57 1).1 = 1.
Proof.
  repeat split; vm_compute; first [reflexivity | discriminate].
Qed.

(** C8 fails on doubles, against the docstring of [take_closest]
    ("Returns closest value to myNumber").  In the sorted list
    [-1.0, 1.0] the element closest to 2^-60 is 1.0, strictly: both
    differences that [take_closest] computes round to 1.0, and it
    returns -1.0. *)
Lemma take_closest_binary64_not_nearest :
  (-1 <? 1) = true /\
  take_closest [-1; 1] 0x1p-60 = Ok (-1) /\
  (Qabs (float_value 1 - float_value 0x1p-60)
   < Qabs (float_value (-1) - float_value 0x1p-60))%Q.
Proof.
  repeat split; vm_compute; reflexivity.
Qed.

(** On doubles the table of [build_lut] need not go through the last
    measurement, which is computed from the one before it: for
    [(0, 0.1), (1, 0.45)] the entry at code 1 is 0.44999999999999996. *)
Example build_lut_binary64_last_sample :
  build_lut [(0%Z, 0x1.999999999999ap-4); (1%Z, 0x1.ccccccccccccdp-2)]
  = Ok [(0x1.999999999999ap-4, 0%Z); (0x1.cccccccccccccp-2, 1%Z)] /\
  (0x1.cccccccccccccp-2 =? 0x1.ccccccccccccdp-2) = false.
Proof. split; vm_compute; reflexivity. Qed.

(** On doubles [add_hue_hsv] need not give the hue back after a full turn.
    The color (0.5, 1/3, 0.2) has HSV hue 0.07407407407407396; after a
    full turn its hue is 0.07407407407407385, and after a quarter turn
    0.32407407407407385, where the sum reduced modulo 1.0 is
    0.32407407407407396. *)
Example add_hue_hsv_binary64_full_turn :
  hue_hsv (Color_init ColorPy.rgb
             (PyTuple [0x1p-1; 0x1.5555555555555p-2; 0x1.999999999999ap-3]))
  = Ok 0x1.2f684bda12f60p-4 /\
  add_hue_hsv (Color_init ColorPy.rgb
                 (PyTuple [0x1p-1; 0x1.5555555555555p-2;
                           0x1.999999999999ap-3])) 1
  = Ok {| space := ColorPy.hsv;
          coordinates :=
            PyList [0x1.2f684bda12f58p-4; 0x1.3333333333333p-1; 0x1p-1] |} /\
  (0x1.2f684bda12f58p-4 =? 0x1.2f684bda12f60p-4) = false /\
  add_hue_hsv (Color_init ColorPy.rgb
                 (PyTuple [0x1p-1; 0x1.5555555555555p-2;
                           0x1.999999999999ap-3])) 0x1p-2
  = Ok {| space := ColorPy.hsv;
          coordinates :=
            PyList [0x1.4bda12f684bd6p-2; 0x1.3333333333333p-1; 0x1p-1] |} /\
  py_mod (0x1.2f684bda12f60p-4 + 0x1p-2) 1 = Ok 0x1.4bda12f684bd8p-2.
Proof. repeat split; vm_compute; reflexivity. Qed.

End Binary64Facts.

(** * Further properties *)

(** ** gobo_hustler.py: an easer over several frames *)

Section EaserFrames.
Import GoboHustlerPy.
Local Open Scope Q_scope.




End EaserFrames.

(** ** gobo_hustler.py: what the banks yield *)

Section BankPatterns.
Import GoboHustlerPy.

(** The [j]-th item drawn from a cycle is the item [j] places further
    round the list. *)
Lemma cycle_take_lookup {A} (k : nat) (c c' : cycle A) (xs : list A) (j : nat) :
  (cycle_pos c < length (cycle_items c))%nat ->
  cycle_take k c = Ok (xs, c') -> (j < k)%nat ->
  xs !! j = cycle_items c !! ((cycle_pos c + j) mod length (cycle_items c))%nat.
Proof.
  revert c xs j. induction k as [|k IH]; intros c xs j Hpos Htake Hj; [lia|].
  cbn [cycle_take] in Htake. unfold cycle_next in Htake.
  destruct (lookup_lt_is_Some_2 _ _ Hpos) as [x Hx]. rewrite Hx in Htake.
  cbn [mbind result_bind] in Htake.
  set (c1 := {| cycle_items := cycle_items c;
                cycle_pos := S (cycle_pos c) mod length (cycle_items c) |})
    in *.
  destruct (cycle_take k c1) as [[ys c2]|e] eqn:Hrest; [|discriminate].
  cbn in Htake. injection Htake as <- <-.
  destruct j as [|j].
  - cbn. rewrite Nat.add_0_r, Nat.mod_small by exact Hpos. now rewrite Hx.
  - change ((x :: ys) !! S j) with (ys !! j).
    rewrite (IH c1 ys j); [| |exact Hrest|lia].
    2: { cbn. apply Nat.mod_upper_bound. lia. }
    cbn [cycle_items cycle_pos c1]. f_equal.
    rewrite Nat.Div0.add_mod_idemp_l. f_equal. lia.
Qed.

(** For [n >= 1] channels, the pattern drawn in place [j] is: all the
    channels for the bank [all]; the one channel [j mod n] for the bank
    [single]; the even channels for even [j] and the odd channels for odd
    [j] for the bank [two_value]. *)
Theorem create_banks_pattern_at (n k j : nat) (name : string)
    (c c' : cycle (list nat)) (patterns : list (list nat)) :
  (1 <= n)%nat -> (j < k)%nat ->
  create_banks n !! name = Some c ->
  cycle_take k c = Ok (patterns, c') ->
  (name = ALL -> patterns !! j = Some (seq 0 n)) /\
  (name = SINGLE -> patterns !! j = Some [j mod n]) /\
  (name = TWO_VALUE ->
     patterns !! j =
       Some (filter (fun i => i mod 2 = j mod 2) (seq 0 n))).
Proof.
  intros Hn Hj Hc Htake.
  split; [|split]; intros ->.
  - rewrite create_banks_all in Hc. injection Hc as <-.
    rewrite (cycle_take_lookup k (cycle_new [seq 0 n]) c' patterns j
               (ltac:(cbn; lia)) Htake Hj).
    cbn [cycle_new cycle_items cycle_pos length]. rewrite Nat.mod_1_r.
    reflexivity.
  - rewrite create_banks_single in Hc. injection Hc as <-.
    assert (Hpos : (cycle_pos (cycle_new ((fun i => [i]) <$> seq 0 n))
                    < length (cycle_items
                                (cycle_new ((fun i => [i]) <$> seq 0 n))))%nat).
    { cbn. rewrite length_fmap, length_seq. lia. }
    rewrite (cycle_take_lookup k _ c' patterns j Hpos Htake Hj).
    cbn [cycle_new cycle_items cycle_pos]. rewrite length_fmap, length_seq.
    rewrite list_lookup_fmap, Nat.add_0_l.
    rewrite lookup_seq_lt by (apply Nat.mod_upper_bound; lia).
    reflexivity.
  - rewrite create_banks_two_value in Hc. injection Hc as <-.
    rewrite (cycle_take_lookup k
               (cycle_new [filter (fun i => i mod 2 = 0) (seq 0 n);
                           filter (fun i => i mod 2 = 1) (seq 0 n)])
               c' patterns j (ltac:(cbn; lia)) Htake Hj).
    cbn [cycle_new cycle_items cycle_pos length]. rewrite Nat.add_0_l.
    assert (Hcase : (j mod 2 = 0 \/ j mod 2 = 1)%nat).
    { pose proof (Nat.mod_upper_bound j 2). lia. }
    destruct Hcase as [-> | ->]; reflexivity.
Qed.

Lemma create_banks_pattern_at_witness :
  (1 <= 3)%nat /\ (4 < 6)%nat /\
  exists c c' patterns,
    create_banks 3 !! SINGLE = Some c /\
    cycle_take 6 c = Ok (patterns, c') /\
    patterns !! 4%nat = Some [4 mod 3]%nat.
Proof.
  split; [lia | split; [lia|]].
  exists (cycle_new ((fun i => [i]) <$> seq 0 3)).
  destruct (cycle_take 6 (cycle_new ((fun i => [i]) <$> seq 0 3)))
    as [[patterns c']|e] eqn:Htake; [|discriminate Htake].
  exists c', patterns. split; [reflexivity | split; [reflexivity|]].
  destruct (create_banks_pattern_at 3 6 4 SINGLE
              (cycle_new ((fun i => [i]) <$> seq 0 3)) c' patterns)
    as (_ & Hsingle & _); [lia | lia | reflexivity | exact Htake |].
  exact (Hsingle eq_refl).
Defined.

(** The two subsets of the bank [two_value] split the channels: taken
    together they are the channels [0 .. n-1], each one once. *)
Theorem create_banks_two_value_partition (n : nat) :
  exists evens odds,
    create_banks n !! TWO_VALUE = Some (cycle_new [evens; odds]) /\
    evens ++ odds ≡ₚ seq 0 n /\
    (forall i, i ∈ evens -> Nat.Even i) /\
    (forall i, i ∈ odds -> Nat.Odd i).
Proof.
  exists (filter (fun i => i mod 2 = 0) (seq 0 n)),
         (filter (fun i => i mod 2 = 1) (seq 0 n)).
  split; [apply create_banks_two_value|]. split; [|split].
  - apply NoDup_Permutation.
    + apply NoDup_app. split; [apply NoDup_filter, NoDup_seq|].
      split; [|apply NoDup_filter, NoDup_seq].
      intros i Hi Hi'. apply list_elem_of_filter in Hi as [Hi _].
      apply list_elem_of_filter in Hi' as [Hi' _]. lia.
    + apply NoDup_seq.
    + intros i. rewrite elem_of_app, !list_elem_of_filter. split.
      * intros [[_ H]|[_ H]]; exact H.
      * intros H. pose proof (Nat.mod_upper_bound i 2).
        destruct (Nat.eq_dec (i mod 2) 0); [left|right]; split; trivial; lia.
  - intros i Hi. apply list_elem_of_filter in Hi as [Hi _].
    exists (i / 2)%nat. pose proof (Nat.div_mod_eq i 2). lia.
  - intros i Hi. apply list_elem_of_filter in Hi as [Hi _].
    exists (i / 2)%nat. pose proof (Nat.div_mod_eq i 2). lia.
Qed.

End BankPatterns.

(** ** gobo_hustler.py: validating a sequence *)

Section ValidateFacts.
Import GoboHustlerPy.

Lemma comprehension_Forall2 {A B} (f : A -> result B) (l : list A)
    (vs : list B) :
  comprehension f l = Ok vs <-> Forall2 (fun a v => f a = Ok v) l vs.
Proof.
  revert vs. induction l as [|a l IH]; intros vs; cbn [comprehension].
  - split.
    + intros [= <-]. constructor.
    + intros H. inversion H. reflexivity.
  - split.
    + destruct (f a) as [v|e] eqn:Hv; [|discriminate]. cbn [mbind result_bind].
      destruct (comprehension f l) as [ws|e] eqn:Hws; [|discriminate].
      cbn. intros [= <-]. constructor; [exact Hv|]. apply IH. reflexivity.
    + intros H. inversion H as [|? v ? ws Hv Hws]; subst.
      rewrite Hv. cbn [mbind result_bind].
      apply IH in Hws. rewrite Hws. reflexivity.
Qed.

(** [validate_iterable] returns exactly when there is at least one item
    and the subvalidator accepts every item; what it returns is the list
    of the subvalidator's results, in order, so never an empty list.  An
    item that the subvalidator rejects makes the call raise that
    exception. *)
Theorem validate_iterable_accepts {A B} (subvalidator : A -> result B)
    (items : list A) (values : list B) :
  (validate_iterable subvalidator items = Ok values <->
     items <> [] /\
     Forall2 (fun i v => subvalidator i = Ok v) items values) /\
  (validate_iterable subvalidator items = Ok values -> values <> []) /\
  (forall i e, i ∈ items -> subvalidator i = Raise e ->
     exists e', validate_iterable subvalidator items = Raise e').
Proof.
  unfold validate_iterable. split; [|split].
  - split.
    + destruct (comprehension subvalidator items) as [vs|e] eqn:Hvs;
        [|discriminate].
      cbn [mbind result_bind]. destruct vs as [|v vs]; [discriminate|].
      intros [= <-]. apply comprehension_Forall2 in Hvs.
      split; [|exact Hvs]. intros ->. inversion Hvs.
    + intros [Hne H]. pose proof H as H'.
      apply comprehension_Forall2 in H'. rewrite H'. cbn [mbind result_bind].
      destruct values as [|v vs]; [|reflexivity].
      inversion H. congruence.
  - destruct (comprehension subvalidator items) as [vs|e]; [|discriminate].
    cbn [mbind result_bind]. destruct vs; [discriminate|].
    intros [= <-]. discriminate.
  - intros i e Hi He.
    destruct (comprehension subvalidator items) as [vs|e'] eqn:Hvs.
    + exfalso. apply comprehension_Forall2 in Hvs.
      apply list_elem_of_lookup_1 in Hi as [n Hn].
      destruct (Forall2_lookup_l _ _ _ _ _ Hvs Hn) as (v & _ & Hv).
      congruence.
    + exists e'. reflexivity.
Qed.

End ValidateFacts.

(** ** gobo_rotator.py: several fixtures on one buffer *)

Section RenderCompose.
Import GoboRotatorPy.
Local Open Scope Q_scope.
Context {clamp_lib : ClampLib}.

(** With its four channels inside the buffer, [render] is four updates
    in place. *)
Lemma render_in_range (self : GoboSpinna) (buf : list Z) :
  (0 <= address self)%Z -> (address self + 3 < Z.of_nat (length buf))%Z ->
  render self buf =
    (Ok tt,
     <[Z.to_nat (address self + 3) := (_render_single (g1 self)).2]>
       (<[Z.to_nat (address self + 2) := (_render_single (g1 self)).1]>
          (<[Z.to_nat (address self + 1) := (_render_single (g0 self)).2]>
             (<[Z.to_nat (address self) := (_render_single (g0 self)).1]>
                buf)))).
Proof.
  intros Hlo Hhi. unfold render.
  destruct (_render_single (g0 self)) as [d0 s0].
  destruct (_render_single (g1 self)) as [d1 s1].
  unfold mbind, bufM_bind, buf_store, py_setitem. cbn [fst snd].
  rewrite py_index_in_range by lia. cbn match.
  rewrite length_insert, py_index_in_range by lia. cbn match.
  rewrite !length_insert, py_index_in_range by lia. cbn match.
  rewrite !length_insert, py_index_in_range by lia. reflexivity.
Qed.

Lemma insert_past_four (l : list Z) (i j0 j1 j2 j3 : nat) (x y0 y1 y2 y3 : Z) :
  i <> j0 -> i <> j1 -> i <> j2 -> i <> j3 ->
  <[i := x]> (<[j3 := y3]> (<[j2 := y2]> (<[j1 := y1]> (<[j0 := y0]> l))))
  = <[j3 := y3]> (<[j2 := y2]> (<[j1 := y1]> (<[j0 := y0]> (<[i := x]> l)))).
Proof.
  intros H0 H1 H2 H3.
  rewrite (list_insert_insert_ne _ i j3) by assumption. f_equal.
  rewrite (list_insert_insert_ne _ i j2) by assumption. f_equal.
  rewrite (list_insert_insert_ne _ i j1) by assumption. f_equal.
  apply list_insert_insert_ne. assumption.
Qed.

Lemma four_inserts_lookup (l : list Z) (i : nat) (y0 y1 y2 y3 : Z) :
  (i + 3 < length l)%nat ->
  let l' := <[(i + 3)%nat := y3]>
              (<[(i + 2)%nat := y2]> (<[(i + 1)%nat := y1]> (<[i := y0]> l))) in
  l' !! i = Some y0 /\ l' !! (i + 1)%nat = Some y1 /\
  l' !! (i + 2)%nat = Some y2 /\ l' !! (i + 3)%nat = Some y3.
Proof.
  intros Hi. cbv zeta. repeat split.
  - rewrite !list_lookup_insert_ne by lia. apply list_lookup_insert_eq. lia.
  - rewrite !list_lookup_insert_ne by lia.
    apply list_lookup_insert_eq. rewrite !length_insert. lia.
  - rewrite !list_lookup_insert_ne by lia.
    apply list_lookup_insert_eq. rewrite !length_insert. lia.
  - apply list_lookup_insert_eq. rewrite !length_insert. lia.
Qed.

(** Two fixtures whose channel ranges are inside the buffer and do not
    overlap can be rendered in either order: both calls return and the
    buffer is the same.  Rendering a fixture a second time changes
    nothing. *)
Theorem render_disjoint_commute (a b : GoboSpinna) (buf : list Z) :
  (0 <= address a)%Z -> (address a + 3 < Z.of_nat (length buf))%Z ->
  (0 <= address b)%Z -> (address b + 3 < Z.of_nat (length buf))%Z ->
  (address a + 3 < address b \/ address b + 3 < address a)%Z ->
  (render a buf).1 = Ok tt /\
  (render b (render a buf).2).1 = Ok tt /\
  (render b (render a buf).2).2 = (render a (render b buf).2).2 /\
  (render a (render a buf).2).2 = (render a buf).2.
Proof.
  intros Ha0 Ha3 Hb0 Hb3 Hdisj.
  rewrite (render_in_range a buf Ha0 Ha3). cbn [fst snd].
  split; [reflexivity|].
  rewrite (render_in_range b buf Hb0 Hb3). cbn [fst snd].
  rewrite !render_in_range by (rewrite ?length_insert; assumption).
  cbn [fst snd]. split; [reflexivity|].
  replace (Z.to_nat (address a + 1)) with (Z.to_nat (address a) + 1)%nat by lia.
  replace (Z.to_nat (address a + 2)) with (Z.to_nat (address a) + 2)%nat by lia.
  replace (Z.to_nat (address a + 3)) with (Z.to_nat (address a) + 3)%nat by lia.
  replace (Z.to_nat (address b + 1)) with (Z.to_nat (address b) + 1)%nat by lia.
  replace (Z.to_nat (address b + 2)) with (Z.to_nat (address b) + 2)%nat by lia.
  replace (Z.to_nat (address b + 3)) with (Z.to_nat (address b) + 3)%nat by lia.
  assert (Hia : (Z.to_nat (address a) + 3 < length buf)%nat) by lia.
  assert (Hib : (Z.to_nat (address b) + 3 < length buf)%nat) by lia.
  assert (Hd : (Z.to_nat (address a) + 3 < Z.to_nat (address b)
                \/ Z.to_nat (address b) + 3 < Z.to_nat (address a))%nat) by lia.
  set (i := Z.to_nat (address a)) in *. set (j := Z.to_nat (address b)) in *.
  clearbody i j.
  destruct (_render_single (g0 a)) as [x0 x1].
  destruct (_render_single (g1 a)) as [x2 x3].
  destruct (_render_single (g0 b)) as [y0 y1].
  destruct (_render_single (g1 b)) as [y2 y3].
  cbn [fst snd]. split.
  - symmetry.
    rewrite (insert_past_four buf i j (j + 1) (j + 2) (j + 3)) by lia.
    rewrite (insert_past_four _ (i + 1) j (j + 1) (j + 2) (j + 3)) by lia.
    rewrite (insert_past_four _ (i + 2) j (j + 1) (j + 2) (j + 3)) by lia.
    rewrite (insert_past_four _ (i + 3) j (j + 1) (j + 2) (j + 3)) by lia.
    reflexivity.
  - destruct (four_inserts_lookup buf i x0 x1 x2 x3 Hia)
      as (H0 & H1 & H2 & H3).
    rewrite (list_insert_id _ _ _ H0), (list_insert_id _ _ _ H1),
      (list_insert_id _ _ _ H2), (list_insert_id _ _ _ H3).
    reflexivity.
Qed.

End RenderCompose.

Section RenderComposeExamples.
Import GoboRotatorPy Instances.
Local Open Scope Q_scope.

Lemma render_disjoint_commute_witness :
  (render {| address := 4; g0 := 1; g1 := - (1 # 2) |}
     (render {| address := 0; g0 := 1 # 3; g1 := 2 |}
        [9; 9; 9; 9; 9; 9; 9; 9; 9]%Z).2).2
  = (render {| address := 0; g0 := 1 # 3; g1 := 2 |}
       (render {| address := 4; g0 := 1; g1 := - (1 # 2) |}
          [9; 9; 9; 9; 9; 9; 9; 9; 9]%Z).2).2.
Proof.
  destruct (render_disjoint_commute
              {| address := 0; g0 := 1 # 3; g1 := 2 |}
              {| address := 4; g0 := 1; g1 := - (1 # 2) |}
              [9; 9; 9; 9; 9; 9; 9; 9; 9]%Z) as (_ & _ & Hsame & _);
    [cbn [address length]; lia .. | exact Hsame].
Defined.

End RenderComposeExamples.

(** ** gobo_rotator.py: nearest value, on any list *)

Section ClosestAnyList.
Import GoboRotatorPy.
Local Open Scope Q_scope.

(** The binary search stays between its bounds, sorted list or not. *)
Lemma bisect_loop_range (fuel : nat) (a : list Q) (x : Q) (lo hi : nat) :
  (lo <= hi)%nat -> (lo <= bisect_loop fuel a x lo hi <= hi)%nat.
Proof.
  revert lo hi. induction fuel as [|fuel IH]; intros lo hi Hb;
    cbn [bisect_loop]; [lia|].
  destruct (Nat.ltb_spec lo hi) as [Hlt|Hge]; [|lia].
  assert (Hmid : (lo <= (lo + hi) / 2 < hi)%nat).
  { split.
    - apply Nat.div_le_lower_bound; lia.
    - apply Nat.Div0.div_lt_upper_bound; lia. }
  destruct (a !! ((lo + hi) / 2)%nat) as [am|]; [|lia].
  destruct (Qltb am x).
  - specialize (IH (S ((lo + hi) / 2)) hi). lia.
  - specialize (IH lo ((lo + hi) / 2)%nat). lia.
Qed.

(** Whatever the order of the list, [take_closest] raises IndexError on
    the empty list and only there, and what it returns is an element of
    the list. *)
Theorem take_closest_member (myList : list Q) (myNumber : Q) :
  (myList = [] -> take_closest myList myNumber = Raise IndexError) /\
  (myList <> [] ->
     exists r, take_closest myList myNumber = Ok r /\ r ∈ myList).
Proof.
  split; [intros ->; reflexivity|]. intros Hne.
  assert (Hlen0 : (0 < length myList)%nat).
  { destruct myList; [congruence | cbn; lia]. }
  pose proof (bisect_loop_range (length myList) myList myNumber 0
                (length myList) ltac:(lia)) as Hpos.
  unfold take_closest, bisect_left.
  set (pos := bisect_loop _ _ _ _ _) in *. clearbody pos.
  destruct (Nat.eqb_spec pos 0) as [Hpos0|Hpos0].
  { destruct (lookup_lt_is_Some_2 myList 0) as [r Hr]; [lia|].
    exists r. split; [exact (py_getitem_nat myList 0 r Hr)|].
    eapply list_elem_of_lookup_2. exact Hr. }
  destruct (Nat.eqb_spec pos (length myList)) as [Hposn|Hposn].
  { destruct (lookup_lt_is_Some_2 myList (length myList - 1)) as [r Hr];
      [lia|].
    exists r. split; [exact (py_getitem_last myList r Hr)|].
    eapply list_elem_of_lookup_2. exact Hr. }
  destruct (lookup_lt_is_Some_2 myList (pos - 1)) as [before Hbefore]; [lia|].
  destruct (lookup_lt_is_Some_2 myList pos) as [after Hafter]; [lia|].
  replace (Z.of_nat pos - 1)%Z with (Z.of_nat (pos - 1)) by lia.
  rewrite (py_getitem_nat _ _ _ Hbefore), (py_getitem_nat _ _ _ Hafter).
  cbn [mbind result_bind].
  destruct (Qltb (after - myNumber) (myNumber - before)).
  - exists after. split; [reflexivity|].
    eapply list_elem_of_lookup_2. exact Hafter.
  - exists before. split; [reflexivity|].
    eapply list_elem_of_lookup_2. exact Hbefore.
Qed.

End ClosestAnyList.

(** ** gobo_rotator.py: more on the calibration table *)

Section LutMore.
Import GoboRotatorPy.
Local Open Scope Q_scope.

(** The entry of a code, given the segment the code falls in. *)
Lemma build_lut_entries (meas : list (Z * Q)) (first last_ : Z)
    (s_first s_last : Q) :
  (2 <= length meas)%nat -> Sorted Z.lt meas.*1 ->
  meas !! 0%nat = Some (first, s_first) ->
  last meas = Some (last_, s_last) ->
  exists table,
    build_lut meas = Ok table /\
    length table = Z.to_nat (last_ - first + 1) /\
    forall code i xi si xj sj,
      (first <= code <= last_)%Z ->
      meas !! i = Some (xi, si) -> meas !! S i = Some (xj, sj) ->
      (xi <= code)%Z ->
      ((code < xj)%Z \/ (code = xj /\ S (S i) = length meas)) ->
      table !! Z.to_nat (code - first) =
        Some (si + inject_Z (code - xi) * ((sj - si) / inject_Z (xj - xi)),
              code).
Proof.
  intros Hlen Hsorted Hfirst Hlast.
  pose proof (Sorted_increasing meas Hsorted) as Hinc.
  destruct (slopes_ok meas Hsorted) as (ds_dx & Hcomp & Hdlen & Hslope).
  destruct meas as [|[x0 s0] [|[x1 s1] rest]]; try (cbn in Hlen; lia).
  cbn in Hfirst. injection Hfirst as <- <-.
  set (meas := (x0, s0) :: (x1, s1) :: rest) in *.
  assert (Hd0 : ds_dx !! 0%nat = Some ((s1 - s0) / inject_Z (x1 - x0))).
  { apply (Hslope 0%nat x0 s0 x1 s1); reflexivity. }
  set (d0 := (s1 - s0) / inject_Z (x1 - x0)) in *.
  set (g := fun value : Z =>
              let '(bx, bs, bd) :=
                find_base value (zip3 meas.*1 meas.*2 ds_dx) (x0, s0, d0) in
              (bs + inject_Z (value - bx) * bd, value)).
  assert (Hlastx : py_getitem meas.*1 (-1) = Ok last_).
  { apply py_getitem_last. rewrite list_lookup_fmap, length_fmap.
    rewrite last_lookup in Hlast.
    replace (length meas - 1)%nat with (pred (length meas)) by lia.
    rewrite Hlast. reflexivity. }
  exists (g <$> seqZ x0 (last_ + 1 - x0)).
  split; [|split].
  - unfold build_lut. fold meas. rewrite Hcomp. cbn [mbind result_bind].
    rewrite Hlastx.
    change (py_getitem meas.*1 0) with (Ok (A := Z) x0).
    cbn [mbind result_bind].
    apply comprehension_ok. intros value _.
    change (py_getitem meas.*2 0) with (Ok (A := Q) s0).
    cbn [mbind result_bind].
    assert (Hg0 : py_getitem ds_dx 0 = Ok d0)
      by exact (py_getitem_nat ds_dx 0 d0 Hd0).
    rewrite Hg0. cbn [mbind result_bind].
    unfold g. destruct (find_base _ _ _) as [[bx bs] bd]. reflexivity.
  - rewrite length_fmap, length_seqZ. f_equal. lia.
  - intros code i xi si xj sj Hcode Hi Hj Hle Hcase.
    rewrite list_lookup_fmap, lookup_seqZ_lt by lia.
    replace (x0 + Z.of_nat (Z.to_nat (code - x0)))%Z with code by lia.
    cbn [fmap option_fmap option_map]. unfold g.
    rewrite (find_base_spec code _ (x0, s0, d0) i
               (xi, si, (sj - si) / inject_Z (xj - xi))); [reflexivity| | |].
    + rewrite zip3_lookup, !list_lookup_fmap, Hi.
      rewrite (Hslope i xi si xj sj Hi Hj). reflexivity.
    + intros j x s d Hji Hl. rewrite zip3_lookup, !list_lookup_fmap in Hl.
      destruct (meas !! j) as [[xj' sj']|] eqn:Hmj; [|discriminate].
      cbn in Hl. destruct (ds_dx !! j); [|discriminate].
      cbn in Hl. injection Hl as <- _ _.
      destruct (Nat.eq_dec j i) as [->|Hne].
      * rewrite Hi in Hmj. injection Hmj as <- _. exact Hle.
      * assert ((xj' < xi)%Z); [|lia].
        apply (Hinc j i _ sj' _ si); [lia|exact Hmj|exact Hi].
    + intros x s d Hl. rewrite zip3_lookup, !list_lookup_fmap in Hl.
      destruct (meas !! S i) as [[x' s']|] eqn:Hmj; [|discriminate].
      cbn in Hl. destruct (ds_dx !! S i) eqn:Hds; [|discriminate].
      cbn in Hl. injection Hl as <- _ _.
      injection Hj as <- <-.
      destruct Hcase as [Hc|[Hc Hl]]; [exact Hc|].
      apply lookup_lt_Some in Hds. lia.
Qed.

Lemma inject_Z_pos (d : Z) : (0 < d)%Z -> 0 < inject_Z d.
Proof. intros H. change 0 with (inject_Z 0). rewrite <- Zlt_Qlt. exact H. Qed.

(** On a segment that rises, the line stays between its two ends and
    rises with the code. *)
Lemma segment_line (xi xj c c' : Z) (si sj : Q) :
  (xi < xj)%Z -> si <= sj -> (xi <= c)%Z -> (c <= c')%Z -> (c' <= xj)%Z ->
  let line := fun code : Z =>
    si + inject_Z (code - xi) * ((sj - si) / inject_Z (xj - xi)) in
  si <= line c /\ line c <= line c' /\ line c' <= sj.
Proof.
  intros Hx Hs Hc Hcc Hc'. cbv beta zeta.
  pose proof (inject_Z_pos (xj - xi) ltac:(lia)) as HD.
  assert (Hslope : 0 <= (sj - si) / inject_Z (xj - xi)).
  { apply Qle_shift_div_l; [exact HD|]. lra. }
  assert (Hfull : inject_Z (xj - xi) * ((sj - si) / inject_Z (xj - xi))
                  == sj - si).
  { field. intros Hz. rewrite Hz in HD. lra. }
  assert (H0 : 0 <= inject_Z (c - xi)).
  { change 0 with (inject_Z 0). rewrite <- Zle_Qle. lia. }
  assert (H1 : inject_Z (c - xi) <= inject_Z (c' - xi)).
  { rewrite <- Zle_Qle. lia. }
  assert (H2 : inject_Z (c' - xi) <= inject_Z (xj - xi)).
  { rewrite <- Zle_Qle. lia. }
  set (slope := (sj - si) / inject_Z (xj - xi)) in *.
  set (t := inject_Z (c - xi)) in *. set (t' := inject_Z (c' - xi)) in *.
  set (D := inject_Z (xj - xi)) in *. clearbody slope t t' D.
  assert (P0 : 0 <= t * slope) by (apply Qmult_le_0_compat; lra).
  assert (P1 : 0 <= (t' - t) * slope) by (apply Qmult_le_0_compat; lra).
  assert (P2 : 0 <= (D - t') * slope) by (apply Qmult_le_0_compat; lra).
  repeat split; lra.
Qed.

(** In exact arithmetic the table goes through the measurements: at the
    code of every sample, also the last one, the entry is the measured
    value.  (On doubles the entry of the last sample is computed from
    the sample before it and the slope, and is rounded.) *)
Theorem build_lut_through_samples (meas : list (Z * Q)) (first last_ : Z)
    (s_first s_last : Q) :
  (2 <= length meas)%nat -> Sorted Z.lt meas.*1 ->
  meas !! 0%nat = Some (first, s_first) ->
  last meas = Some (last_, s_last) ->
  exists table,
    build_lut meas = Ok table /\
    forall i xi si, meas !! i = Some (xi, si) ->
      exists speed,
        table !! Z.to_nat (xi - first) = Some (speed, xi) /\ speed == si.
Proof.
  intros Hlen Hsorted Hfirst Hlast.
  pose proof (Sorted_increasing meas Hsorted) as Hinc.
  destruct (build_lut_entries meas first last_ s_first s_last
              Hlen Hsorted Hfirst Hlast) as (table & Htable & _ & Hentry).
  exists table. split; [exact Htable|].
  intros i xi si Hi.
  rewrite last_lookup in Hlast.
  assert (Hrange : (first <= xi <= last_)%Z).
  { split.
    - destruct i as [|i]; [rewrite Hfirst in Hi; injection Hi; lia|].
      pose proof (Hinc 0%nat (S i) _ _ _ _ ltac:(lia) Hfirst Hi). lia.
    - pose proof (lookup_lt_Some _ _ _ Hi) as Hlt.
      destruct (Nat.eq_dec i (pred (length meas))) as [->|Hne].
      + rewrite Hlast in Hi. injection Hi; lia.
      + pose proof (Hinc i (pred (length meas)) _ _ _ _ ltac:(lia) Hi Hlast).
        lia. }
  pose proof (lookup_lt_Some _ _ _ Hi) as Hlt.
  destruct (Nat.eq_dec (S i) (length meas)) as [Hend|Hmid].
  - (* the last sample: on the last segment *)
    destruct i as [|i]; [lia|].
    destruct (lookup_lt_is_Some_2 meas i) as [[xp sp] Hp]; [lia|].
    pose proof (Hinc i (S i) _ _ _ _ ltac:(lia) Hp Hi) as Hxp.
    eexists. split.
    + apply (Hentry xi i xp sp xi si Hrange Hp Hi); [lia|].
      right. split; [reflexivity|lia].
    + pose proof (inject_Z_pos (xi - xp) ltac:(lia)) as HD.
      field. intros Hz. rewrite Hz in HD. lra.
  - destruct (lookup_lt_is_Some_2 meas (S i)) as [[xj sj] Hj]; [lia|].
    pose proof (Hinc i (S i) _ _ _ _ ltac:(lia) Hi Hj) as Hx.
    eexists. split.
    + apply (Hentry xi i xi si xj sj Hrange Hi Hj); [lia|]. left. exact Hx.
    + replace (xi - xi)%Z with 0%Z by lia. change (inject_Z 0) with 0. ring.
Qed.

Lemma build_lut_through_samples_witness :
  (2 <= length [(128, 479 # 100000); (137, 1 # 100); (255, 43 # 100)]%Z)%nat /\
  exists table speed,
    build_lut [(128, 479 # 100000); (137, 1 # 100); (255, 43 # 100)]%Z
      = Ok table /\
    table !! Z.to_nat (137 - 128) = Some (speed, 137%Z) /\ speed == 1 # 100.
Proof.
  split; [cbn; lia|].
  destruct (build_lut_through_samples
              [(128, 479 # 100000); (137, 1 # 100); (255, 43 # 100)]%Z
              128%Z 255%Z (479 # 100000) (43 # 100))
    as (table & Htable & Hat);
    [cbn; lia | repeat constructor | reflexivity | reflexivity |].
  destruct (Hat 1%nat 137%Z (1 # 100) eq_refl) as (speed & Hspeed & Heq).
  exists table, speed. repeat split; assumption.
Defined.


Lemma adjacent_Sorted (l : list Q) :
  (forall k a b, l !! k = Some a -> l !! S k = Some b -> a <= b) ->
  Sorted Qle l.
Proof.
  induction l as [|a l IH]; intros Hadj; [constructor|].
  constructor.
  - apply IH. intros k x y Hx Hy. apply (Hadj (S k)); assumption.
  - destruct l as [|b l]; constructor.
    apply (Hadj 0%nat); reflexivity.
Qed.

(** When the measured values do not decrease from one sample to the
    next, the values of the table do not decrease from one code to the
    next: the first column of the table is sorted, which is what
    [take_closest] assumes of its list. *)
Theorem build_lut_sorted (meas : list (Z * Q)) (first last_ : Z)
    (s_first s_last : Q) :
  (2 <= length meas)%nat -> Sorted Z.lt meas.*1 -> Sorted Qle meas.*2 ->
  meas !! 0%nat = Some (first, s_first) ->
  last meas = Some (last_, s_last) ->
  exists table, build_lut meas = Ok table /\ Sorted Qle table.*1.
Proof.
  intros Hlen Hsorted Hvalues Hfirst Hlast.
  pose proof (Sorted_increasing meas Hsorted) as Hinc.
  pose proof (Sorted_ascending _ Hvalues) as Hasc.
  assert (Hrise : forall i xi si xj sj,
             meas !! i = Some (xi, si) -> meas !! S i = Some (xj, sj) ->
             si <= sj).
  { intros i xi si xj sj Hi Hj. apply (Hasc i (S i)); [lia| |].
    - rewrite list_lookup_fmap, Hi. reflexivity.
    - rewrite list_lookup_fmap, Hj. reflexivity. }
  destruct (build_lut_entries meas first last_ s_first s_last
              Hlen Hsorted Hfirst Hlast) as (table & Htable & Htlen & Hentry).
  exists table. split; [exact Htable|].
  apply adjacent_Sorted. intros k a b Ha Hb.
  rewrite list_lookup_fmap in Ha, Hb.
  destruct (table !! k) as [[a' ca]|] eqn:Hka; [|discriminate].
  destruct (table !! S k) as [[b' cb]|] eqn:Hkb; [|discriminate].
  cbn in Ha, Hb. injection Ha as ->. injection Hb as ->.
  pose proof (lookup_lt_Some _ _ _ Hkb) as Hk. rewrite Htlen in Hk.
  set (code := (first + Z.of_nat k)%Z).
  assert (Hcode : (first <= code /\ code + 1 <= last_)%Z) by (unfold code; lia).
  destruct (segment_exists meas first last_ code s_first s_last
              Hinc Hlen Hfirst Hlast ltac:(lia))
    as (i & xi & si & xj & sj & Hi & Hj & Hle & Hcase).
  pose proof (Hinc i (S i) _ _ _ _ ltac:(lia) Hi Hj) as Hx.
  pose proof (Hrise i xi si xj sj Hi Hj) as Hs.
  assert (Hlt : (code < xj)%Z).
  { destruct Hcase as [H|[H Hend]]; [exact H|]. exfalso.
    rewrite last_lookup in Hlast.
    replace (pred (length meas)) with (S i) in Hlast by lia.
    rewrite Hj in Hlast. injection Hlast as <- _. lia. }
  pose proof (Hentry code i xi si xj sj ltac:(lia) Hi Hj Hle (or_introl Hlt))
    as Ea.
  replace (Z.to_nat (code - first)) with k in Ea by (unfold code; lia).
  rewrite Hka in Ea. injection Ea as -> _.
  destruct (Z.eq_dec (code + 1)%Z xj) as [Hnext|Hnext].
  - (* the next code is the code of the next sample *)
    destruct (segment_line xi xj code code si sj Hx Hs Hle ltac:(lia)
                ltac:(lia)) as (_ & _ & Hup).
    cbv beta in Hup.
    destruct (Nat.eq_dec (S (S i)) (length meas)) as [Hend|Hmid].
    + pose proof (Hentry (code + 1)%Z i xi si xj sj ltac:(lia) Hi Hj
                    ltac:(lia) (or_intror (conj Hnext Hend))) as Eb.
      replace (Z.to_nat (code + 1 - first)) with (S k) in Eb
        by (unfold code; lia).
      rewrite Hkb in Eb. injection Eb as -> _.
      destruct (segment_line xi xj code (code + 1) si sj Hx Hs Hle
                  ltac:(lia) ltac:(lia)) as (_ & Hstep & _).
      exact Hstep.
    + pose proof (lookup_lt_Some _ _ _ Hj) as HSi.
      destruct (lookup_lt_is_Some_2 meas (S (S i))) as [[xk sk] Hk']; [lia|].
      pose proof (Hinc (S i) (S (S i)) _ _ _ _ ltac:(lia) Hj Hk') as Hxk.
      assert (Hr1 : (first <= code + 1 <= last_)%Z) by lia.
      assert (Hr2 : (xj <= code + 1)%Z) by lia.
      assert (Hr3 : (code + 1 < xk)%Z) by lia.
      pose proof (Hentry (code + 1)%Z (S i) xj sj xk sk Hr1 Hj Hk'
                    Hr2 (or_introl Hr3)) as Eb.
      replace (Z.to_nat (code + 1 - first)) with (S k) in Eb
        by (unfold code; lia).
      rewrite Hkb in Eb. injection Eb as -> _.
      replace (code + 1 - xj)%Z with 0%Z by lia. change (inject_Z 0) with 0.
      lra.
  - assert (Hr1 : (first <= code + 1 <= last_)%Z) by lia.
    assert (Hr2 : (xi <= code + 1)%Z) by lia.
    assert (Hr3 : (code + 1 < xj)%Z) by lia.
    pose proof (Hentry (code + 1)%Z i xi si xj sj Hr1 Hi Hj
                  Hr2 (or_introl Hr3)) as Eb.
    replace (Z.to_nat (code + 1 - first)) with (S k) in Eb
      by (unfold code; lia).
    rewrite Hkb in Eb. injection Eb as -> _.
    destruct (segment_line xi xj code (code + 1) si sj Hx Hs Hle
                ltac:(lia) ltac:(lia)) as (_ & Hstep & _).
    exact Hstep.
Qed.

Lemma build_lut_sorted_witness :
  (2 <= length [(128, 479 # 100000); (137, 1 # 100); (255, 43 # 100)]%Z)%nat /\
  exists table,
    build_lut [(128, 479 # 100000); (137, 1 # 100); (255, 43 # 100)]%Z
      = Ok table /\
    Sorted Qle table.*1.
Proof.
  split; [cbn; lia|].
  apply (build_lut_sorted
           [(128, 479 # 100000); (137, 1 # 100); (255, 43 # 100)]%Z
           128%Z 255%Z (479 # 100000) (43 # 100));
    [cbn; lia | repeat constructor | | reflexivity | reflexivity].
  repeat constructor; discriminate.
Defined.

Lemma comprehension_raises {A B} (f : A -> result B) (l : list A)
    (a : A) (e : exn) :
  (forall a' e', f a' = Raise e' -> e' = e) ->
  a ∈ l -> f a = Raise e -> comprehension f l = Raise e.
Proof.
  intros Honly Hin Ha. induction l as [|b l IH]; [inversion Hin|].
  cbn [comprehension]. destruct (f b) as [v|e'] eqn:Hb.
  - cbn [mbind result_bind]. rewrite IH; [reflexivity|].
    apply elem_of_cons in Hin as [->|Hin]; [congruence|exact Hin].
  - cbn. f_equal. eapply Honly. exact Hb.
Qed.

Lemma delta_lookup {A} (sub : A -> A -> A) (vals : list A) (i : nat) (l h : A) :
  vals !! i = Some l -> vals !! S i = Some h ->
  delta sub vals !! i = Some (sub h l).
Proof.
  intros Hl Hh. unfold delta. rewrite lookup_zip_with, Hl. cbn.
  rewrite lookup_tail, Hh. reflexivity.
Qed.

(** What [build_lut] does outside its precondition.  No sample, or a
    single one: IndexError.  Two neighbouring samples with the same code:
    ZeroDivisionError.  Codes that end below where they start, no two
    neighbours equal: an empty table, and no exception. *)
Theorem build_lut_outside_precondition :
  build_lut [] = Raise IndexError /\
  (forall m, build_lut [m] = Raise IndexError) /\
  (forall meas i x si sj,
     meas !! i = Some (x, si) -> meas !! S i = Some (x, sj) ->
     build_lut meas = Raise ZeroDivisionError) /\
  (forall meas first last_ s_first s_last,
     meas !! 0%nat = Some (first, s_first) ->
     last meas = Some (last_, s_last) ->
     (last_ < first)%Z ->
     (forall i xi si xj sj,
        meas !! i = Some (xi, si) -> meas !! S i = Some (xj, sj) -> xi <> xj) ->
     build_lut meas = Ok []).
Proof.
  split; [reflexivity|]. split; [|split].
  - intros [x s]. unfold build_lut. cbn [fmap list_fmap fst snd delta tail
      zip_with comprehension mbind result_bind].
    change (py_getitem [x] 0) with (Ok (A := Z) x).
    change (py_getitem [x] (-1)) with (Ok (A := Z) x).
    cbn [mbind result_bind].
    replace (x + 1 - x)%Z with 1%Z by lia. reflexivity.
  - intros meas i x si sj Hi Hj. unfold build_lut.
    rewrite (comprehension_raises _ _ (sj - si, (x - x)%Z) ZeroDivisionError);
      [reflexivity | | |].
    + intros [ds dx] e'. unfold py_div.
      destruct (Qeq_bool (inject_Z dx) 0); [congruence|discriminate].
    + eapply list_elem_of_lookup_2 with (i := i).
      apply lookup_zip_Some. split.
      * apply delta_lookup; rewrite list_lookup_fmap;
          [rewrite Hi | rewrite Hj]; reflexivity.
      * apply delta_lookup; rewrite list_lookup_fmap;
          [rewrite Hi | rewrite Hj]; reflexivity.
    + replace (x - x)%Z with 0%Z by lia. reflexivity.
  - intros meas first last_ s_first s_last Hfirst Hlast Hlt Hne.
    unfold build_lut.
    rewrite (comprehension_ok _ (fun '(ds, dx) => ds / inject_Z dx)).
    + cbn [mbind result_bind].
      rewrite (py_getitem_nat meas.*1 0 first)
        by (rewrite list_lookup_fmap, Hfirst; reflexivity).
      cbn [mbind result_bind].
      rewrite (py_getitem_last meas.*1 last_).
      2: { rewrite list_lookup_fmap, length_fmap.
           rewrite last_lookup in Hlast.
           replace (length meas - 1)%nat with (pred (length meas)) by lia.
           rewrite Hlast. reflexivity. }
      cbn [mbind result_bind].
      unfold seqZ. replace (Z.to_nat (last_ + 1 - first)) with 0%nat by lia.
      reflexivity.
    + intros [ds dx] Hin. apply list_elem_of_lookup_1 in Hin as [i Hin].
      apply lookup_zip_Some in Hin as [Hds Hdx].
      unfold delta in Hds, Hdx.
      rewrite lookup_zip_with, lookup_tail, !list_lookup_fmap in Hds.
      rewrite lookup_zip_with, lookup_tail, !list_lookup_fmap in Hdx.
      destruct (meas !! i) as [[xi si]|] eqn:Hi; [|discriminate].
      destruct (meas !! S i) as [[xj sj]|] eqn:Hj; [|discriminate].
      cbn in Hds, Hdx. injection Hds as <-. injection Hdx as <-.
      unfold py_div. destruct (Qeq_bool (inject_Z (xj - xi)) 0) eqn:E;
        [|reflexivity].
      exfalso. apply Qeq_bool_eq in E. unfold Qeq in E. cbn in E.
      apply (Hne i xi si xj sj Hi Hj). lia.
Qed.

Lemma build_lut_outside_precondition_witness :
  build_lut [(5, 1 # 2); (3, 1 # 4)]%Z = Ok [].
Proof.
  destruct build_lut_outside_precondition as (_ & _ & _ & Hdown).
  apply (Hdown [(5, 1 # 2); (3, 1 # 4)]%Z 5%Z 3%Z (1 # 2) (1 # 4));
    [reflexivity | reflexivity | lia |].
  intros [|[|i]] xi si xj sj Hi Hj; cbn in Hi, Hj; try discriminate.
  injection Hi as <- _. injection Hj as <- _. lia.
Defined.

End LutMore.

(** ** color.py: the swarm over several calls *)

Section SwarmCalls.
Import ColorPy.
Context {P R : Type} `{ParamGen P} `{RandomLib R}.

(** One call in round-robin mode. *)
Lemma ColorSwarm_get_step (self : ColorSwarm P R) :
  random self = false -> gens self <> [] ->
  let count := Z.of_nat (length (gens self)) in
  (exists col, (ColorSwarm_get self).1.1 = Ok col) /\
  (ColorSwarm_get self).1.2 = Some ((next self + 1) mod count)%Z /\
  next (ColorSwarm_get self).2 = ((next self + 1) mod count)%Z /\
  random (ColorSwarm_get self).2 = false /\
  length (gens (ColorSwarm_get self).2) = length (gens self).
Proof.
  intros Hmode Hgens count.
  assert (Hcount : (0 < count)%Z).
  { subst count. destruct (gens self); [congruence | cbn; lia]. }
  pose proof (Z.mod_pos_bound (next self + 1) count Hcount) as Hidx.
  destruct (call_gen_in_range (gens self) _ Hidx) as (col & gs' & Hcall & Hlen).
  unfold ColorSwarm_get. rewrite Hmode. fold count.
  destruct (Z.eqb_spec count 0); [lia|]. cbn [gens]. rewrite Hcall.
  cbn [fst snd next gens random]. eauto 10.
Qed.

(** Round-robin calls go round the generators in order: with [count]
    generators, none added or removed in between, the call number
    [k + 1] is answered by the generator at [(cursor + k + 1) mod count],
    so any [count] calls in a row use every generator once. *)
Theorem ColorSwarm_get_rotation (self : ColorSwarm P R) (k : nat) :
  random self = false -> gens self <> [] ->
  let count := Z.of_nat (length (gens self)) in
  let self_k := Nat.iter k (fun s => (ColorSwarm_get s).2) self in
  (exists col, (ColorSwarm_get self_k).1.1 = Ok col) /\
  (ColorSwarm_get self_k).1.2
    = Some ((next self + Z.of_nat k + 1) mod count)%Z /\
  length (gens self_k) = length (gens self).
Proof.
  intros Hmode Hgens count self_k.
  assert (Hcount : (0 < count)%Z).
  { subst count. destruct (gens self); [congruence | cbn; lia]. }
  assert (Hinv : random self_k = false /\
                 length (gens self_k) = length (gens self) /\
                 ((next self_k + 1) mod count
                  = (next self + Z.of_nat k + 1) mod count)%Z).
  { subst self_k. induction k as [|k IH].
    - cbn [Nat.iter nat_rect]. split; [exact Hmode|]. split; [reflexivity|].
      change (Z.of_nat 0) with 0%Z. rewrite Z.add_0_r. reflexivity.
    - rewrite Nat.iter_succ.
      set (s := Nat.iter k (fun s => (ColorSwarm_get s).2) self) in *.
      destruct IH as (Hm & Hl & Hn).
      assert (Hg : gens s <> []).
      { intros E. rewrite E in Hl. destruct (gens self); [congruence|].
        discriminate. }
      destruct (ColorSwarm_get_step s Hm Hg) as (_ & _ & Hn' & Hm' & Hl').
      cbv zeta in Hn'. rewrite Hl in Hn'. fold count in Hn'.
      split; [exact Hm'|]. split; [congruence|].
      rewrite Hn', Hn. rewrite Z.add_mod_idemp_l by lia. f_equal. lia. }
  destruct Hinv as (Hm & Hl & Hn).
  assert (Hg : gens self_k <> []).
  { intros E. rewrite E in Hl. destruct (gens self); [congruence|].
    discriminate. }
  destruct (ColorSwarm_get_step self_k Hm Hg) as (Hcol & Hidx & _).
  cbv zeta in Hidx. rewrite Hl in Hidx. fold count in Hidx.
  split; [exact Hcol|]. split; [|exact Hl]. rewrite Hidx, Hn. reflexivity.
Qed.

(** In random mode, with a source whose [randint(a, b)] stays between
    [a] and [b], a call on a swarm with generators returns a color from
    a generator of the list and does not move the round-robin cursor. *)
Theorem ColorSwarm_get_random_in_range (self : ColorSwarm P R) :
  (forall (r : R) (a b : Z), (a <= b)%Z ->
     (a <= (Random_draw r a b).1 <= b)%Z) ->
  random self = true -> gens self <> [] ->
  exists col idx,
    (ColorSwarm_get self).1.1 = Ok col /\
    (ColorSwarm_get self).1.2 = Some idx /\
    (0 <= idx < Z.of_nat (length (gens self)))%Z /\
    next (ColorSwarm_get self).2 = next self /\
    length (gens (ColorSwarm_get self).2) = length (gens self).
Proof.
  intros Hdraw Hmode Hgens.
  assert (Hcount : (0 < Z.of_nat (length (gens self)))%Z).
  { destruct (gens self); [congruence | cbn; lia]. }
  unfold ColorSwarm_get, randint. rewrite Hmode.
  destruct (Z.ltb_spec (Z.of_nat (length (gens self)) - 1) 0); [lia|].
  specialize (Hdraw (rand_gen self) 0%Z
                (Z.of_nat (length (gens self)) - 1)%Z ltac:(lia)).
  destruct (Random_draw (rand_gen self) 0 (Z.of_nat (length (gens self)) - 1))
    as [idx rg]. cbn [fst] in Hdraw. cbn [gens].
  destruct (call_gen_in_range (gens self) idx ltac:(lia))
    as (col & gs' & Hcall & Hlen).
  rewrite Hcall. cbn [fst snd next gens]. exists col, idx.
  repeat split; trivial; lia.
Qed.

End SwarmCalls.

Section SwarmCallsExamples.
Import ColorPy Instances.

Lemma ColorSwarm_get_rotation_witness :
  (ColorSwarm_get
     (Nat.iter 4 (fun s => (ColorSwarm_get s).2)
        {| random := false; rand_gen := 7%Z;
           gens := [{| h_gen := 0%Q; s_gen := 1%Q; v_gen := 1%Q;
                       colorspace := hsv |};
                    {| h_gen := 0%Q; s_gen := 1%Q; v_gen := 1%Q;
                       colorspace := hsv |};
                    {| h_gen := 0%Q; s_gen := 1%Q; v_gen := 1%Q;
                       colorspace := hsv |}];
           next := 0%Z |})).1.2
  = Some ((0 + Z.of_nat 4 + 1) mod 3)%Z.
Proof.
  apply (ColorSwarm_get_rotation
           {| random := false; rand_gen := 7%Z;
              gens := [{| h_gen := 0%Q; s_gen := 1%Q; v_gen := 1%Q;
                          colorspace := hsv |};
                       {| h_gen := 0%Q; s_gen := 1%Q; v_gen := 1%Q;
                          colorspace := hsv |};
                       {| h_gen := 0%Q; s_gen := 1%Q; v_gen := 1%Q;
                          colorspace := hsv |}];
              next := 0%Z |} 4); [reflexivity | discriminate].
Defined.

Lemma lcg_random_in_range (r a b : Z) :
  (a <= b)%Z -> (a <= (Random_draw r a b).1 <= b)%Z.
Proof.
  intros Hab. cbn.
  pose proof (Z.mod_pos_bound
                ((1103515245 * r + 12345) mod 2147483648) (b - a + 1)
                ltac:(lia)).
  lia.
Qed.

Lemma ColorSwarm_get_random_in_range_witness :
  exists idx,
    (ColorSwarm_get
       {| random := true; rand_gen := 7%Z;
          gens := [{| h_gen := 0%Q; s_gen := 1%Q; v_gen := 1%Q;
                      colorspace := hsv |};
                   {| h_gen := 1%Q; s_gen := 1%Q; v_gen := 1%Q;
                      colorspace := hsv |}];
          next := 0%Z |}).1.2 = Some idx /\
    (0 <= idx < 2)%Z.
Proof.
  destruct (ColorSwarm_get_random_in_range
              {| random := true; rand_gen := 7%Z;
                 gens := [{| h_gen := 0%Q; s_gen := 1%Q; v_gen := 1%Q;
                             colorspace := hsv |};
                          {| h_gen := 1%Q; s_gen := 1%Q; v_gen := 1%Q;
                             colorspace := hsv |}];
                 next := 0%Z |} lcg_random_in_range)
    as (col & idx & Hcol & Hidx & Hrange & _);
    [reflexivity | discriminate |].
  exists idx. split; [exact Hidx | exact Hrange].
Defined.

End SwarmCallsExamples.

(** ** gobo_hustler.py: the hustler *)

Section HustlerFacts.
Import GoboHustlerPy.
Local Open Scope Q_scope.
Context {Roto World : Type} {fixture_lib : FixtureLib Roto World}.

Lemma create_banks_names (n : nat) (name : string) (c0 : cycle (list nat)) :
  create_banks n !! name = Some c0 ->
  name = ALL \/ name = SINGLE \/ name = TWO_VALUE.
Proof.
  unfold create_banks. intros Hc.
  destruct (decide (name = ALL)) as [|N1]; [auto|].
  destruct (decide (name = SINGLE)) as [|N2]; [auto|].
  destruct (decide (name = TWO_VALUE)) as [|N3]; [auto|].
  rewrite !lookup_insert_ne, lookup_empty in Hc by congruence. discriminate.
Qed.

(** The subsets of a bank hold channel indices only. *)
Lemma create_banks_in_range (n : nat) (name : string) (c0 : cycle (list nat))
    (pattern : list nat) :
  create_banks n !! name = Some c0 -> pattern ∈ cycle_items c0 ->
  Forall (fun i => (i < n)%nat) pattern.
Proof.
  intros Hc Hp.
  destruct (create_banks_names n name c0 Hc) as [-> | [-> | ->]].
  - rewrite create_banks_all in Hc. injection Hc as <-. cbn in Hp.
    apply list_elem_of_singleton in Hp as ->.
    apply Forall_forall. intros i Hi. apply elem_of_seq in Hi. lia.
  - rewrite create_banks_single in Hc. injection Hc as <-. cbn in Hp.
    apply list_elem_of_fmap in Hp as (j & -> & Hj).
    apply elem_of_seq in Hj. repeat constructor. lia.
  - rewrite create_banks_two_value in Hc. injection Hc as <-. cbn in Hp.
    apply elem_of_cons in Hp as [-> | Hp];
      [|apply list_elem_of_singleton in Hp as ->].
    all: apply Forall_forall; intros i Hi;
      apply list_elem_of_filter in Hi as [_ Hi]; apply elem_of_seq in Hi; lia.
Qed.

Lemma assign_targets_spec (pattern : list nat) (input_value : Q)
    (params : list Easer) :
  Forall (fun i => (i < length params)%nat) pattern ->
  exists params',
    assign_targets pattern input_value params = (Ok tt, params') /\
    length params' = length params /\
    forall i param, params !! i = Some param ->
      params' !! i = Some (retargeted true pattern input_value i param).
Proof.
  revert params. induction pattern as [|i0 rest IH]; intros params Hrange.
  - exists params. split; [reflexivity|]. split; [reflexivity|].
    intros i [t c] Hi. rewrite Hi. reflexivity.
  - apply Forall_cons in Hrange as [Hi0 Hrest].
    destruct (lookup_lt_is_Some_2 params i0 Hi0) as [p0 Hp0].
    cbn [assign_targets]. rewrite Hp0.
    set (params1 := <[i0 := {| target := input_value; current := current p0 |}]>
                      params).
    destruct (IH params1) as (params' & Hassign & Hlen & Hspec).
    { unfold params1. rewrite length_insert. exact Hrest. }
    exists params'. split; [exact Hassign|].
    split; [rewrite Hlen; apply length_insert|].
    intros i param Hi. unfold retargeted. cbn [andb].
    destruct (decide (i = i0)) as [->|Hne].
    + rewrite (Hspec i0 {| target := input_value; current := current p0 |}).
      2: { unfold params1. apply list_lookup_insert_eq. exact Hi0. }
      unfold retargeted. cbn [andb target current].
      rewrite (bool_decide_eq_true_2 (i0 ∈ i0 :: rest))
        by apply list_elem_of_here.
      assert (param = p0) by congruence. subst param.
      destruct (bool_decide (i0 ∈ rest)); reflexivity.
    + rewrite (Hspec i param).
      2: { unfold params1. rewrite list_lookup_insert_ne by congruence.
           exact Hi. }
      unfold retargeted. cbn [andb]. f_equal. f_equal.
      destruct (bool_decide (i ∈ rest)) eqn:E.
      * apply bool_decide_eq_true_1 in E.
        rewrite (bool_decide_eq_true_2 (i ∈ i0 :: rest))
          by (now apply list_elem_of_further).
        reflexivity.
      * apply bool_decide_eq_false_1 in E.
        rewrite (bool_decide_eq_false_2 (i ∈ i0 :: rest)); [reflexivity|].
        intros Hin. apply elem_of_cons in Hin as [?|?]; tauto.
Qed.

Lemma create_banks_keys (n : nat) (name : string) :
  name ∈ [ALL; SINGLE; TWO_VALUE] <-> is_Some (create_banks n !! name).
Proof.
  split.
  - intros Hin. apply elem_of_cons in Hin as [-> | Hin];
      [rewrite create_banks_all; eauto|].
    apply elem_of_cons in Hin as [-> | Hin];
      [rewrite create_banks_single; eauto|].
    apply list_elem_of_singleton in Hin as ->.
    rewrite create_banks_two_value; eauto.
  - intros [c0 Hc0].
    destruct (create_banks_names n name c0 Hc0) as [-> | [-> | ->]];
      set_solver.
Qed.

Lemma create_banks_length (n : nat) (name : string) (c0 : cycle (list nat)) :
  (1 <= n)%nat -> create_banks n !! name = Some c0 ->
  cycle_pos c0 = 0%nat /\ (0 < length (cycle_items c0))%nat.
Proof.
  intros Hn Hc.
  destruct (create_banks_names n name c0 Hc) as [-> | [-> | ->]].
  - rewrite create_banks_all in Hc. injection Hc as <-. cbn. lia.
  - rewrite create_banks_single in Hc. injection Hc as <-. cbn.
    rewrite length_fmap, length_seq. lia.
  - rewrite create_banks_two_value in Hc. injection Hc as <-. cbn. lia.
Qed.

Lemma assign_targets_imap (fired : bool) (pattern : list nat)
    (input_value : Q) (params : list Easer) :
  Forall (fun i => (i < length params)%nat) pattern ->
  (if fired then assign_targets pattern input_value params
   else (Ok tt, params))
  = (Ok tt, imap (retargeted fired pattern input_value) params).
Proof.
  intros Hrange. destruct fired.
  - destruct (assign_targets_spec pattern input_value params Hrange)
      as (params' & -> & Hlen & Hspec).
    f_equal. apply list_eq. intros i. rewrite list_lookup_imap.
    destruct (params !! i) as [param|] eqn:Hi.
    + apply Hspec. exact Hi.
    + apply lookup_ge_None. apply lookup_ge_None in Hi. lia.
  - f_equal. apply list_eq. intros i. rewrite list_lookup_imap.
    destruct (params !! i) as [[t c]|]; reflexivity.
Qed.

Lemma ease_controls_length
    (cs : list (Q -> World -> result unit * World)) (ps : list Easer)
    (dt e : Q) (w : World) :
  length (ease_controls cs ps dt e w).1.2 = length ps.
Proof.
  revert ps w. induction cs as [|control cs IH]; intros [|p ps] w;
    try reflexivity.
  cbn [ease_controls]. destruct (ease p dt e) as [value p'].
  destruct (control value w) as [[[]|err] w1]; [|reflexivity].
  specialize (IH ps w1).
  destruct (ease_controls cs ps dt e w1) as [[r ps'] w2].
  cbn in *. lia.
Qed.

(** The loop over the controls when it comes to its end: every parameter
    was eased and every control called, in order, with the value of its
    parameter, and each returned. *)
Lemma ease_controls_returns
    (cs : list (Q -> World -> result unit * World)) (ps ps' : list Easer)
    (dt e : Q) (w w' : World) :
  length cs = length ps ->
  ease_controls cs ps dt e w = (Ok tt, ps', w') ->
  let calls := zip cs ((fun p => (ease p dt e).1) <$> ps) in
  ps' = (fun p => (ease p dt e).2) <$> ps /\
  w' = after_controls calls w /\
  forall k control value,
    calls !! k = Some (control, value) ->
    (control value (after_controls (take k calls) w)).1 = Ok tt.
Proof.
  revert ps ps' w. induction cs as [|control cs IH]; intros [|p ps] ps' w Hlen;
    try discriminate.
  - intros [= <- <-]. cbn. repeat split. intros k c v Hk. discriminate.
  - cbn [ease_controls]. rewrite !fmap_cons.
    destruct (ease p dt e) as [value p'] eqn:Hp.
    destruct (control value w) as [[[]|err] w1] eqn:Hc.
    2: { discriminate. }
    destruct (ease_controls cs ps dt e w1) as [[r ps1] w2] eqn:Hrest.
    intros [= -> <- <-].
    destruct (IH ps ps1 w1 ltac:(cbn in Hlen; lia) Hrest)
      as (Hps & Hw & Hcalls).
    cbn [fst snd zip_with]. unfold after_controls. cbn [foldl].
    rewrite Hc. cbn [snd]. split; [congruence|]. split; [exact Hw|].
    intros [|k] c v Hk.
    + injection Hk as <- <-. cbn. rewrite Hc. reflexivity.
    + cbn [take foldl]. rewrite Hc. cbn [snd]. apply Hcalls. exact Hk.
Qed.

(** The loop over the controls when it raises: a control raised. *)
Lemma ease_controls_raises
    (cs : list (Q -> World -> result unit * World)) (ps ps' : list Easer)
    (dt e : Q) (w w' : World) (err : exn) :
  ease_controls cs ps dt e w = (Raise err, ps', w') ->
  exists control value w0,
    control ∈ cs /\ (control value w0).1 = Raise err.
Proof.
  revert ps ps' w. induction cs as [|control cs IH]; intros [|p ps] ps' w;
    try discriminate.
  cbn [ease_controls]. destruct (ease p dt e) as [value p'].
  destruct (control value w) as [[[]|err'] w1] eqn:Hc.
  - destruct (ease_controls cs ps dt e w1) as [[r ps1] w2] eqn:Hrest.
    intros [= -> <- <-].
    destruct (IH ps ps1 w1 Hrest) as (c & v & w0 & Hin & Hraise).
    exists c, v, w0. split; [now apply list_elem_of_further | exact Hraise].
  - intros [= -> <- <-]. exists control, value, w.
    split; [apply list_elem_of_here | rewrite Hc; reflexivity].
Qed.

Lemma render_rotos_returns (rs : list Roto) (f f' : list Z) (w w' : World) :
  render_rotos rs f w = (Ok tt, (f', w')) ->
  (f', w') = after_rotos rs (f, w).
Proof.
  revert f w. induction rs as [|roto rs IH]; intros f w.
  - intros [= <- <-]. reflexivity.
  - cbn [render_rotos]. unfold after_rotos. cbn [foldl fst snd].
    destruct (roto_render roto f w) as [[[]|err] [f1 w1]]; [|discriminate].
    intros Hrest. apply IH in Hrest. exact Hrest.
Qed.

Lemma render_rotos_raises (rs : list Roto) (f : list Z) (w : World)
    (err : exn) (after : list Z * World) :
  render_rotos rs f w = (Raise err, after) ->
  exists roto f0 w0, roto ∈ rs /\ (roto_render roto f0 w0).1 = Raise err.
Proof.
  revert f w. induction rs as [|roto rs IH]; intros f w; [discriminate|].
  cbn [render_rotos].
  destruct (roto_render roto f w) as [[[]|err'] [f1 w1]] eqn:Hr.
  - intros Hrest. destruct (IH f1 w1 Hrest) as (r & f0 & w0 & Hin & Hraise).
    exists r, f0, w0. split; [now apply list_elem_of_further | exact Hraise].
  - intros [= -> <-]. exists roto, f, w.
    split; [apply list_elem_of_here | rewrite Hr; reflexivity].
Qed.

Lemma GoboHustler_init_inv (rs : list Roto) (now : Q) :
  let n := length (concat (get_controls <$> rs)) in
  (1 <= n)%nat -> hustler_inv n (GoboHustler_init rs now).
Proof.
  intros n Hn. unfold hustler_inv, GoboHustler_init.
  cbn [controls control_params bank banks]. rewrite length_fmap. fold n.
  split; [reflexivity|]. split; [reflexivity|].
  split; [rewrite create_banks_single; eauto|].
  intros name. destruct (create_banks n !! name) as [c|] eqn:Hc;
    constructor.
  destruct (create_banks_length n name c Hn Hc) as [Hpos Hlen].
  split; [reflexivity | lia].
Qed.

Lemma hustler_inv_bank (n : nat) (self : GoboHustler Roto World)
    (name : string) (c : cycle (list nat)) :
  hustler_inv n self -> banks self !! name = Some c ->
  exists c0, create_banks n !! name = Some c0 /\ same_round c c0.
Proof.
  intros (_ & _ & _ & Hbanks) Hc. specialize (Hbanks name).
  rewrite Hc in Hbanks. inversion Hbanks as [c' c0 Hround|]. eauto.
Qed.

Lemma hustler_inv_keys (n : nat) (self : GoboHustler Roto World)
    (name : string) :
  hustler_inv n self ->
  name ∈ [ALL; SINGLE; TWO_VALUE] <-> is_Some (banks self !! name).
Proof.
  intros (_ & _ & _ & Hbanks). specialize (Hbanks name).
  rewrite (create_banks_keys n).
  inversion Hbanks; split; intros [? ?]; eauto; congruence.
Qed.

(** One call of [render]: the hustler's own steps return, and what is
    left to raise is the loop over the controls and the loop over the
    fixtures. *)
Lemma render_step_inv (n : nat) (self : GoboHustler Roto World)
    (now : Q) (fired : bool) (input_value : Q) (dmx_frame : list Z)
    (w : World) :
  (1 <= n)%nat -> hustler_inv n self ->
  let out := GoboHustler_render self now fired input_value dmx_frame w in
  exists c pattern,
    banks self !! bank self = Some c /\
    cycle_items c !! cycle_pos c = Some pattern /\
    hustler_inv n (hustler out) /\
    last_render (hustler out) = now /\
    controls (hustler out) = controls self /\
    rotos (hustler out) = rotos self /\
    match
      ease_controls (controls self)
        (imap (retargeted fired pattern input_value) (control_params self))
        (now - last_render self) (easing self) w
    with
    | (Ok _, ps, w1) =>
        control_params (hustler out) = ps /\
        (raised out, (frame out, world out))
        = render_rotos (rotos self) dmx_frame w1
    | (Raise e, ps, w1) =>
        control_params (hustler out) = ps /\
        raised out = Raise e /\ frame out = dmx_frame /\ world out = w1
    end.
Proof.
  intros Hn Hinv out.
  pose proof Hinv as (Hcontrols & Hlen & [c Hc] & Hbanks).
  destruct (hustler_inv_bank n self _ c Hinv Hc)
    as (c0 & Hc0 & Hitems & Hpos).
  destruct (lookup_lt_is_Some_2 _ _ Hpos) as [pattern Hpattern].
  exists c, pattern.
  assert (Hrange : Forall (fun i => (i < length (control_params self))%nat)
                     pattern).
  { rewrite Hlen. apply (create_banks_in_range n (bank self) c0); [exact Hc0|].
    rewrite <- Hitems. eapply list_elem_of_lookup_2. exact Hpattern. }
  pose proof (assign_targets_imap fired pattern input_value
                (control_params self) Hrange) as Hassign.
  pose proof (ease_controls_length (controls self)
                (imap (retargeted fired pattern input_value)
                   (control_params self))
                (now - last_render self) (easing self) w) as Hps.
  rewrite length_imap in Hps.
  split; [exact Hc|]. split; [exact Hpattern|].
  subst out. unfold GoboHustler_render. cbv zeta.
  assert (Hbanks' : forall name,
            option_Forall2 same_round
              ((if fired
                then <[bank self :=
                         {| cycle_items := cycle_items c;
                            cycle_pos :=
                              S (cycle_pos c) mod length (cycle_items c) |}]>
                       (banks self)
                else banks self) !! name)
              (create_banks n !! name)).
  { intros name. destruct fired; [|apply Hbanks].
    destruct (decide (bank self = name)) as [<-|Hne].
    - rewrite lookup_insert_eq, Hc0. constructor.
      split; [exact Hitems|]. cbn [cycle_items cycle_pos].
      apply Nat.mod_upper_bound. lia.
    - rewrite lookup_insert_ne by exact Hne. apply Hbanks. }
  assert (Hkey : is_Some
            ((if fired
              then <[bank self :=
                       {| cycle_items := cycle_items c;
                          cycle_pos :=
                            S (cycle_pos c) mod length (cycle_items c) |}]>
                     (banks self)
              else banks self) !! bank self)).
  { destruct fired; [rewrite lookup_insert_eq|]; eauto. }
  destruct fired.
  - rewrite Hc. unfold cycle_next. rewrite Hpattern, Hassign.
    destruct (ease_controls _ _ _ _ _) as [[[[]|e] ps] w1]; cbn [fst snd] in Hps.
    + destruct (render_rotos (rotos self) dmx_frame w1) as [r [f' w']].
      cbn [hustler raised frame world last_render controls rotos
           control_params].
      unfold hustler_inv. cbn [controls control_params bank banks].
      repeat split; trivial; lia.
    + cbn [hustler raised frame world last_render controls rotos
           control_params].
      unfold hustler_inv. cbn [controls control_params bank banks].
      repeat split; trivial; lia.
  - assert (Himap : imap (retargeted false pattern input_value)
                      (control_params self) = control_params self)
      by (injection Hassign; auto).
    rewrite Himap in *.
    destruct (ease_controls _ _ _ _ _) as [[[[]|e] ps] w1]; cbn [fst snd] in Hps.
    + destruct (render_rotos (rotos self) dmx_frame w1) as [r [f' w']].
      cbn [hustler raised frame world last_render controls rotos
           control_params].
      unfold hustler_inv. cbn [controls control_params bank banks].
      repeat split; trivial; lia.
    + cbn [hustler raised frame world last_render controls rotos
           control_params].
      unfold hustler_inv. cbn [controls control_params bank banks].
      repeat split; trivial; lia.
Qed.

Lemma set_bank_name_inv (n : nat) (self : GoboHustler Roto World)
    (bank_name : string) :
  hustler_inv n self ->
  hustler_inv n (set_bank_name self bank_name).2 /\
  controls (set_bank_name self bank_name).2 = controls self /\
  rotos (set_bank_name self bank_name).2 = rotos self.
Proof.
  intros (Hcontrols & Hlen & Hbank & Hbanks). unfold set_bank_name.
  cbn [banks]. destruct (banks self !! bank_name) as [c|] eqn:Hc.
  - unfold hustler_inv. cbn [snd controls rotos control_params bank banks].
    rewrite Hc. eauto 10.
  - unfold hustler_inv. cbn [snd controls rotos control_params bank banks].
    eauto 10.
Qed.

(** Whatever is called on a hustler, and whether the calls raise or not,
    the controls and the fixtures stay those of the constructor, with one
    easer per control and the banks of the constructor. *)
Lemma after_calls_inv (rs : list Roto) (start : Q)
    (calls : list (hustler_call World)) :
  let n := length (concat (get_controls <$> rs)) in
  let self := foldl after_call (GoboHustler_init rs start) calls in
  (1 <= n)%nat ->
  hustler_inv n self /\
  controls self = concat (get_controls <$> rs) /\ rotos self = rs.
Proof.
  intros n self Hn. subst self.
  assert (H0 : hustler_inv n (GoboHustler_init rs start) /\
               controls (GoboHustler_init rs start)
               = concat (get_controls <$> rs) /\
               rotos (GoboHustler_init rs start) = rs).
  { split; [apply GoboHustler_init_inv; exact Hn|]. split; reflexivity. }
  revert H0. generalize (GoboHustler_init rs start).
  induction calls as [|call calls IH]; intros s Hs; [exact Hs|].
  cbn [foldl]. apply IH. destruct Hs as (Hs & Hcs & Hrs).
  destruct call as [t f v fr w|name]; cbn [after_call].
  - destruct (render_step_inv n s t f v fr w Hn Hs)
      as (_ & _ & _ & _ & Hs' & _ & Hcs' & Hrs' & _).
    split; [exact Hs'|]. split; congruence.
  - destruct (set_bank_name_inv n s name Hs) as (Hs' & Hcs' & Hrs').
    split; [exact Hs'|]. split; congruence.
Qed.

(** One call of [render] that returns, on a hustler with at least one
    control whose banks are those of the constructor up to their
    positions.  When the trigger fired, the parameters at the indices of
    the next subset of the current bank got the drawn value as target
    and the others kept theirs; when it did not, all kept theirs.  Then
    every parameter was eased over the time since the last call and its
    control called with the eased value, the controls in order, each
    returning; then every fixture was rendered onto the frame, in order.
    The time of the call is stored. *)
Theorem GoboHustler_render_step (n : nat) (self : GoboHustler Roto World)
    (now : Q) (fired : bool) (input_value : Q) (dmx_frame : list Z)
    (w : World) :
  (1 <= n)%nat -> hustler_inv n self ->
  let out := GoboHustler_render self now fired input_value dmx_frame w in
  raised out = Ok tt ->
  exists c pattern,
    banks self !! bank self = Some c /\
    cycle_items c !! cycle_pos c = Some pattern /\
    let eased (i : nat) (param : Easer) :=
      ease (retargeted fired pattern input_value i param)
           (now - last_render self) (easing self) in
    let calls :=
      zip (controls self) (imap (fun i param => (eased i param).1)
                             (control_params self)) in
    control_params (hustler out)
    = imap (fun i param => (eased i param).2) (control_params self) /\
    (forall k control value,
       calls !! k = Some (control, value) ->
       (control value (after_controls (take k calls) w)).1 = Ok tt) /\
    (frame out, world out)
    = after_rotos (rotos self) (dmx_frame, after_controls calls w) /\
    last_render (hustler out) = now.
Proof.
  intros Hn Hinv out Hok.
  destruct (render_step_inv n self now fired input_value dmx_frame w Hn Hinv)
    as (c & pattern & Hc & Hpattern & _ & Hnow & _ & _ & Hrun).
  fold out in Hnow, Hrun. exists c, pattern.
  split; [exact Hc|]. split; [exact Hpattern|]. cbv zeta.
  destruct Hinv as (Hcontrols & Hlen & _).
  destruct (ease_controls _ _ _ _ _) as [[[[]|e] ps] w1] eqn:Hease.
  2: { destruct Hrun as (_ & Hraise & _). congruence. }
  destruct Hrun as (Hps & Hrotos).
  apply ease_controls_returns in Hease;
    [|rewrite length_imap; congruence].
  cbv zeta in Hease. destruct Hease as (Hps' & Hw1 & Hcalls).
  rewrite !fmap_imap in Hps', Hw1, Hcalls.
  split; [rewrite Hps, Hps'; reflexivity|]. split; [exact Hcalls|].
  split; [|exact Hnow].
  rewrite Hok in Hrotos. symmetry in Hrotos.
  apply render_rotos_returns in Hrotos. rewrite Hrotos, Hw1. reflexivity.
Qed.

(** A hustler constructed over fixtures with at least one control raises
    in [render] only what a control or a fixture raises: after any
    number of frames rendered and bank names set, known or not, whatever
    the clock, the trigger and the generator gave, the next call of
    [render] returns, or it raises an exception that a control of one of
    the fixtures raised when called, or one that the [render] of one of
    the fixtures raised. *)
Theorem GoboHustler_render_returns (rs : list Roto) (start : Q)
    (calls : list (hustler_call World)) (now : Q) (fired : bool)
    (input_value : Q) (dmx_frame : list Z) (w : World) :
  concat (get_controls <$> rs) <> [] ->
  let self := foldl after_call (GoboHustler_init rs start) calls in
  let out := GoboHustler_render self now fired input_value dmx_frame w in
  raised out = Ok tt \/
  exists e, raised out = Raise e /\
    ((exists roto control value w0,
        roto ∈ rs /\ control ∈ get_controls roto /\
        (control value w0).1 = Raise e) \/
     (exists roto f0 w0,
        roto ∈ rs /\ (roto_render roto f0 w0).1 = Raise e)).
Proof.
  intros Hne self out.
  assert (Hn : (1 <= length (concat (get_controls <$> rs)))%nat).
  { destruct (concat (get_controls <$> rs)); [congruence | cbn; lia]. }
  destruct (after_calls_inv rs start calls Hn) as (Hinv & Hcs & Hrs).
  fold self in Hinv, Hcs, Hrs.
  destruct (render_step_inv _ self now fired input_value dmx_frame w Hn Hinv)
    as (c & pattern & _ & _ & _ & _ & _ & _ & Hrun).
  fold out in Hrun.
  destruct (ease_controls _ _ _ _ _) as [[[[]|e] ps] w1] eqn:Hease.
  - destruct Hrun as (_ & Hrotos).
    destruct (raised out) as [[]|e] eqn:Hraised; [left; reflexivity|].
    right. exists e. split; [reflexivity|]. right.
    symmetry in Hrotos. apply render_rotos_raises in Hrotos.
    rewrite Hrs in Hrotos. exact Hrotos.
  - destruct Hrun as (_ & Hraise & _). right. exists e.
    split; [exact Hraise|]. left.
    apply ease_controls_raises in Hease
      as (control & value & w0 & Hin & Hraise').
    rewrite Hcs in Hin. apply list_elem_of_In, in_concat in Hin
      as (l & Hl & Hin).
    apply list_elem_of_In, list_elem_of_fmap in Hl as (roto & -> & Hroto).
    exists roto, control, value, w0.
    split; [exact Hroto|]. split; [apply list_elem_of_In; exact Hin|].
    exact Hraise'.
Qed.

(** The [bank_name] setter on such a hustler.  A name of a bank makes
    that bank current and leaves every bank at its place, so that a bank
    selected again goes on where it was left.  Any other name raises
    KeyError after the name was stored: the hustler keeps the bank it
    had. *)
Theorem set_bank_name_switches (rs : list Roto) (start : Q)
    (calls : list (hustler_call World)) (bank_name : string) :
  concat (get_controls <$> rs) <> [] ->
  let self := foldl after_call (GoboHustler_init rs start) calls in
  let result := set_bank_name self bank_name in
  _bank_name result.2 = bank_name /\
  banks result.2 = banks self /\
  control_params result.2 = control_params self /\
  (bank_name ∈ [ALL; SINGLE; TWO_VALUE] ->
     result.1 = inl tt /\ bank result.2 = bank_name) /\
  (bank_name ∉ [ALL; SINGLE; TWO_VALUE] ->
     result.1 = inr (KeyError bank_name) /\ bank result.2 = bank self).
Proof.
  intros Hne self result.
  assert (Hn : (1 <= length (concat (get_controls <$> rs)))%nat).
  { destruct (concat (get_controls <$> rs)); [congruence | cbn; lia]. }
  destruct (after_calls_inv rs start calls Hn) as (Hinv & _).
  fold self in Hinv.
  pose proof (hustler_inv_keys _ self bank_name Hinv) as Hkeys.
  subst result. unfold set_bank_name. cbn [banks].
  destruct (banks self !! bank_name) as [c|] eqn:Hc; cbn [fst snd _bank_name
    banks control_params bank].
  - do 3 (split; [reflexivity|]). split; [intros _; split; reflexivity|].
    intros Hnot. exfalso. apply Hnot, Hkeys. eauto.
  - do 3 (split; [reflexivity|]). split; [|intros _; split; reflexivity].
    intros Hin. apply Hkeys in Hin as [c Hc']. congruence.
Qed.

(** A hustler over fixtures without any control raises StopIteration
    when the trigger fires: the bank [single], which it starts with, has
    no subset to give.  The time of the call is stored all the same, and
    no fixture is rendered.  Without the trigger no control is called
    and the fixtures are rendered; with no fixture at all the call
    returns and leaves the frame as it was. *)
Theorem GoboHustler_render_no_controls (rs : list Roto)
    (start now input_value : Q) (dmx_frame : list Z) (w : World) :
  concat (get_controls <$> rs) = [] ->
  GoboHustler_render (GoboHustler_init rs start) now true input_value
    dmx_frame w
  = {| raised := Raise StopIteration;
       hustler :=
         {| easing := 1 # 10; controls := []; rotos := rs;
            control_params := []; last_render := now; _bank_name := SINGLE;
            banks := create_banks 0; bank := SINGLE |};
       frame := dmx_frame; world := w |} /\
  (let out :=
     GoboHustler_render (GoboHustler_init rs start) now false input_value
       dmx_frame w in
   control_params (hustler out) = [] /\
   (raised out, (frame out, world out)) = render_rotos rs dmx_frame w /\
   (rs = [] -> raised out = Ok tt /\ frame out = dmx_frame)).
Proof.
  intros Hnone. unfold GoboHustler_render, GoboHustler_init.
  cbn [controls rotos control_params banks bank last_render easing
       _bank_name].
  rewrite Hnone. cbn [fmap list_fmap length].
  rewrite create_banks_single. cbn [seq fmap list_fmap].
  split; [reflexivity|]. cbn [ease_controls].
  destruct (render_rotos rs dmx_frame w) as [r [f' w']] eqn:Hr.
  cbn [hustler raised frame world control_params].
  split; [reflexivity|]. split; [reflexivity|].
  intros ->. cbn in Hr. injection Hr as <- <- <-. split; reflexivity.
Qed.

End HustlerFacts.

Section HustlerExamples.
Import GoboHustlerPy GoboRotatorPy Instances.
Local Open Scope Q_scope.

Lemma GoboHustler_render_step_witness :
  (1 <= 2)%nat /\
  hustler_inv 2 (GoboHustler_init [0%nat] 0) /\
  raised (GoboHustler_render (GoboHustler_init [0%nat] 0) 1 true (1 # 2)
            [0; 0; 0; 0; 0; 0]%Z [{| address := 1; g0 := 0; g1 := 0 |}])
  = Ok tt /\
  last_render
    (hustler (GoboHustler_render (GoboHustler_init [0%nat] 0) 1 true (1 # 2)
                [0; 0; 0; 0; 0; 0]%Z [{| address := 1; g0 := 0; g1 := 0 |}]))
  = 1.
Proof.
  assert (Hinv : hustler_inv 2 (GoboHustler_init [0%nat] 0)).
  { change (hustler_inv (length (concat (get_controls <$> [0%nat])))
              (GoboHustler_init [0%nat] 0)).
    apply GoboHustler_init_inv. cbn. lia. }
  split; [lia|]. split; [exact Hinv|]. split; [reflexivity|].
  destruct (GoboHustler_render_step 2 (GoboHustler_init [0%nat] 0) 1 true
              (1 # 2) [0; 0; 0; 0; 0; 0]%Z
              [{| address := 1; g0 := 0; g1 := 0 |}]
              ltac:(lia) Hinv eq_refl)
    as (_ & _ & _ & _ & _ & _ & _ & Hnow).
  exact Hnow.
Defined.

Lemma GoboHustler_render_returns_witness :
  concat (get_controls <$> [0%nat]) <> [] /\
  let out :=
    GoboHustler_render
      (foldl after_call (GoboHustler_init [0%nat] 0)
         [CallRender 1 true (1 # 2) [0; 0; 0; 0; 0; 0]%Z
            [{| address := 1; g0 := 0; g1 := 0 |}];
          CallSetBankName "two_value"; CallSetBankName "none";
          CallRender 2 false 0 [0; 0]%Z
            [{| address := 1; g0 := 0; g1 := 0 |}]])
      3 true 1 [0; 0; 0]%Z [{| address := 1; g0 := 0; g1 := 0 |}] in
  raised out = Ok tt \/
  exists e, raised out = Raise e /\
    ((exists roto control value w0,
        roto ∈ [0%nat] /\ control ∈ get_controls roto /\
        (control value w0).1 = Raise e) \/
     (exists roto f0 w0,
        roto ∈ [0%nat] /\ (roto_render roto f0 w0).1 = Raise e)).
Proof.
  split; [discriminate|].
  apply (GoboHustler_render_returns [0%nat] 0
           [CallRender 1 true (1 # 2) [0; 0; 0; 0; 0; 0]%Z
              [{| address := 1; g0 := 0; g1 := 0 |}];
            CallSetBankName "two_value"; CallSetBankName "none";
            CallRender 2 false 0 [0; 0]%Z
              [{| address := 1; g0 := 0; g1 := 0 |}]]
           3 true 1 [0; 0; 0]%Z [{| address := 1; g0 := 0; g1 := 0 |}]).
  discriminate.
Defined.

(** The run of the example above: the frame is too short for the
    fixture, whose [render] raises IndexError. *)
Example GoboHustler_render_short_frame :
  raised
    (GoboHustler_render
       (foldl after_call (GoboHustler_init [0%nat] 0)
          [CallRender 1 true (1 # 2) [0; 0; 0; 0; 0; 0]%Z
             [{| address := 1; g0 := 0; g1 := 0 |}];
           CallSetBankName "two_value"; CallSetBankName "none";
           CallRender 2 false 0 [0; 0]%Z
             [{| address := 1; g0 := 0; g1 := 0 |}]])
       3 true 1 [0; 0; 0]%Z [{| address := 1; g0 := 0; g1 := 0 |}])
  = Raise IndexError.
Proof. vm_compute. reflexivity. Qed.

Lemma set_bank_name_switches_witness :
  concat (get_controls <$> [0%nat]) <> [] /\
  (set_bank_name
     (foldl after_call (GoboHustler_init [0%nat] 0)
        [CallRender 1 true (1 # 2) [0; 0; 0; 0; 0; 0]%Z
           [{| address := 1; g0 := 0; g1 := 0 |}]])
     "sixths").1 = inr (KeyError "sixths").
Proof.
  split; [discriminate|].
  destruct (set_bank_name_switches [0%nat] 0
              [CallRender 1 true (1 # 2) [0; 0; 0; 0; 0; 0]%Z
                 [{| address := 1; g0 := 0; g1 := 0 |}]] "sixths")
    as (_ & _ & _ & _ & Hother); [discriminate|].
  apply Hother. rewrite !elem_of_cons, elem_of_nil.
  intros [E | [E | [E | []]]]; discriminate E.
Defined.

Lemma GoboHustler_render_no_controls_witness :
  concat (get_controls <$> ([] : list nat)) = [] /\
  raised (GoboHustler_render (GoboHustler_init ([] : list nat) 0) 1 false 0
            [7; 7]%Z ([] : list GoboSpinna))
  = Ok tt.
Proof.
  split; [reflexivity|].
  destruct (GoboHustler_render_no_controls ([] : list nat) 0 1 0 [7; 7]%Z
              ([] : list GoboSpinna) eq_refl)
    as (_ & _ & _ & Hnone).
  exact (proj1 (Hnone eq_refl)).
Defined.

End HustlerExamples.

(** ** color.py: from RGB to HSV and back *)

Section ColorRoundTrip.
Import ColorPy.
Local Open Scope Q_scope.
Context {husl_lib : HuslLib}.

(** The three mixed coordinates of [hsv_to_rgb] at the saturation and
    value that [rgb_to_hsv] gives. *)
Lemma sector_values (M m f : Q) :
  ~ M == 0 ->
  M * (1 - (M - m) / M) == m /\
  M * (1 - (M - m) / M * f) == M - (M - m) * f /\
  M * (1 - (M - m) / M * (1 - f)) == m + (M - m) * f.
Proof. intros HM. repeat split; field; exact HM. Qed.

(** The place [f] within sector [k] of a hue [n / (6 * D) + c]. *)
Lemma sector_place (D n c k f hue : Q) :
  0 < D -> hue == n / (6 * D) + c -> k + f == hue * 6 ->
  0 <= f -> f < 1 ->
  D * f == n + (6 * c - k) * D /\ 0 <= D * f /\ D * f < D.
Proof.
  intros HD Hh Hkf Hf0 Hf1. split; [|split; nra].
  assert (Hf : f == hue * 6 - k) by lra.
  rewrite Hf, Hh. field. intros Hz. lra.
Qed.

(** A color with no negative coordinate survives the trip from RGB to
    HSV and back. *)
Theorem rgb_hsv_rgb_roundtrip (coordinates : pyseq) (r g b : Q) :
  items coordinates = [r; g; b] -> 0 <= r -> 0 <= g -> 0 <= b ->
  exists via back r' g' b',
    convert_color_space rgb hsv coordinates = Ok via /\
    convert_color_space hsv rgb via = Ok back /\
    items back = [r'; g'; b'] /\ r' == r /\ g' == g /\ b' == b.
Proof.
  intros Hitems Hr0 Hg0 Hb0.
  destruct (py_max3_spec r g b) as (HMr & HMg & HMb & HM).
  destruct (py_min3_spec r g b) as (Hmr & Hmg & Hmb & Hm).
  pose proof (rgb_to_hsv_cases coordinates r g b Hitems) as Hcases.
  cbv zeta in Hcases.
  set (M := py_max3 r g b) in *. set (m := py_min3 r g b) in *.
  clearbody M m.
  assert (HM' : M == r \/ M == g \/ M == b).
  { destruct HM as [E | [E | E]]; rewrite E;
      [left | right; left | right; right]; reflexivity. }
  assert (Hm' : m == r \/ m == g \/ m == b).
  { destruct Hm as [E | [E | E]]; rewrite E;
      [left | right; left | right; right]; reflexivity. }
  clear HM Hm.
  unfold convert_color_space.
  cbn [space_to_rgb_map rgb_to_space_map identity mbind result_bind].
  destruct Hcases as [[HMm Hhsv] | [(Hlt & HM0 & _) |
    (Hlt & HM0 & hue & Hhsv & Hh0 & Hh1 & Hcr & Hcg & Hcb)]].
  - (* a gray *)
    rewrite Hhsv. exists (PyList [0; 0; M]), (PyTuple [M; M; M]), M, M, M.
    split; [reflexivity|]. split; [reflexivity|]. split; [reflexivity|].
    repeat split; lra.
  - exfalso. destruct Hm' as [E | [E | E]]; lra.
  - rewrite Hhsv.
    destruct (hsv_to_rgb_sectors (PyList [hue; (M - m) / M; M])
                hue ((M - m) / M) M eq_refl)
      as (k & f & Hk & Hf0 & Hf1 & Hkf & r' & g' & b' & Hrgb & Hsect);
      [lra | lra | |].
    { intros Hz. assert (H : (M - m) / M * M == M - m) by (field; exact HM0).
      rewrite Hz in H. lra. }
    specialize (Hkf Hh1).
    exists (PyList [hue; (M - m) / M; M]), (PyList [r'; g'; b']), r', g', b'.
    split; [reflexivity|]. rewrite Hrgb.
    split; [reflexivity|]. split; [reflexivity|].
    destruct (sector_values M m f HM0) as (Hp & Hq & Ht).
    assert (HD : 0 < M - m) by lra.
    assert (Hform :
              (r == M /\ 0 <= g - b /\ hue == (g - b) / (6 * (M - m)) + 0) \/
              (r == M /\ g - b < 0 /\ hue == (g - b) / (6 * (M - m)) + 1) \/
              (r < M /\ g == M /\ hue == (b - r) / (6 * (M - m)) + (1 # 3)) \/
              (r < M /\ g < M /\ b == M /\
               hue == (r - g) / (6 * (M - m)) + (2 # 3))).
    { destruct (Qeq_dec r M) as [Er|Er].
      - destruct (Hcr Er) as [Hpos Hneg].
        destruct (Qlt_le_dec (g - b) 0) as [Hs|Hs].
        + right; left. auto.
        + left. repeat split; trivial. rewrite (Hpos Hs). ring.
      - assert (Hr : r < M).
        { destruct (Qlt_le_dec r M) as [H|H]; [exact H|].
          exfalso. apply Er. lra. }
        destruct (Qeq_dec g M) as [Eg|Eg].
        + right; right; left. repeat split; trivial.
          rewrite (Hcg Er Eg). ring.
        + assert (Hg : g < M).
          { destruct (Qlt_le_dec g M) as [H|H]; [exact H|].
            exfalso. apply Eg. lra. }
          right; right; right. repeat split; trivial.
          * destruct HM' as [E | [E | E]]; lra.
          * rewrite (Hcb Er Eg). ring. }
    destruct Hform as [(F1 & F2 & Hhue) | [(F1 & F2 & Hhue) |
      [(F1 & F2 & Hhue) | (F1 & F2 & F3 & Hhue)]]];
      destruct (sector_place (M - m) _ _ (inject_Z k) f hue HD Hhue Hkf Hf0 Hf1)
        as (Hplace & HX0 & HX1);
      set (vp := M * (1 - (M - m) / M)) in *;
      set (vq := M * (1 - (M - m) / M * f)) in *;
      set (vt := M * (1 - (M - m) / M * (1 - f))) in *;
      set (X := (M - m) * f) in *;
      clearbody vp vq vt X; clear Hhsv Hrgb Hcr Hcg Hcb Hhue Hkf;
      destruct Hsect as [(-> & -> & -> & ->) | [(-> & -> & -> & ->) |
        [(-> & -> & -> & ->) | [(-> & -> & -> & ->) | [(-> & -> & -> & ->) |
        (-> & -> & -> & ->)]]]]];
      unfold inject_Z in Hplace;
      destruct Hm' as [Em | [Em | Em]]; repeat split; lra.
Qed.

End ColorRoundTrip.

(** ** color.py: reading and setting coordinates *)

Section CoordinateFacts.
Import ColorPy.
Local Open Scope Q_scope.
Context {husl_lib : HuslLib}.

Lemma py_max3_same (v : Q) : py_max3 v v v = v.
Proof.
  unfold py_max3, py_max.
  repeat match goal with
         | |- context [Qltb ?a ?b] => destruct (Qltb a b)
         end; reflexivity.
Qed.

Lemma py_min3_same (v : Q) : py_min3 v v v = v.
Proof.
  unfold py_min3, py_min.
  repeat match goal with
         | |- context [Qltb ?a ?b] => destruct (Qltb a b)
         end; reflexivity.
Qed.

Lemma hsv_to_rgb_gray (coordinates : pyseq) (h s v : Q) :
  items coordinates = [h; s; v] -> s == 0 ->
  hsv_to_rgb coordinates = Ok (PyTuple [v; v; v]).
Proof.
  intros Hitems Hs. unfold hsv_to_rgb. rewrite Hitems.
  rewrite (Qeq_eq_bool s 0 Hs). reflexivity.
Qed.

Lemma rgb_to_hsv_gray (v : Q) :
  rgb_to_hsv (PyTuple [v; v; v]) = Ok (PyList [0; 0; v]).
Proof.
  unfold rgb_to_hsv. cbn [items]. rewrite py_max3_same, py_min3_same.
  assert (E : Qeq_bool (v - v) 0 = true) by (apply Qeq_eq_bool; ring).
  rewrite E. reflexivity.
Qed.

(** What an HSV color without saturation or without value reads as. *)
Lemma hsv_colorless_reads (coordinates : pyseq) (h s v : Q) :
  items coordinates = [h; s; v] -> 0 <= h -> h <= 1 ->
  s == 0 \/ v == 0 ->
  exists v',
    convert_color_space hsv hsv coordinates = Ok (PyList [0; 0; v']) /\
    v' == v.
Proof.
  intros Hitems Hh0 Hh1 Hcase. unfold convert_color_space.
  cbn [space_to_rgb_map rgb_to_space_map].
  destruct (Qeq_dec s 0) as [Hs|Hs].
  - rewrite (hsv_to_rgb_gray coordinates h s v Hitems Hs).
    cbn [mbind result_bind]. rewrite rgb_to_hsv_gray.
    exists v. split; reflexivity.
  - destruct Hcase as [Hs'|Hv]; [contradiction|].
    destruct (hsv_to_rgb_sectors coordinates h s v Hitems Hh0 Hh1 Hs)
      as (k & f & _ & _ & _ & _ & r & g & b & Hrgb & Hsect).
    rewrite Hrgb. cbn [mbind result_bind].
    assert (Hzero : r == 0 /\ g == 0 /\ b == 0).
    { destruct Hsect as [(_ & -> & -> & ->) | [(_ & -> & -> & ->) |
        [(_ & -> & -> & ->) | [(_ & -> & -> & ->) | [(_ & -> & -> & ->) |
        (_ & -> & -> & ->)]]]]]; rewrite Hv; repeat split; ring. }
    destruct Hzero as (Hr & Hg & Hb).
    destruct (py_max3_spec r g b) as (_ & _ & _ & HM).
    destruct (py_min3_spec r g b) as (_ & _ & _ & Hm).
    assert (HM0 : py_max3 r g b == 0)
      by (destruct HM as [-> | [-> | ->]]; assumption).
    assert (Hm0 : py_min3 r g b == 0)
      by (destruct Hm as [-> | [-> | ->]]; assumption).
    pose proof (rgb_to_hsv_cases (PyList [r; g; b]) r g b eq_refl) as Hcases.
    cbv zeta in Hcases.
    destruct Hcases as [[_ Hhsv] | [(Hlt & _) | (Hlt & _)]];
      [|exfalso; lra|exfalso; lra].
    rewrite Hhsv. eexists. split; [reflexivity|]. lra.
Qed.

(** An HSV color without saturation or without value reads hue 0 and
    saturation 0, whatever hue and saturation it was given. *)
Theorem get_coordinate_hsv_colorless (self : Color) (h s v : Q) :
  space self = hsv -> items (coordinates self) = [h; s; v] ->
  0 <= h -> h <= 1 -> s == 0 \/ v == 0 ->
  get_coordinate self hsv 0 = Ok 0 /\
  get_coordinate self hsv 1 = Ok 0 /\
  exists v', get_coordinate self hsv 2 = Ok v' /\ v' == v.
Proof.
  intros Hspace Hitems Hh0 Hh1 Hcase.
  destruct (hsv_colorless_reads (coordinates self) h s v Hitems Hh0 Hh1 Hcase)
    as (v' & Hconv & Hv').
  unfold get_coordinate. rewrite Hspace, Hconv.
  split; [reflexivity|]. split; [reflexivity|].
  exists v'. split; [reflexivity | exact Hv'].
Qed.

(** The trip from HSV to RGB and back at hue 1.0, which [hsv_to_rgb]
    takes for hue 0.0. *)
Lemma hsv_full_turn (coordinates : pyseq) (h s v : Q) :
  items coordinates = [h; s; v] -> h == 1 -> 0 < s -> 0 < v ->
  exists h' s' v',
    convert_color_space hsv hsv coordinates = Ok (PyList [h'; s'; v']) /\
    h' == 0 /\ s' == s /\ v' == v.
Proof.
  intros Hitems Hh Hs Hv. unfold convert_color_space.
  cbn [space_to_rgb_map rgb_to_space_map].
  unfold hsv_to_rgb. rewrite Hitems.
  destruct (Qeq_bool s 0) eqn:Es; [apply Qeq_bool_true in Es; lra|].
  assert (E6 : Qeq_bool (h * 6) 6 = true) by (apply Qeq_eq_bool; lra).
  rewrite E6. change (py_int 0) with 0%Z. cbn [Z.eqb mbind result_bind].
  change (inject_Z 0) with 0.
  set (g := v * (1 - s * (1 - (0 - 0)))). set (b := v * (1 - s)).
  assert (Hg : g == v * (1 - s)) by (unfold g; ring).
  assert (Hb : b == v * (1 - s)) by reflexivity.
  clearbody g b.
  assert (Hvs : 0 < v * s) by nra.
  pose proof (rgb_to_hsv_cases (PyList [v; g; b]) v g b eq_refl) as Hcases.
  cbv zeta in Hcases.
  assert (HM : py_max3 v g b == v).
  { apply py_max3_is; [lra | lra | lra |]. left. reflexivity. }
  assert (Hm : py_min3 v g b == b).
  { apply py_min3_is; [lra | lra | lra |]. right; right. reflexivity. }
  set (M := py_max3 v g b) in *. set (m := py_min3 v g b) in *.
  clearbody M m.
  destruct Hcases as [[Hz _] | [(_ & Hz & _) |
    (Hlt & HM0 & hue & Hhsv & _ & _ & Hr & _ & _)]];
    [exfalso; lra | exfalso; lra |].
  rewrite Hhsv. do 3 eexists. split; [reflexivity|].
  split; [|split; [|exact HM]].
  - destruct Hr as [Hr _]; [lra|]. rewrite Hr by lra.
    apply Qdiv_eq; [intros Hz; lra | lra].
  - apply Qdiv_eq; [exact HM0|]. rewrite HM, Hm, Hb. ring.
Qed.

(** An HSV color with some saturation and some value reads its own
    coordinates, except that hue 1.0 reads as hue 0.0. *)
Theorem get_coordinate_hsv_own (self : Color) (h s v : Q) :
  space self = hsv -> items (coordinates self) = [h; s; v] ->
  0 <= h -> h <= 1 -> 0 < s -> 0 < v ->
  exists h' s' v',
    get_coordinate self hsv 0 = Ok h' /\
    get_coordinate self hsv 1 = Ok s' /\
    get_coordinate self hsv 2 = Ok v' /\
    (h < 1 -> h' == h) /\ (h == 1 -> h' == 0) /\ s' == s /\ v' == v.
Proof.
  intros Hspace Hitems Hh0 Hh1 Hs Hv.
  assert (Hconv : exists h' s' v',
            convert_color_space hsv hsv (coordinates self)
              = Ok (PyList [h'; s'; v']) /\
            (h < 1 -> h' == h) /\ (h == 1 -> h' == 0) /\ s' == s /\ v' == v).
  { destruct (Qlt_le_dec h 1) as [Hlt|Hge].
    - destruct (hsv_rgb_hsv_roundtrip (coordinates self) h s v Hitems
                  Hh0 Hlt Hs Hv)
        as (via & h' & s' & v' & Hto & Hfrom & Eh & Es & Ev).
      exists h', s', v'. unfold convert_color_space.
      cbn [space_to_rgb_map rgb_to_space_map]. rewrite Hto.
      cbn [mbind result_bind]. rewrite Hfrom.
      split; [reflexivity|]. repeat split; trivial. intros H1. lra.
    - destruct (hsv_full_turn (coordinates self) h s v Hitems) as
        (h' & s' & v' & Hconv & Eh & Es & Ev); [lra | exact Hs | exact Hv|].
      exists h', s', v'. split; [exact Hconv|].
      repeat split; trivial. intros H1. lra. }
  destruct Hconv as (h' & s' & v' & Hconv & Hrest).
  exists h', s', v'. unfold get_coordinate. rewrite Hspace, Hconv.
  split; [reflexivity|]. split; [reflexivity|]. split; [reflexivity|].
  exact Hrest.
Qed.

(** Taking the saturation of an RGB color down to nothing through
    [set_coordinate] leaves its coordinates in a tuple, three times the
    largest of them.  No coordinate of the color can then be assigned in
    RGB, neither by [set_coordinate] nor by [repack_c0], [repack_c1] and
    [repack_c2]: TypeError. *)
Theorem set_coordinate_desaturated_frozen (self : Color) (r g b value : Q) :
  space self = rgb -> items (coordinates self) = [r; g; b] ->
  0 <= r -> 0 <= g -> 0 <= b -> value <= 0 ->
  let gray :=
    {| space := rgb;
       coordinates :=
         PyTuple [py_max3 r g b; py_max3 r g b; py_max3 r g b] |} in
  set_coordinate self hsv 1 value = Ok gray /\
  forall axis c,
    set_coordinate gray rgb axis c = Raise TypeError /\
    repack axis gray c = Raise TypeError.
Proof.
  intros Hspace Hitems Hr0 Hg0 Hb0 Hvalue gray. split; [|split; reflexivity].
  assert (Hclamp : clamp value 0 1 = 0).
  { unfold clamp, py_max.
    destruct (Qltb 0 value) eqn:E; [apply Qltb_true in E; lra|].
    reflexivity. }
  assert (Hconv : exists hue sat,
            convert_color_space rgb hsv (coordinates self)
              = Ok (PyList [hue; sat; py_max3 r g b])).
  { unfold convert_color_space.
    cbn [space_to_rgb_map rgb_to_space_map identity mbind result_bind].
    destruct (py_min3_spec r g b) as (_ & _ & _ & Hm).
    assert (Hm0 : 0 <= py_min3 r g b)
      by (destruct Hm as [-> | [-> | ->]]; assumption).
    destruct (rgb_to_hsv_cases (coordinates self) r g b Hitems)
      as [[_ H] | [(Hlt & HM0 & _) | (_ & _ & hue & H & _)]];
      [eauto | exfalso; lra | eauto]. }
  destruct Hconv as (hue & sat & Hconv).
  unfold set_coordinate. rewrite Hspace, Hconv, Hclamp.
  reflexivity.
Qed.

(** Setting a coordinate of an RGB color in RGB: the coordinate then
    reads as the value clamped to [0, 1], and the other coordinates read
    as before. *)
Theorem set_coordinate_rgb_get (self : Color) (xs : list Q) (axis : Z)
    (value : Q) :
  space self = rgb -> coordinates self = PyList xs ->
  (0 <= axis < Z.of_nat (length xs))%Z ->
  exists self',
    set_coordinate self rgb axis value = Ok self' /\
    space self' = rgb /\
    get_coordinate self' rgb axis = Ok (clamp value 0 1) /\
    forall other, (0 <= other < Z.of_nat (length xs))%Z -> other <> axis ->
      get_coordinate self' rgb other = get_coordinate self rgb other.
Proof.
  intros Hspace Hcoords Haxis.
  exists {| space := rgb;
            coordinates := PyList (<[Z.to_nat axis := clamp value 0 1]> xs) |}.
  split; [|split; [reflexivity|]].
  - unfold set_coordinate, convert_color_space. rewrite Hspace, Hcoords.
    cbn [space_to_rgb_map rgb_to_space_map identity mbind result_bind
         seq_setitem].
    unfold py_setitem. rewrite py_index_in_range by exact Haxis.
    reflexivity.
  - unfold get_coordinate, convert_color_space. rewrite Hspace, Hcoords.
    unfold seq_getitem, identity.
    cbn [space_to_rgb_map rgb_to_space_map mbind result_bind items space
         coordinates].
    unfold identity. cbn [mbind result_bind items].
    unfold py_getitem. rewrite length_insert. split.
    + rewrite py_index_in_range by exact Haxis.
      rewrite list_lookup_insert_eq by lia. reflexivity.
    + intros other Hother Hne. rewrite py_index_in_range by exact Hother.
      rewrite list_lookup_insert_ne by lia. reflexivity.
Qed.

Lemma Color_eq_raises (depth : nat) (self other : Color) :
  exists e, Color_eq depth self other = Raise e.
Proof.
  revert self other. induction depth as [|depth IH]; intros self other.
  - exists RecursionError. reflexivity.
  - cbn [Color_eq]. destruct (in_rgb self) as [lhs|e]; [|exists e; reflexivity].
    cbn. destruct (in_rgb other) as [rhs|e]; [|exists e; reflexivity].
    cbn. apply IH.
Qed.

(** [Color.__ne__] negates what [__eq__] returns, and [__eq__] returns
    nothing: [!=] between two colors ends in the exception of [==],
    whatever the colors. *)
Theorem Color_ne_never_returns (depth : nat) (self other : Color) :
  exists e,
    Color_eq depth self other = Raise e /\
    Color_ne depth self other = Raise e.
Proof.
  destruct (Color_eq_raises depth self other) as [e He].
  exists e. split; [exact He|]. unfold Color_ne. rewrite He. reflexivity.
Qed.

End CoordinateFacts.

(** ** color.py: the colors of a swarm *)

Section SwarmColors.
Import ColorPy.
Local Open Scope Q_scope.
Context {P R : Type} `{ParamGen P} `{RandomLib R}.

(** The color that [get] returns is the one made by the generator at the
    index used, which is advanced in the list and the only one to be:
    a color in the generator's color space with three coordinates, each
    in [0, 1] whatever the parameter generators returned. *)
Theorem ColorSwarm_get_color (self self' : ColorSwarm P R) (col : Color)
    (idx : Z) :
  ColorSwarm_get self = (Ok col, Some idx, self') ->
  exists j g,
    py_index (length (gens self)) idx = Some j /\
    gens self !! j = Some g /\
    col = (ColorGenerator_get g).1 /\
    gens self' = <[j := (ColorGenerator_get g).2]> (gens self) /\
    space col = colorspace g /\
    length (items (coordinates col)) = 3%nat /\
    unit_seq (coordinates col).
Proof.
  intros Hget.
  assert (Hcall : exists gs',
            call_gen (gens self) idx = Ok (col, gs') /\ gens self' = gs').
  { unfold ColorSwarm_get in Hget. destruct (random self).
    - destruct (randint (rand_gen self) 0 _) as [[gen rg]|e];
        [|discriminate].
      cbn [gens] in Hget.
      destruct (call_gen (gens self) gen) as [[col' gs]|e] eqn:Hcall;
        [|discriminate].
      injection Hget as -> -> <-. eauto.
    - destruct (Z.of_nat (length (gens self)) =? 0)%Z; [discriminate|].
      cbn [gens] in Hget.
      destruct (call_gen (gens self) _) as [[col' gs]|e] eqn:Hcall;
        [|discriminate].
      injection Hget as -> <- <-. eauto. }
  destruct Hcall as (gs' & Hcall & ->).
  unfold call_gen, py_getitem, py_setitem in Hcall.
  destruct (py_index (length (gens self)) idx) as [j|] eqn:Hj;
    [|discriminate].
  destruct (gens self !! j) as [g|] eqn:Hg; [|discriminate].
  cbn [mbind result_bind] in Hcall.
  exists j, g. split; [reflexivity|]. split; [exact Hg|].
  unfold ColorGenerator_get in *.
  destruct (get_constrained (h_gen g) 0 1 wrap) as [h_val hg].
  destruct (get_constrained (s_gen g) 0 1 fold) as [s_val sg].
  destruct (get_constrained (v_gen g) 0 1 fold) as [v_val vg].
  cbn [mbind result_bind fst snd] in *. injection Hcall as <- <-.
  split; [reflexivity|]. split; [reflexivity|]. split; [reflexivity|].
  split; [reflexivity|]. apply Color_init_unit.
Qed.

End SwarmColors.

Section ColorMoreExamples.
Import ColorPy Instances.
Local Open Scope Q_scope.

Lemma rgb_hsv_rgb_roundtrip_witness :
  exists via back r' g' b',
    convert_color_space rgb hsv (PyList [1 # 2; 1 # 3; 1 # 5]) = Ok via /\
    convert_color_space hsv rgb via = Ok back /\
    items back = [r'; g'; b'] /\
    r' == 1 # 2 /\ g' == 1 # 3 /\ b' == 1 # 5.
Proof.
  apply (rgb_hsv_rgb_roundtrip (PyList [1 # 2; 1 # 3; 1 # 5]) _ _ _ eq_refl);
    lra.
Defined.

Lemma get_coordinate_hsv_colorless_witness :
  get_coordinate {| space := hsv; coordinates := PyList [1 # 3; 1 # 2; 0] |}
    hsv 1 = Ok 0.
Proof.
  destruct (get_coordinate_hsv_colorless
              {| space := hsv; coordinates := PyList [1 # 3; 1 # 2; 0] |}
              (1 # 3) (1 # 2) 0 eq_refl eq_refl)
    as (_ & Hsat & _); [lra | lra | right; reflexivity | exact Hsat].
Defined.

Lemma get_coordinate_hsv_own_witness :
  exists h',
    get_coordinate {| space := hsv; coordinates := PyList [1; 1 # 2; 1 # 3] |}
      hsv 0 = Ok h' /\ h' == 0.
Proof.
  destruct (get_coordinate_hsv_own
              {| space := hsv; coordinates := PyList [1; 1 # 2; 1 # 3] |}
              1 (1 # 2) (1 # 3) eq_refl eq_refl)
    as (h' & _ & _ & Hhue & _ & _ & _ & Hone & _); [lra | lra | lra | lra |].
  exists h'. split; [exact Hhue | apply Hone; reflexivity].
Defined.

Lemma set_coordinate_desaturated_frozen_witness :
  set_coordinate (Color_init rgb (PyTuple [1 # 2; 1 # 3; 1 # 5])) hsv 1 0
  = Ok {| space := rgb;
          coordinates :=
            PyTuple [py_max3 (1 # 2) (1 # 3) (1 # 5);
                     py_max3 (1 # 2) (1 # 3) (1 # 5);
                     py_max3 (1 # 2) (1 # 3) (1 # 5)] |}.
Proof.
  destruct (set_coordinate_desaturated_frozen
              (Color_init rgb (PyTuple [1 # 2; 1 # 3; 1 # 5]))
              (1 # 2) (1 # 3) (1 # 5) 0 eq_refl eq_refl)
    as (Hset & _); [lra | lra | lra | lra | exact Hset].
Defined.

Lemma set_coordinate_rgb_get_witness :
  exists self',
    set_coordinate (Color_init rgb (PyTuple [1 # 2; 1 # 3; 1 # 5])) rgb 1 (7 # 2)
      = Ok self' /\
    get_coordinate self' rgb 1 = Ok (clamp (7 # 2) 0 1).
Proof.
  destruct (set_coordinate_rgb_get
              (Color_init rgb (PyTuple [1 # 2; 1 # 3; 1 # 5]))
              [1 # 2; 1 # 3; 1 # 5] 1 (7 # 2) eq_refl eq_refl)
    as (self' & Hset & _ & Hget & _); [cbn [length]; lia|].
  exists self'. split; [exact Hset | exact Hget].
Defined.

Lemma ColorSwarm_get_color_witness :
  ColorSwarm_get
    {| random := false; rand_gen := 7%Z;
       gens := [{| h_gen := 0; s_gen := 1; v_gen := 3; colorspace := hsv |};
                {| h_gen := 1 # 2; s_gen := 2; v_gen := 1;
                   colorspace := rgb |}];
       next := 0%Z |}
  = (Ok (Color_init rgb (PyTuple [1 # 2; 2; 1])), Some 1%Z,
     {| random := false; rand_gen := 7%Z;
        gens := [{| h_gen := 0; s_gen := 1; v_gen := 3; colorspace := hsv |};
                 {| h_gen := 1 # 2; s_gen := 2; v_gen := 1;
                    colorspace := rgb |}];
        next := 1%Z |}) /\
  unit_seq (coordinates (Color_init rgb (PyTuple [1 # 2; 2; 1]))).
Proof.
  assert (Hget :
    ColorSwarm_get
      {| random := false; rand_gen := 7%Z;
         gens := [{| h_gen := 0; s_gen := 1; v_gen := 3; colorspace := hsv |};
                  {| h_gen := 1 # 2; s_gen := 2; v_gen := 1;
                     colorspace := rgb |}];
         next := 0%Z |}
    = (Ok (Color_init rgb (PyTuple [1 # 2; 2; 1])), Some 1%Z,
       {| random := false; rand_gen := 7%Z;
          gens := [{| h_gen := 0; s_gen := 1; v_gen := 3;
                      colorspace := hsv |};
                   {| h_gen := 1 # 2; s_gen := 2; v_gen := 1;
                      colorspace := rgb |}];
          next := 1%Z |})) by reflexivity.
  split; [exact Hget|].
  destruct (ColorSwarm_get_color _ _ _ _ Hget)
    as (j & g & _ & _ & _ & _ & _ & _ & Hunit).
  exact Hunit.
Defined.

End ColorMoreExamples.
